(** * zg-codes: responsive image attributes, the blog queries, the asset
    preloader and the scene bootstrap

    A shallow embedding of the image attribute resolver (the second document
    of [src/scripts/preload-assets.ts]: [getImagesOptimized], the functions
    it calls and the two transforms), of the asset preloader (the first
    document of that file), of the script that starts the scene and of the
    queries of [src/utils/blog.ts], with the properties their specification
    states and further properties read off the code.

    How the program is read:
    - a JavaScript number is an IEEE 754 binary64 value, Rocq's primitive
      [float]: the arithmetic and the comparisons are the ones the program
      runs, NaN, the two zeros and the infinities included;
    - a string is a sequence of code units below 256 ([ascii]);
    - a value that may be [undefined] is an [option]; the hints that are
      [string | number | null] have a type of their own;
    - an object with string keys is an association list in insertion order;
    - an array is the list of its values; where the question is what a call
      writes to, the arrays live in a store and are handed over by reference;
    - a promise is what it settled to, and what [console.error] received is
      returned next to the result;
    - [Array.prototype.sort] is a stable insertion sort;
    - the transform ([ImagesOptimizer]) is a parameter, as in the source; the
      two transforms of the source are embedded over the functions of the
      packages they call, which are parameters, and a call of which returns
      or throws;
    - what the browser does with an element the preloader creates, and with
      the element of a load that was pending before, is a parameter; a loop
      that may not end runs on fuel;
    - what happens to the page is a sequence of events, and what the
      bootstrap script does to the outside is a log;
    - in [blog] a score, which the code counts up from 0, is an integer, and
      so is the [count] of the latest posts; [maxResults] is a number. *)

From Stdlib Require Import ZArith List String Ascii Bool Lia.
From Stdlib Require Import Floats DecimalString.
From Stdlib Require Import Sorted Permutation.
Import ListNotations.

Local Open Scope list_scope.
Local Open Scope string_scope.

(** ** The JavaScript primitives the sources rely on *)

Module JS.

(** [number]: an IEEE 754 double. *)
Definition number := float.
Bind Scope float_scope with number.

(** ToBoolean on a number: [+0], [-0] and [NaN] are falsy. *)
Definition truthy (x : number) : bool :=
  negb (PrimFloat.is_zero x || PrimFloat.is_nan x).

(** ToBoolean on a string: only the empty string is falsy. *)
Definition truthy_string (s : string) : bool :=
  match s with EmptyString => false | String _ _ => true end.

Definition isNaN (x : number) : bool := PrimFloat.is_nan x.

(** The exact double of an integer that is representable, its nearest
    double otherwise (round to nearest, ties to even). *)
Definition float_of_Z (z : Z) : number :=
  SF2Prim (binary_normalize prec emax z 0 false).

(** [Math.floor]. *)
Definition Math_floor (x : number) : number :=
  match Prim2SF x with
  | S754_finite s m e =>
      if (0 <=? e)%Z then x
      else
        let q := Z.shiftr (Zpos m) (- e) in
        if (Z.shiftl q (- e) =? Zpos m)%Z then x
        else if s then float_of_Z (- (q + 1))%Z else float_of_Z q
  | _ => x
  end.

(** *** Number::toString (radix 10)

    The shortest decimal that reads back as the same double, the closest to
    it among the shortest, printed in the notation ECMAScript prescribes. *)

(** [a * 2^p * 10^q] against [b * 2^r * 10^t], exactly. *)
Definition cmp_scaled (a p q b r t : Z) : comparison :=
  let p0 := Z.min p r in
  let q0 := Z.min q t in
  Z.compare (a * 2 ^ (p - p0) * 10 ^ (q - q0)) (b * 2 ^ (r - p0) * 10 ^ (t - q0)).

(** Moves [n] up until [m * 2^e < 10^n]. *)
Fixpoint raise_exp10 (fuel : nat) (m e n : Z) : Z :=
  match fuel with
  | O => n
  | S fuel' =>
      match cmp_scaled m e 0 1 0 n with
      | Lt => n
      | _ => raise_exp10 fuel' m e (n + 1)%Z
      end
  end.

(** Moves [n] down while [m * 2^e < 10^(n-1)]. *)
Fixpoint lower_exp10 (fuel : nat) (m e n : Z) : Z :=
  match fuel with
  | O => n
  | S fuel' =>
      match cmp_scaled m e 0 1 0 (n - 1)%Z with
      | Lt => lower_exp10 fuel' m e (n - 1)%Z
      | _ => n
      end
  end.

(** The [n] with [10^(n-1) <= m * 2^e < 10^n]. *)
Definition exp10_of (m e : Z) : Z :=
  let est := (((Z.log2 m + 1 + e) * 1233) / 4096)%Z in
  lower_exp10 8 m e (raise_exp10 8 m e est).

(** Does the decimal [s * 10^q] read back as the double [m * 2^e]? The
    interval of such decimals ends halfway to the neighbouring doubles and
    contains its ends when [m] is even. *)
Definition reads_back (m e s q : Z) : bool :=
  let below := if ((m =? 2 ^ 52) && (SpecFloat.emin prec emax <? e))%Z then 1%Z else 2%Z in
  let lo := cmp_scaled (4 * m - below)%Z (e - 2)%Z 0 s 0 q in
  let hi := cmp_scaled s 0 q (4 * m + 2)%Z (e - 2)%Z 0 in
  let ok c := match c with Lt => true | Eq => Z.even m | Gt => false end in
  ok lo && ok hi.

(** The shortest digits: [(s, n)] with [s * 10^(n-k)] reading back as
    [m * 2^e], [k] the number of digits of [s], tried from [k] upwards.
    Seventeen digits are enough for every double, so a fuel of 17 is never
    used up. *)
Fixpoint shortest_from (fuel : nat) (m e n k : Z) : Z * Z :=
  let q := (n - k)%Z in
  let num := (m * 2 ^ (Z.max e 0) * 10 ^ (Z.max (- q) 0))%Z in
  let den := (2 ^ (Z.max (- e) 0) * 10 ^ (Z.max q 0))%Z in
  let s_lo := (num / den)%Z in
  let s_hi := (s_lo + 1)%Z in
  match fuel with
  | O => (s_lo, n)
  | S fuel' =>
      let ok_lo := reads_back m e s_lo q in
      let ok_hi := reads_back m e s_hi q in
      let pick_hi :=
        if (s_hi =? 10 ^ k)%Z then (10 ^ (k - 1), n + 1)%Z else (s_hi, n) in
      match ok_lo, ok_hi with
      | true, false => (s_lo, n)
      | false, true => pick_hi
      | true, true =>
          (* the closer one; the even one on a tie *)
          match cmp_scaled (2 * m)%Z e 0 (s_lo + s_hi)%Z 0 q with
          | Lt => (s_lo, n)
          | Gt => pick_hi
          | Eq => if Z.even s_lo then (s_lo, n) else pick_hi
          end
      | false, false => shortest_from fuel' m e n (k + 1)%Z
      end
  end.

Definition digits_of_Z (z : Z) : string :=
  NilZero.string_of_uint (N.to_uint (Z.to_N z)).

Fixpoint zeros (n : nat) : string :=
  match n with O => "" | S n' => String "0" (zeros n') end.

(** Steps 6 to 10 of Number::toString for digits [s] and exponent [n]. *)
Definition format_decimal (s n : Z) : string :=
  let ds := digits_of_Z s in
  let k := Z.of_nat (String.length ds) in
  if ((k <=? n) && (n <=? 21))%Z then
    ds ++ zeros (Z.to_nat (n - k))
  else if ((0 <? n) && (n <=? 21))%Z then
    substring 0 (Z.to_nat n) ds ++ "." ++ substring (Z.to_nat n) (Z.to_nat (k - n)) ds
  else if ((-6 <? n) && (n <=? 0))%Z then
    "0." ++ zeros (Z.to_nat (- n)) ++ ds
  else
    let ex := (n - 1)%Z in
    let sign := if (ex <? 0)%Z then "-" else "+" in
    let mant :=
      if (k =? 1)%Z then ds
      else substring 0 1 ds ++ "." ++ substring 1 (Z.to_nat (k - 1)) ds in
    mant ++ "e" ++ sign ++ digits_of_Z (Z.abs ex).

(** [String(x)], the conversion a template literal applies to a number. *)
Definition Number_toString (x : number) : string :=
  match Prim2SF x with
  | S754_nan => "NaN"
  | S754_zero _ => "0"
  | S754_infinity s => if s then "-Infinity" else "Infinity"
  | S754_finite s m e =>
      let '(d, n) := shortest_from 17 (Zpos m) e (exp10_of (Zpos m) e) 1 in
      (if s then "-" else "") ++ format_decimal d n
  end.

(** *** Strings to numbers *)

Definition is_digit (c : ascii) : bool :=
  let n := nat_of_ascii c in (48 <=? n)%nat && (n <=? 57)%nat.

(** White space and line terminators among the code units below 256:
    TAB, LF, VT, FF, CR, SP and NBSP. *)
Definition is_space (c : ascii) : bool :=
  let n := nat_of_ascii c in
  ((9 <=? n)%nat && (n <=? 13)%nat) || (n =? 32)%nat || (n =? 160)%nat.

Definition digit_value (c : ascii) : Z := Z.of_nat (nat_of_ascii c - 48).

(** The longest prefix of characters in [p], and what follows it. *)
Fixpoint span (p : ascii -> bool) (s : string) : string * string :=
  match s with
  | String c s' =>
      if p c then let '(a, b) := span p s' in (String c a, b) else ("", s)
  | EmptyString => ("", "")
  end.

Fixpoint Z_of_digits (base : Z) (value : ascii -> Z) (acc : Z) (s : string) : Z :=
  match s with
  | String c s' => Z_of_digits base value (acc * base + value c)%Z s'
  | EmptyString => acc
  end.

Definition signed (neg : bool) (x : number) : number :=
  if neg then (- x)%float else x.

(** The double nearest to [m * 10^e] ([0 <= m]), ties to even, whatever the
    number of digits of [m]. *)
Definition decimal_to_float (neg : bool) (m e : Z) : number :=
  if (m =? 0)%Z then signed neg 0%float
  else
    let d := Z.of_nat (String.length (digits_of_Z m)) in
    if (400 <? d + e)%Z then signed neg infinity
    else if (d + e <? -400)%Z then signed neg 0%float
    else if (0 <=? e)%Z then signed neg (float_of_Z (m * 10 ^ e))
    else
      let '(q, e', l) := SFdiv_core_binary prec emax m 0 (10 ^ (- e)) 0 in
      SF2Prim (binary_round_aux prec emax neg q e' l).

(** ExponentPart: [e] or [E], an optional sign and at least one digit. *)
Definition exponent_part (s : string) : option (Z * string) :=
  match s with
  | String c s1 =>
      if (Ascii.eqb c "e" || Ascii.eqb c "E")%bool then
        let '(neg, s2) :=
          match s1 with
          | String "+" t => (false, t)
          | String "-" t => (true, t)
          | _ => (false, s1)
          end in
        let '(ds, s3) := span is_digit s2 in
        match ds with
        | EmptyString => None
        | _ =>
            let v := Z_of_digits 10 digit_value 0 ds in
            Some (if neg then (- v)%Z else v, s3)
        end
      else None
  | EmptyString => None
  end.

(** The longest prefix of [s] that is a StrDecimalLiteral: its value and
    the rest of [s]. *)
Definition str_decimal_literal (s : string) : option (number * string) :=
  let '(neg, s1) :=
    match s with
    | String "+" t => (false, t)
    | String "-" t => (true, t)
    | _ => (false, s)
    end in
  if prefix "Infinity" s1 then
    Some (signed neg infinity, substring 8 (String.length s1 - 8) s1)
  else
    let '(ip, s2) := span is_digit s1 in
    let '(fp, s3, dot) :=
      match s2 with
      | String "." t => let '(f, r) := span is_digit t in (f, r, true)
      | _ => ("", s2, false)
      end in
    match ip, fp with
    | EmptyString, EmptyString => None
    | _, _ =>
        let m := Z_of_digits 10 digit_value 0 (ip ++ fp) in
        let '(ex, s4) :=
          match exponent_part s3 with
          | Some (v, r) => (v, r)
          | None => (0%Z, s3)
          end in
        Some (decimal_to_float neg m (ex - Z.of_nat (String.length fp)), s4)
    end.

Fixpoint trim_start (s : string) : string :=
  match s with
  | String c s' => if is_space c then trim_start s' else s
  | EmptyString => s
  end.

Fixpoint trim_end (s : string) : string :=
  match s with
  | String c s' =>
      match trim_end s' with
      | EmptyString => if is_space c then "" else String c ""
      | t => String c t
      end
  | EmptyString => ""
  end.

(** The global [parseFloat]. *)
Definition parseFloat (s : string) : number :=
  match str_decimal_literal (trim_start s) with
  | Some (x, _) => x
  | None => nan
  end.

Definition hex_value (c : ascii) : option Z :=
  let n := nat_of_ascii c in
  if is_digit c then Some (Z.of_nat (n - 48))
  else if ((97 <=? n)%nat && (n <=? 102)%nat) then Some (Z.of_nat (n - 87))
  else if ((65 <=? n)%nat && (n <=? 70)%nat) then Some (Z.of_nat (n - 55))
  else None.

Definition is_digit_in (base : Z) (c : ascii) : bool :=
  match hex_value c with Some v => (v <? base)%Z | None => false end.

Definition radix_value (c : ascii) : Z :=
  match hex_value c with Some v => v | None => 0%Z end.

(** [0x], [0o] and [0b] literals of StringToNumber. *)
Definition radix_literal (s : string) : option number :=
  match s with
  | String "0" (String c t) =>
      let base :=
        if (Ascii.eqb c "x" || Ascii.eqb c "X")%bool then Some 16%Z
        else if (Ascii.eqb c "o" || Ascii.eqb c "O")%bool then Some 8%Z
        else if (Ascii.eqb c "b" || Ascii.eqb c "B")%bool then Some 2%Z
        else None in
      match base with
      | Some b =>
          let '(ds, r) := span (is_digit_in b) t in
          match ds, r with
          | String _ _, EmptyString => Some (float_of_Z (Z_of_digits b radix_value 0 ds))
          | _, _ => Some nan
          end
      | None => None
      end
  | _ => None
  end.

(** [Number(s)] for a string [s] (StringToNumber). *)
Definition StringToNumber (s : string) : number :=
  let t := trim_end (trim_start s) in
  match t with
  | EmptyString => 0%float
  | _ =>
      match radix_literal t with
      | Some x => x
      | None =>
          match str_decimal_literal t with
          | Some (x, EmptyString) => x
          | _ => nan
          end
      end
  end.

(** *** Regular expressions

    The fragment the sources use: character classes, greedy repetition of a
    class, concatenation and capture groups, matched by backtracking. *)

Inductive regex : Type :=
  | Class (p : ascii -> bool)
  | Star (p : ascii -> bool)
  | Plus (p : ascii -> bool)
  | Cat (r1 r2 : regex)
  | Group (r : regex).

(** Greedy [p*]: the longest run first, shorter ones on failure of [k]. *)
Fixpoint star_k {A : Type} (p : ascii -> bool) (s : string) (k : string -> option A) : option A :=
  match s with
  | String c s' =>
      if p c then
        match star_k p s' k with
        | Some r => Some r
        | None => k s
        end
      else k s
  | EmptyString => k s
  end.

(** What [s] has before its suffix [rest]. *)
Definition consumed (s rest : string) : string :=
  substring 0 (String.length s - String.length rest) s.

Fixpoint rmatch {A : Type} (r : regex) (s : string) (caps : list string)
    (k : string -> list string -> option A) : option A :=
  match r with
  | Class p =>
      match s with
      | String c s' => if p c then k s' caps else None
      | EmptyString => None
      end
  | Star p => star_k p s (fun s' => k s' caps)
  | Plus p =>
      match s with
      | String c s' => if p c then star_k p s' (fun s'' => k s'' caps) else None
      | EmptyString => None
      end
  | Cat r1 r2 => rmatch r1 s caps (fun s' caps' => rmatch r2 s' caps' k)
  | Group r1 => rmatch r1 s caps (fun s' caps' => k s' (caps' ++ [consumed s s'])%list)
  end.

(** [s.match(r)] for a regular expression without the global flag: the
    match at the leftmost position that has one, as the array of the whole
    match followed by the captures; [None] is [null]. *)
Fixpoint String_match (r : regex) (s : string) : option (list string) :=
  match rmatch r s [] (fun rest caps => Some (consumed s rest :: caps)) with
  | Some m => Some m
  | None =>
      match s with
      | String _ s' => String_match r s'
      | EmptyString => None
      end
  end.

(** *** Arrays, sets and objects *)

(** [a.join(sep)]. *)
Fixpoint join (sep : string) (l : list string) : string :=
  match l with
  | [] => ""
  | [x] => x
  | x :: l' => x ++ sep ++ join sep l'
  end.

(** SameValueZero, the equality of [Set] and [Map] keys. *)
Definition sameValueZero (x y : number) : bool :=
  (PrimFloat.is_nan x && PrimFloat.is_nan y) || (x =? y)%float.

(** [set.add(x)]: [-0] is stored as [+0]; a value already there is skipped. *)
Definition Set_add (seen : list number) (x : number) : list number :=
  let x' := if PrimFloat.is_zero x then 0%float else x in
  if existsb (sameValueZero x') seen then seen else (seen ++ [x'])%list.

(** [[...new Set(l)]]: the first occurrences, in insertion order. *)
Definition Set_values (l : list number) : list number :=
  fold_left Set_add l [].

Section Sorting.
Context {A : Type}.
(** [after x y]: the comparator is positive on [(x, y)], so [y] goes first. *)
Variable after : A -> A -> bool.

Fixpoint sort_insert (x : A) (l : list A) : list A :=
  match l with
  | [] => [x]
  | y :: l' => if after x y then y :: sort_insert x l' else x :: l
  end.

(** [Array.prototype.sort] as a stable insertion sort. ECMAScript fixes the
    result for a consistent comparator (sorted, and stable); for an
    inconsistent one the order is implementation-defined and this is one
    admissible choice. *)
Definition insertion_sort (l : list A) : list A :=
  fold_right sort_insert [] l.
End Sorting.

(** [l.sort(comparefn)] on numbers: a [NaN] from the comparator counts as 0. *)
Definition Array_sort (comparefn : number -> number -> number) (l : list number) : list number :=
  insertion_sort (fun x y => (0 <? comparefn x y)%float) l.

(** Objects with string keys that are not array indices: own properties in
    insertion order; a property written again keeps its place. *)
Fixpoint obj_set {V : Type} (k : string) (v : V) (o : list (string * V)) : list (string * V) :=
  match o with
  | [] => [(k, v)]
  | (k', v') :: o' =>
      if String.eqb k k' then (k, v) :: o' else (k', v') :: obj_set k v o'
  end.

Fixpoint obj_get {V : Type} (k : string) (o : list (string * V)) : option V :=
  match o with
  | [] => None
  | (k', v) :: o' => if String.eqb k k' then Some v else obj_get k o'
  end.

(** [Object.fromEntries(entries)], also [{...o, ...entries}]. *)
Definition obj_assign {V : Type} (o : list (string * V)) (entries : list (string * V)) : list (string * V) :=
  fold_left (fun acc '(k, v) => obj_set k v acc) entries o.

(** A promise that has settled. *)
Inductive Promise (A : Type) : Type :=
  | Fulfilled (a : A)
  | Rejected (reason : string).
Arguments Fulfilled {A} a.
Arguments Rejected {A} reason.

End JS.

(** ** [images-optimization]: the responsive image attribute resolver *)

Module ImagesOptimization.
Import JS.

Inductive Layout : Type :=
  | fixed | constrained | fullWidth | cover | responsive | contained.

Definition Layout_eqb (a b : Layout) : bool :=
  match a, b with
  | fixed, fixed | constrained, constrained | fullWidth, fullWidth
  | cover, cover | responsive, responsive | contained, contained => true
  | _, _ => false
  end.

(** [ImageMetadata]: the fields the resolver reads. *)
Record ImageMetadata : Type := {
  meta_src : string;
  meta_width : number;
  meta_height : number
}.

(** [ImageMetadata | string]. *)
Inductive Image : Type :=
  | ImageUrl (url : string)
  | ImageData (meta : ImageMetadata).

(** [string | number | null | undefined], the type of the [width], [height]
    and [aspectRatio] hints. *)
Inductive Dim : Type :=
  | DimUndefined
  | DimNull
  | DimNumber (x : number)
  | DimString (s : string).

(** The values of the attributes bag. *)
Inductive Attr : Type :=
  | AttrUndefined
  | AttrNull
  | AttrNumber (x : number)
  | AttrString (s : string)
  | AttrBool (b : bool).

(** [ImageProps]. [src] is destructured and dropped; [others] holds every
    further property of the object ([alt], [loading], [srcset], ...). *)
Record ImageProps : Type := {
  width : Dim;
  height : Dim;
  sizes : option string;
  aspectRatio : Dim;
  widths : option (list number);
  layout : option Layout;
  style : option string;
  others : list (string * Attr)
}.

Record SrcEntry : Type := { entry_src : string; entry_width : number }.

(** [ImagesOptimizer]. *)
Definition ImagesOptimizer : Type :=
  Image -> list number -> option number -> option number -> Promise (list SrcEntry).

(** [Object.values(DeviceSizes)]. *)
Definition deviceSizes : list number :=
  [640; 750; 828; 960; 1080; 1280; 1668; 1920; 2048; 2560; 3200; 3840;
   4480; 5120; 6016]%float.

Definition computeHeight (width aspectRatio : number) : number :=
  Math_floor (width / aspectRatio)%float.

(** [/(\d+)\s*[/:]\s*(\d+)/] *)
Definition ratio_pattern : regex :=
  Cat (Group (Plus is_digit))
    (Cat (Star is_space)
      (Cat (Class (fun c => Ascii.eqb c "/" || Ascii.eqb c ":"))
        (Cat (Star is_space) (Group (Plus is_digit))))).

Definition parseAspectRatio (aspectRatio : Dim) : option number :=
  match aspectRatio with
  | DimNumber x => Some x
  | DimString s =>
      match String_match ratio_pattern s with
      | Some m =>
          match map StringToNumber m with
          | [_; num; den] =>
              if truthy den && negb (isNaN num) then Some (num / den)%float
              else None
          | _ => None
          end
      | None =>
          let numericValue := parseFloat s in
          if negb (isNaN numericValue) then Some numericValue else None
      end
  | _ => None
  end.

Definition getSizes (width : option number) (layout : option Layout) : option string :=
  match width, layout with
  | Some w, Some l =>
      if negb (truthy w) then None
      else
        match l with
        | constrained =>
            Some ("(min-width: " ++ Number_toString w ++ "px) " ++ Number_toString w ++ "px, 100vw")
        | fixed => Some (Number_toString w ++ "px")
        | fullWidth => Some "100vw"
        | _ => None
        end
  | _, _ => None
  end.

Definition pixelate (value : option number) : option string :=
  match value with
  | Some v =>
      if truthy v || (v =? 0)%float then Some (Number_toString v ++ "px") else None
  | None => None
  end.

Definition ratio_string (aspectRatio : option number) : option string :=
  match aspectRatio with
  | Some r => if truthy r then Some (Number_toString r) else None
  | None => None
  end.

Definition is_url (background : option string) : bool :=
  match background with
  | Some b => prefix "https:" b || prefix "http:" b || prefix "data:" b
  | None => false
  end.

Definition when (l : option Layout) (which : Layout)
    (entries : list (string * option string)) : list (string * option string) :=
  match l with
  | Some l' => if Layout_eqb l' which then entries else []
  | None => []
  end.

(** The [styleEntries] array of [getStyle], before filtering. *)
Definition styleEntries (width height aspectRatio : option number)
    (layout : option Layout) (objectFit objectPosition background : option string)
    : list (string * option string) :=
  ([("object-fit", Some (match objectFit with Some v => v | None => "cover" end));
    ("object-position", Some (match objectPosition with Some v => v | None => "center" end))]
   ++ (if is_url background then
         [("background-image",
            Some ("url(" ++ match background with Some b => b | None => "" end ++ ")")%string);
          ("background-size", Some "cover");
          ("background-repeat", Some "no-repeat")]
       else [("background", background)])
   ++ when layout fixed
        [("width", pixelate width);
         ("height", pixelate height);
         ("object-position", Some "top left")]
   ++ when layout constrained
        [("max-width", pixelate width);
         ("max-height", pixelate height);
         ("aspect-ratio", ratio_string aspectRatio);
         ("width", Some "100%")]
   ++ when layout fullWidth
        [("width", Some "100%");
         ("aspect-ratio", ratio_string aspectRatio);
         ("height", pixelate height)]
   ++ when layout responsive
        [("width", Some "100%");
         ("height", Some "auto");
         ("aspect-ratio", ratio_string aspectRatio)]
   ++ when layout contained
        [("max-width", Some "100%");
         ("max-height", Some "100%");
         ("object-fit", Some "contain");
         ("aspect-ratio", ratio_string aspectRatio)]
   ++ when layout cover
        [("max-width", Some "100%");
         ("max-height", Some "100%")])%list.

(** [styleEntries.filter(([, value]) => value)], with the values unwrapped. *)
Fixpoint truthy_entries (entries : list (string * option string)) : list (string * string) :=
  match entries with
  | [] => []
  | (k, Some v) :: rest =>
      if truthy_string v then (k, v) :: truthy_entries rest else truthy_entries rest
  | (_, None) :: rest => truthy_entries rest
  end.

(** The [styles] object of [getStyle]. *)
Definition styles (width height aspectRatio : option number)
    (layout : option Layout) (objectFit objectPosition background : option string)
    : list (string * string) :=
  obj_assign []
    (truthy_entries
       (styleEntries width height aspectRatio layout objectFit objectPosition background)).

Definition declaration (entry : string * string) : string :=
  fst entry ++ ": " ++ snd entry ++ ";".

Definition getStyle (width height aspectRatio : option number)
    (layout : option Layout) (objectFit objectPosition background : option string) : string :=
  join " "
    (map declaration
       (styles width height aspectRatio layout objectFit objectPosition background)).

Definition getBreakpoints (width : option number) (breakpoints : option (list number))
    (layout : Layout) : list number :=
  let candidates := match breakpoints with Some b => b | None => deviceSizes end in
  match layout with
  | fullWidth | cover | responsive | contained => candidates
  | _ =>
      match width with
      | None => []
      | Some w =>
          if negb (truthy w) then []
          else
            let doubleWidth := (w * 2)%float in
            match layout with
            | fixed => [w; doubleWidth]
            | constrained =>
                w :: doubleWidth :: filter (fun c => (c <? doubleWidth)%float) candidates
            | _ => []
            end
      end
  end.

(** ToBoolean and [Number] on a hint. *)
Definition truthy_Dim (d : Dim) : bool :=
  match d with
  | DimNumber x => truthy x
  | DimString s => truthy_string s
  | _ => false
  end.

Definition Number_of_Dim (d : Dim) : number :=
  match d with
  | DimUndefined => nan
  | DimNull => 0%float
  | DimNumber x => x
  | DimString s => StringToNumber s
  end.

(** [x || undefined] on a number. *)
Definition or_undefined (x : number) : option number :=
  if truthy x then Some x else None.

(** [(d && Number(d)) || undefined] *)
Definition coerce (d : Dim) : option number :=
  if truthy_Dim d then or_undefined (Number_of_Dim d) else None.

(** [Number(x) || undefined] on a number that may be undefined. *)
Definition defined_truthy (x : option number) : option number :=
  match x with
  | Some v => or_undefined v
  | None => None
  end.

(** Lines 369-372 of the resolver: the hints completed from a structured
    image ([width ||= ...; height ||= ...]). *)
Definition intrinsic (image : Image) (w h : Dim) : Dim * Dim :=
  match image with
  | ImageUrl _ => (w, h)
  | ImageData meta =>
      let w' :=
        if truthy_Dim w then w
        else match or_undefined (meta_width meta) with
             | Some x => DimNumber x
             | None => DimUndefined
             end in
      let h' :=
        if truthy_Dim h then h
        else match w' with
             | DimNumber x =>
                 DimNumber (computeHeight x (meta_width meta / meta_height meta)%float)
             | _ => DimUndefined
             end in
      (w', h')
  end.

Record Dimensions : Type := {
  dim_width : option number;
  dim_height : option number;
  dim_ratio : option number;
  dim_log : list string
}.

Definition needs_dimension : list string :=
  ["When aspectRatio is set, either width or height must also be set"; "Image"].

Definition needs_ratio : list string :=
  ["Either aspectRatio or both width and height must be set"; "Image"].

(** Lines 381-402: the dimensions completed from the aspect ratio, or the
    aspect ratio from the dimensions, and what [console.error] received.
    Every test there is a truthiness test. *)
Definition normalize (w h r : option number) (l : Layout) : Dimensions :=
  let unless_fullWidth (msg : list string) :=
    if Layout_eqb l fullWidth then [] else msg in
  match defined_truthy r with
  | Some ar =>
      match defined_truthy w with
      | Some wv =>
          match defined_truthy h with
          | Some _ => Build_Dimensions w h r []
          | None => Build_Dimensions w (Some (wv / ar)%float) r []
          end
      | None =>
          match defined_truthy h with
          | Some hv => Build_Dimensions (Some (hv * ar)%float) h r []
          | None => Build_Dimensions w h r (unless_fullWidth needs_dimension)
          end
      end
  | None =>
      match defined_truthy w, defined_truthy h with
      | Some wv, Some hv => Build_Dimensions w h (Some (wv / hv)%float) []
      | _, _ => Build_Dimensions w h r (unless_fullWidth needs_ratio)
      end
  end.

(** The names the parameter pattern of the resolver takes out of the hints;
    [...rest] is what remains. *)
Definition destructured : list string :=
  ["src"; "width"; "height"; "sizes"; "aspectRatio"; "widths"; "layout"; "style"].

Definition rest_of (props : ImageProps) : list (string * Attr) :=
  filter (fun kv => negb (existsb (String.eqb (fst kv)) destructured)) (others props).

(** [layout = 'constrained'] in the parameter pattern. *)
Definition layout_of (props : ImageProps) : Layout :=
  match layout props with Some l => l | None => constrained end.

(** Lines 369-375: width and height as numbers, before the aspect ratio
    is looked at. *)
Definition coerced (image : Image) (props : ImageProps) : option number * option number :=
  let '(w, h) := intrinsic image (width props) (height props) in
  (coerce w, coerce h).

(** Lines 369-402: the dimensions the resolver settles on. *)
Definition dimensions (image : Image) (props : ImageProps) : Dimensions :=
  normalize (fst (coerced image props)) (snd (coerced image props))
    (parseAspectRatio (aspectRatio props)) (layout_of props).

(** Lines 404-405: the breakpoints handed to the transform. *)
Definition resolvedBreakpoints (image : Image) (props : ImageProps) : list number :=
  let breakpoints :=
    getBreakpoints (dim_width (dimensions image props))
      (Some (match widths props with Some l => l | None => deviceSizes end))
      (layout_of props) in
  Array_sort (fun a b => (a - b)%float) (Set_values breakpoints).

Definition srcset_entry (e : SrcEntry) : string :=
  entry_src e ++ " " ++ Number_toString (entry_width e) ++ "w".

Definition attr_of_number (x : option number) : Attr :=
  match x with Some v => AttrNumber v | None => AttrUndefined end.

Definition attr_of_string (x : option string) : Attr :=
  match x with Some v => AttrString v | None => AttrUndefined end.

Record Resolved : Type := {
  src : string;
  attributes : list (string * Attr)
}.

(** Lines 407-426: the result built from what the transform resolved to. *)
Definition assemble (image : Image) (props : ImageProps) (entries : list SrcEntry) : Resolved :=
  let d := dimensions image props in
  let l := layout_of props in
  (* line 378, before the aspect ratio is looked at *)
  let computed := getSizes (defined_truthy (fst (coerced image props))) (Some l) in
  let sizes' :=
    match sizes props with
    | Some s => if truthy_string s then Some s else computed
    | None => computed
    end in
  let srcset := join ", " (map srcset_entry entries) in
  {| src := match image with ImageUrl url => url | ImageData meta => meta_src meta end;
     attributes :=
       obj_assign
         [("width", attr_of_number (dim_width d));
          ("height", attr_of_number (dim_height d));
          ("srcset", if truthy_string srcset then AttrString srcset else AttrUndefined);
          ("sizes", attr_of_string sizes');
          ("style",
            AttrString
              (getStyle (dim_width d) (dim_height d) (dim_ratio d) (Some l) None None None
               ++ match style props with Some s => s | None => "" end))]
         (rest_of props) |}.

(** [getImagesOptimized]: what [console.error] received, and the promise. *)
Definition getImagesOptimized (image : Image) (props : ImageProps)
    (transform : option ImagesOptimizer) : list string * Promise Resolved :=
  let d := dimensions image props in
  let run :=
    match transform with
    | Some t => t
    | None => fun _ _ _ _ => Fulfilled []
    end in
  (dim_log d,
   match run image (resolvedBreakpoints image props)
           (defined_truthy (dim_width d)) (defined_truthy (dim_height d)) with
   | Fulfilled entries => Fulfilled (assemble image props entries)
   | Rejected reason => Rejected reason
   end).

End ImagesOptimization.

(** ** [images-optimization]: the arrays the resolver shares

    The resolver reads two arrays that are not its own: [config.deviceSizes],
    which belongs to the module and is the same array in every call, and
    the [widths] of the hints, which is the caller's. [ImagesOptimization]
    above takes them by their values. Here the arrays live in a store and
    are handed over by reference, so that a call which wrote to one of
    them would be seen by the caller and by the next call: an array
    literal, [filter] and the spread of a [Set] make a new array, [sort]
    works in place, and [breakpoints || config.deviceSizes] is the array
    itself. The resolver keeps nothing else between two calls. *)

Module Shared.
Import JS ImagesOptimization.

Definition Ref : Type := nat.
Definition Store : Type := list (list number).

Definition read (s : Store) (r : Ref) : list number := nth r s [].

(** A new array. *)
Definition alloc (s : Store) (a : list number) : Store * Ref :=
  ((s ++ [a])%list, List.length s).

(** An array overwritten in place. *)
Fixpoint write (s : Store) (r : Ref) (a : list number) : Store :=
  match s, r with
  | [], _ => []
  | _ :: s', O => a :: s'
  | x :: s', S r' => x :: write s' r' a
  end.

(** [config.deviceSizes]: the first array the module makes. *)
Definition config_deviceSizes : Ref := 0%nat.

(** The store when the module has been loaded. *)
Definition loaded : Store := [deviceSizes].

(** [getBreakpoints]: the array it returns. *)
Definition getBreakpoints (s : Store) (width : option number) (breakpoints : option Ref)
    (layout : Layout) : Store * Ref :=
  let candidates := match breakpoints with Some b => b | None => config_deviceSizes end in
  match layout with
  | fullWidth | cover | responsive | contained => (s, candidates)
  | _ =>
      match width with
      | None => alloc s []
      | Some w =>
          if negb (truthy w) then alloc s []
          else
            let doubleWidth := (w * 2)%float in
            match layout with
            | fixed => alloc s [w; doubleWidth]
            | constrained =>
                let '(s1, below) :=
                  alloc s (filter (fun c => (c <? doubleWidth)%float) (read s candidates)) in
                alloc s1 (w :: doubleWidth :: read s1 below)
            | _ => alloc s []
            end
      end
  end.

(** [getImagesOptimized] with the [widths] of the hints as a reference
    ([None] for null or undefined; what [props] holds as [widths] is not
    looked at), and a transform that answers from the values it is handed.
    The result is the store afterwards, what [console.error] received and
    the promise. *)
Definition getImagesOptimized (s : Store) (image : Image) (props : ImageProps)
    (widths : option Ref) (transform : option ImagesOptimizer)
    : Store * (list string * Promise Resolved) :=
  let d := dimensions image props in
  (* widths ||= config.deviceSizes *)
  let widths := match widths with Some r => r | None => config_deviceSizes end in
  let '(s1, breakpoints) :=
    getBreakpoints s (dim_width d) (Some widths) (layout_of props) in
  (* breakpoints = [...new Set(breakpoints)].sort((a, b) => a - b) *)
  let '(s2, breakpoints) := alloc s1 (Set_values (read s1 breakpoints)) in
  let s3 := write s2 breakpoints (Array_sort (fun a b => (a - b)%float) (read s2 breakpoints)) in
  let run :=
    match transform with
    | Some t => t
    | None => fun _ _ _ _ => Fulfilled []
    end in
  (s3,
   (dim_log d,
    match run image (read s3 breakpoints)
            (defined_truthy (dim_width d)) (defined_truthy (dim_height d)) with
    | Fulfilled entries => Fulfilled (assemble image props entries)
    | Rejected reason => Rejected reason
    end)).

(** The hints with the array a reference stands for. *)
Definition with_widths (props : ImageProps) (l : option (list number)) : ImageProps :=
  {| width := width props; height := height props; sizes := sizes props;
     aspectRatio := aspectRatio props; widths := l; layout := layout props;
     style := style props; others := others props |}.

(** The array the resolver takes its candidates from. *)
Definition candidates_of (s : Store) (widths : option Ref) : list number :=
  read s (match widths with Some r => r | None => config_deviceSizes end).

(** A reference to an array of the store. *)
Definition valid (s : Store) (r : Ref) : Prop := (r < List.length s)%nat.

(** The store of a caller who keeps an array of widths that is neither
    sorted nor free of duplicates. *)
Definition caller : Store := [deviceSizes; [1200; 400; 1200]%float].

End Shared.

(** ** [blog]: related posts *)

Module Blog.
Import JS.

(** A category or a tag of a normalized post. *)
Record Taxonomy : Type := { slug : string; title : string }.

(** [Post]: the fields [getRelatedPosts] reads. *)
Record Post : Type := {
  post_id : string;
  post_slug : string;
  post_category : option Taxonomy;
  post_tags : option (list Taxonomy)
}.

Record Scored : Type := { post : Post; score : Z }.

Definition SCORE_POSTS_INCREMENT : Z := 5.
Definition RELATED_POSTS_COUNT : number := 4%float.

(** [new Set(originalPost.tags ? originalPost.tags.map((tag) => tag.slug) : [])]
    and its [has]. *)
Definition originalTagsSet (originalPost : Post) : list string :=
  match post_tags originalPost with
  | Some tags => map slug tags
  | None => []
  end.

Definition has (set : list string) (s : string) : bool :=
  existsb (String.eqb s) set.

Definition same_category (iteratedPost originalPost : Post) : bool :=
  match post_category iteratedPost, post_category originalPost with
  | Some c, Some c' => String.eqb (slug c) (slug c')
  | _, _ => false
  end.

(** The [SCORE] the reducer computes for one post. *)
Definition score_of (originalPost iteratedPost : Post) : Z :=
  let SCORE := if same_category iteratedPost originalPost then SCORE_POSTS_INCREMENT else 0%Z in
  match post_tags iteratedPost with
  | Some tags =>
      fold_left
        (fun acc tag => if has (originalTagsSet originalPost) (slug tag) then (acc + 1)%Z else acc)
        tags SCORE
  | None => SCORE
  end.

(** The reducer of [allPosts.reduce]. *)
Definition score_step (originalPost : Post) (acc : list Scored) (iteratedPost : Post) : list Scored :=
  if String.eqb (post_slug iteratedPost) (post_slug originalPost) then acc
  else (acc ++ [{| post := iteratedPost; score := score_of originalPost iteratedPost |}])%list.

Definition postsWithScores (allPosts : list Post) (originalPost : Post) : list Scored :=
  fold_left (score_step originalPost) allPosts [].

(** [postsWithScores.sort((a, b) => b.score - a.score)] *)
Definition sorted_by_score (l : list Scored) : list Scored :=
  insertion_sort (fun a b => (0 <? score b - score a)%Z) l.

(** The [while] loop: one iteration for each scored post, as long as
    [selectedPosts.length < maxResults]; [maxResults] is a number, the
    length is compared with it as a number. *)
Fixpoint select (selectedPosts : list Post) (remaining : list Scored) (maxResults : number) : list Post :=
  match remaining with
  | [] => selectedPosts
  | p :: remaining' =>
      if (float_of_Z (Z.of_nat (List.length selectedPosts)) <? maxResults)%float
      then select (selectedPosts ++ [post p])%list remaining' maxResults
      else selectedPosts
  end.

(** [getRelatedPosts]; [allPosts] is what [fetchPosts] resolves to;
    [maxResults] is [None] for a call that leaves it out. *)
Definition getRelatedPosts (allPosts : list Post) (originalPost : Post)
    (maxResults : option number) : list Post :=
  select []
    (sorted_by_score (postsWithScores allPosts originalPost))
    (match maxResults with Some n => n | None => RELATED_POSTS_COUNT end).

End Blog.

(** ** Devices of the proofs *)

Module FloatOrder.

Local Open Scope Z_scope.

(** The position of a double on the line of integers: its value scaled by
    [2^1074], the infinities just beyond the largest finite value. *)
Definition ord (x : spec_float) : Z :=
  match x with
  | S754_zero _ => 0
  | S754_infinity s => if s then - 2 ^ 2098 else 2 ^ 2098
  | S754_nan => 0
  | S754_finite s m e =>
      if s then - (Zpos m * 2 ^ (e + 1074)) else Zpos m * 2 ^ (e + 1074)
  end.

Definition not_nan (x : spec_float) : Prop := x <> S754_nan.

(** A result of rounding that carries the sign [s]: finite or infinite. *)
Definition signed_as (s : bool) (r : spec_float) : Prop :=
  match r with
  | S754_finite s' _ _ | S754_infinity s' => s' = s
  | _ => False
  end.

Definition SFpositive (r : spec_float) : bool := SFltb (S754_zero false) r.

(** The position of a primitive double. *)
Definition position (x : float) : Z := ord (Prim2SF x).

(** The value a [Set] stores for [x]. *)
Definition canonical (x : float) : float :=
  if PrimFloat.is_zero x then 0%float else x.

End FloatOrder.

Module Text.
Import JS.

(** every character of [s] is in [p] *)
Fixpoint all_in (p : ascii -> bool) (s : string) : bool :=
  match s with
  | String c s' => p c && all_in p s'
  | EmptyString => true
  end.

(** a non-empty string of decimal digits *)
Definition digits (s : string) : bool := truthy_string s && all_in is_digit s.

(** [s] does not begin with a character in [p] *)
Definition stops (p : ascii -> bool) (s : string) : bool :=
  match s with
  | String c _ => negb (p c)
  | EmptyString => true
  end.

End Text.

Module BlogSpec.
Import JS Blog.

(** The score as the specification words it: 5 when both posts have a
    category and the slugs agree, plus the number of the candidate's tags
    whose slug is a tag slug of the original post. *)
Definition tag_slugs (p : Post) : list string :=
  match post_tags p with Some tags => map slug tags | None => [] end.

Definition related_score (originalPost candidate : Post) : Z :=
  (match post_category candidate, post_category originalPost with
   | Some c, Some c' => if string_dec (slug c) (slug c') then 5 else 0
   | _, _ => 0
   end
   + Z.of_nat
       (List.length
          (filter (fun s => if in_dec string_dec s (tag_slugs originalPost) then true else false)
             (tag_slugs candidate))))%Z.

(** A small collection: the original post ["intro"] and four others. *)
Definition tag (s : string) : Taxonomy := {| slug := s; title := s |}.

Definition intro : Post :=
  {| post_id := "1"; post_slug := "intro";
     post_category := Some (tag "rocq");
     post_tags := Some [tag "proofs"; tag "floats"] |}.

Definition other : Post :=
  {| post_id := "2"; post_slug := "other";
     post_category := Some (tag "gardening");
     post_tags := Some [tag "proofs"] |}.

Definition deep : Post :=
  {| post_id := "3"; post_slug := "deep";
     post_category := Some (tag "rocq");
     post_tags := Some [tag "floats"; tag "proofs"; tag "tactics"] |}.

Definition misc : Post :=
  {| post_id := "4"; post_slug := "misc"; post_category := None; post_tags := None |}.

Definition types : Post :=
  {| post_id := "5"; post_slug := "types";
     post_category := Some (tag "rocq"); post_tags := Some [] |}.

Definition collection : list Post := [other; intro; misc; types; deep].

End BlogSpec.

(** The vocabulary of the statements below, and the inputs of their
    examples. *)

Module Statements.
Import JS ImagesOptimization.

(** [breakpoints || config.deviceSizes] *)
Definition candidates (breakpoints : option (list number)) : list number :=
  match breakpoints with Some b => b | None => deviceSizes end.

(** [{}] *)
Definition no_hints : ImageProps :=
  {| width := DimUndefined; height := DimUndefined; sizes := None;
     aspectRatio := DimUndefined; widths := None; layout := None;
     style := None; others := [] |}.

(** The sequence [getImagesOptimized] makes of a list of breakpoints. *)
Definition final (breakpoints : list number) : list number :=
  Array_sort (fun a b => (a - b)%float) (Set_values breakpoints).

(** No two members are the same value to [SameValueZero]. *)
Definition distinct (l : list float) : Prop :=
  ForallOrdPairs (fun a b => sameValueZero a b = false) l.

(** [part] occurs in [whole] *)
Definition contains (part whole : string) : Prop :=
  exists before after, whole = before ++ part ++ after.

(** [sep] is [/] or [:] *)
Definition is_separator (sep : ascii) : bool :=
  Ascii.eqb sep "/" || Ascii.eqb sep ":".

(** The [srcset] of the attributes the resolver returned, if it returned. *)
Definition srcset_of (result : list string * Promise Resolved) : option Attr :=
  match snd result with
  | Fulfilled r => obj_get "srcset" (attributes r)
  | Rejected _ => None
  end.

(** Hints that are numbers, for an image given by its URL. *)
Definition number_hints (w h r : Dim) (l : Layout) : ImageProps :=
  {| width := w; height := h; sizes := None; aspectRatio := r; widths := None;
     layout := Some l; style := None; others := [] |}.

(** Hints with candidate widths and a layout only. *)
Definition width_hints (c : list number) (l : Layout) : ImageProps :=
  {| width := DimUndefined; height := DimUndefined; sizes := None;
     aspectRatio := DimUndefined; widths := Some c; layout := Some l;
     style := None; others := [] |}.

(** Hints that only pass attributes through. *)
Definition passing (attrs : list (string * Attr)) : ImageProps :=
  {| width := DimUndefined; height := DimUndefined; sizes := None;
     aspectRatio := DimUndefined; widths := None; layout := None;
     style := None; others := attrs |}.

(** A transform that resolves to the given entries. *)
Definition resolving (entries : list SrcEntry) : ImagesOptimizer :=
  fun _ _ _ _ => Fulfilled entries.

(** A transform that names one URL for every breakpoint it is given. *)
Definition one_for_each (url : string) : ImagesOptimizer :=
  fun _ breakpoints _ _ =>
    Fulfilled (map (fun w => {| entry_src := url; entry_width := w |}) breakpoints).

End Statements.

(** ** Further primitives: slices, key order, string cuts, [Promise.all] *)

Module Builtins.
Import JS Text.

(** The index [Array.prototype.slice] makes of an argument: counted from the
    end when negative, clamped to the array. *)
Definition relative_index (len i : Z) : Z :=
  if (i <? 0)%Z then Z.max (len + i) 0 else Z.min i len.

(** [l.slice(start, end)] for integer arguments. *)
Definition Array_slice {A : Type} (l : list A) (start stop : Z) : list A :=
  let len := Z.of_nat (List.length l) in
  let k := relative_index len start in
  let final := relative_index len stop in
  firstn (Z.to_nat (final - k)) (skipn (Z.to_nat k) l).

(** The array index a property key is, if it is one: a canonical decimal
    below [2^32 - 1]. *)
Definition array_index (k : string) : option Z :=
  if digits k && (String.eqb k "0" || negb (prefix "0" k)) then
    let v := Z_of_digits 10 digit_value 0 k in
    if (v <? 4294967295)%Z then Some v else None
  else None.

Definition is_array_index (k : string) : bool :=
  match array_index k with Some _ => true | None => false end.

Definition index_of (k : string) : Z :=
  match array_index k with Some v => v | None => 0%Z end.

(** [Object.keys(o)]: the array indices in ascending order, then the other
    keys in the order of their creation. *)
Definition Object_keys {V : Type} (o : list (string * V)) : list string :=
  (insertion_sort (fun x y => (index_of y <? index_of x)%Z)
     (filter is_array_index (map fst o))
   ++ filter (fun k => negb (is_array_index k)) (map fst o))%list.

(** [o[k] = v] on an object created by [{}]: the key [__proto__] reaches the
    setter of [Object.prototype] and creates no property. *)
Definition obj_put {V : Type} (k : string) (v : V) (o : list (string * V)) : list (string * V) :=
  if String.eqb k "__proto__" then o else obj_set k v o.

(** What follows the last [sep] of [s]; [None] when [s] has no [sep]. *)
Fixpoint after_last (sep : ascii) (s : string) : option string :=
  match s with
  | String c s' =>
      match after_last sep s' with
      | Some r => Some r
      | None => if Ascii.eqb c sep then Some s' else None
      end
  | EmptyString => None
  end.

(** [s.split(sep).pop()] for a separator of one character. *)
Definition split_pop (sep : ascii) (s : string) : string :=
  match after_last sep s with Some r => r | None => s end.

(** [toLowerCase] on a code unit below 256: the letters A-Z and the capital
    letters of Latin-1. *)
Definition lower (c : ascii) : ascii :=
  let n := nat_of_ascii c in
  if ((65 <=? n)%nat && (n <=? 90)%nat)
     || ((192 <=? n)%nat && (n <=? 214)%nat)
     || ((216 <=? n)%nat && (n <=? 222)%nat)
  then ascii_of_nat (n + 32) else c.

Fixpoint toLowerCase (s : string) : string :=
  match s with
  | String c s' => String (lower c) (toLowerCase s')
  | EmptyString => EmptyString
  end.

Fixpoint drop (n : nat) (s : string) : string :=
  match n, s with
  | S n', String _ s' => drop n' s'
  | _, _ => s
  end.

(** [s.replace(pattern, '')] for a string pattern: the first occurrence is
    taken out. *)
Fixpoint remove_first (pattern s : string) : string :=
  if prefix pattern s then drop (String.length pattern) s
  else
    match s with
    | String c s' => String c (remove_first pattern s')
    | EmptyString => EmptyString
    end.

(** [Promise.all] over settled promises: the values in the order of the
    promises; it rejects when one of them rejects (with the reason of the
    first of them here; in time, of the one that rejects first). *)
Fixpoint Promise_all {A : Type} (l : list (Promise A)) : Promise (list A) :=
  match l with
  | [] => Fulfilled []
  | Fulfilled a :: l' =>
      match Promise_all l' with
      | Fulfilled r => Fulfilled (a :: r)
      | Rejected reason => Rejected reason
      end
  | Rejected reason :: _ => Rejected reason
  end.

End Builtins.

(** ** [images-optimization]: the two transforms

    [getImage] of [astro:assets] and [parseUrl], [transformUrl] of [unpic]
    belong to other packages: they are parameters here. [getImage] gives a
    promise, which may reject; a call of [parseUrl] or of [transformUrl]
    returns or throws. *)

Module Optimizers.
Import JS Builtins ImagesOptimization.

(** A call that returns or throws. *)
Inductive Completion (A : Type) : Type :=
  | Normal (a : A)
  | Throw (reason : string).
Arguments Normal {A} a.
Arguments Throw {A} reason.

Section Astro.
(** [(await getImage({ src: image, width: w, inferSize: true })).src] *)
Variable getImage : Image -> number -> Promise string.

Definition astroAsseetsOptimizer : ImagesOptimizer :=
  fun image breakpoints _width _height =>
    let missing := match image with
                   | ImageUrl url => negb (truthy_string url)
                   | ImageData _ => false
                   end in
    if missing then Fulfilled []
    else
      Promise_all
        (map (fun w =>
                match getImage image w with
                | Fulfilled url => Fulfilled {| entry_src := url; entry_width := w |}
                | Rejected reason => Rejected reason
                end)
           breakpoints).
End Astro.

Section Unpic.
(** [parseUrl(image)]: the CDN of a URL it recognises, undefined for any
    other, an exception for what it cannot read as a URL. *)
Variable parseUrl : string -> Completion (option string).
(** [transformUrl({ url, width, height, cdn })] *)
Variable transformUrl :
  string -> number -> option number -> string -> Completion (option string).

Definition isUnpicCompatible (image : string) : Completion bool :=
  match parseUrl image with
  | Normal (Some _) => Normal true
  | Normal None => Normal false
  | Throw reason => Throw reason
  end.

(** The [height] handed to [transformUrl] for the breakpoint [w]. *)
Definition scaled_height (w : number) (width height : option number) : option number :=
  match width, height with
  | Some wv, Some hv =>
      if truthy wv && truthy hv then Some (computeHeight w (wv / hv)%float) else height
  | _, _ => height
  end.

(** [transformUrl(...) || image] *)
Definition or_image (image : string) (transformed : option string) : string :=
  match transformed with
  | Some u => if truthy_string u then u else image
  | None => image
  end.

(** An exception of [parseUrl] leaves the async function, which rejects
    with it; an exception of [transformUrl] rejects the promise of its
    breakpoint, and with it [Promise.all]. *)
Definition unpicOptimizer : ImagesOptimizer :=
  fun image breakpoints width height =>
    match image with
    | ImageData _ => Fulfilled []
    | ImageUrl url =>
        if negb (truthy_string url) then Fulfilled []
        else
          match parseUrl url with
          | Throw reason => Rejected reason
          | Normal None => Fulfilled []
          | Normal (Some cdn) =>
              Promise_all
                (map (fun w =>
                        match transformUrl url w (scaled_height w width height) cdn with
                        | Throw reason => Rejected reason
                        | Normal transformed =>
                            Fulfilled {| entry_src := or_image url transformed;
                                         entry_width := w |}
                        end)
                   breakpoints)
          end
    end.
End Unpic.

End Optimizers.

(** ** [initAssetPreload]: the asset preloader

    The first document of [src/scripts/preload-assets.ts]. The element a
    loader creates fires [load], fires [error], or neither: which one is
    the browser's doing, a parameter here. The state is the [loadedAssets]
    map. An entry that is ['loading'] when [preloadAssets] is called belongs
    to a loader that is still pending; its element may fire while the call
    awaits loaders of its own, which is a second parameter. No other call
    is made while the one at hand runs. *)

Module AssetPreload.
Import JS Builtins.

(** A value of [loadedAssets]. *)
Inductive Asset : Type :=
  | Loading                      (* { status: 'loading', promise } *)
  | Loaded (url : string)        (* { status: 'loaded', url } *)
  | Failed (error : string).     (* { status: 'error', error } *)

(** What the element created for a URL does. *)
Inductive Event : Type := OnLoad | OnError | Silence.

(** What [preloadAsset] resolves to: the URL after a load of its own, the
    entry of [loadedAssets] when the URL was there already. *)
Inductive Value : Type :=
  | Url (url : string)
  | Entry (asset : Asset).

(** An element of the array [preloadAssets] returns. *)
Inductive Result : Type :=
  | success (url : string) (result : Value)
  | error (url : string) (reason : string).

Definition result_url (r : Result) : string :=
  match r with success url _ | error url _ => url end.

Definition is_success (r : Result) : bool :=
  match r with success _ _ => true | error _ _ => false end.

Definition Assets : Type := list (string * Asset).

(** A run that returned, one that awaits a promise that never settles, and
    one that was still in its loop when the fuel ran out. *)
Inductive Run (A : Type) : Type :=
  | Returned (a : A)
  | Awaiting
  | Looping.
Arguments Returned {A} a.
Arguments Awaiting {A}.
Arguments Looping {A}.

(** How [preloadAsset] answered: from the map, or by a loader of its own. *)
Inductive Call : Type :=
  | Cached (asset : Asset)
  | Started.

Section Preloader.
(** What the element does that a loader of the call creates for a URL. *)
Variable browser : string -> Event.
(** What the element of a loader that was pending before the call does
    while the call awaits the chunk at the index [i]. *)
Variable meanwhile : Z -> string -> Event.

Definition fileExtension (url : string) : string :=
  toLowerCase (split_pop "." url).

(** The reason [createLoader] rejects with. *)
Definition failure (url type : string) : string :=
  if String.eqb type "mp4" then "Failed to load video: " ++ url
  else "Failed to load image: " ++ url.

(** [preloadAsset] up to its [return]: nothing is awaited before. *)
Definition preloadAsset (loadedAssets : Assets) (url : string) : Assets * Call :=
  match obj_get url loadedAssets with
  | Some asset => (loadedAssets, Cached asset)
  | None => (obj_set url Loading loadedAssets, Started)
  end.

(** [chunk.map((url) => preloadAsset(url)...)]: the calls of one chunk, made
    one after the other before anything settles. *)
Fixpoint start (loadedAssets : Assets) (chunk : list string) : Assets * list (string * Call) :=
  match chunk with
  | [] => (loadedAssets, [])
  | url :: chunk' =>
      let '(a1, call) := preloadAsset loadedAssets url in
      let '(a2, calls) := start a1 chunk' in
      (a2, (url, call) :: calls)
  end.

(** Every loader of the chunk settles, its handlers update the map, and
    each call becomes a result. *)
Fixpoint settle (loadedAssets : Assets) (calls : list (string * Call)) : Run (Assets * list Result) :=
  match calls with
  | [] => Returned (loadedAssets, [])
  | (url, call) :: calls' =>
      match call with
      | Cached asset =>
          match settle loadedAssets calls' with
          | Returned (a, rs) => Returned (a, success url (Entry asset) :: rs)
          | Awaiting => Awaiting
          | Looping => Looping
          end
      | Started =>
          match browser url with
          | OnLoad =>
              match settle (obj_set url (Loaded url) loadedAssets) calls' with
              | Returned (a, rs) => Returned (a, success url (Url url) :: rs)
              | Awaiting => Awaiting
              | Looping => Looping
              end
          | OnError =>
              let reason := failure url (fileExtension url) in
              match settle (obj_set url (Failed reason) loadedAssets) calls' with
              | Returned (a, rs) => Returned (a, error url reason :: rs)
              | Awaiting => Awaiting
              | Looping => Looping
              end
          | Silence => Awaiting
          end
      end
  end.

(** The handlers [then] and [catch] of a loader that was pending: when
    its element fires, they replace the entry that is ['loading']. *)
Definition fired (i : Z) (url : string) (asset : Asset) : Asset :=
  match asset with
  | Loading =>
      match meanwhile i url with
      | OnLoad => Loaded url
      | OnError => Failed (failure url (fileExtension url))
      | Silence => Loading
      end
  | _ => asset
  end.

Definition fire (i : Z) (loadedAssets : Assets) : Assets :=
  map (fun entry => (fst entry, fired i (fst entry) (snd entry))) loadedAssets.

(** The chunk has a loader of its own to wait for. *)
Definition waits (calls : list (string * Call)) : bool :=
  existsb (fun c => match snd c with Started => true | Cached _ => false end) calls.

(** [await Promise.all(chunkPromises)] for the chunk at [i]. Calls answered
    from the map settle at once, and nothing else runs before the loop goes
    on; while a loader of the chunk is awaited, the elements of loaders
    that were pending may fire as well. *)
Definition await_all (i : Z) (loadedAssets : Assets) (calls : list (string * Call))
    : Run (Assets * list Result) :=
  match settle loadedAssets calls with
  | Returned (a, rs) => Returned (if waits calls then fire i a else a, rs)
  | Awaiting => Awaiting
  | Looping => Looping
  end.

(** The [for] loop of [preloadAssets] from the index [i], with [fuel]
    iterations at most. *)
Fixpoint preload_from (fuel : nat) (loadedAssets : Assets) (urls : list string)
    (concurrent i : Z) (results : list Result) : Run (Assets * list Result) :=
  if (i <? Z.of_nat (List.length urls))%Z then
    match fuel with
    | O => Looping
    | S fuel' =>
        let chunk := Array_slice urls i (i + concurrent) in
        let '(a1, calls) := start loadedAssets chunk in
        match await_all i a1 calls with
        | Returned (a2, rs) =>
            preload_from fuel' a2 urls concurrent (i + concurrent)%Z (results ++ rs)%list
        | Awaiting => Awaiting
        | Looping => Looping
        end
    end
  else Returned (loadedAssets, results).

(** [preloadAssets(urls, { concurrent })], [concurrent] an integer. *)
Definition preloadAssets (fuel : nat) (loadedAssets : Assets) (urls : list string)
    (concurrent : option Z) : Run (Assets * list Result) :=
  preload_from fuel loadedAssets urls
    (match concurrent with Some c => c | None => 3%Z end) 0 [].

(** [findAssets] on the keys of the glob. *)
Definition findAssets (paths : list string) : list string :=
  map (remove_first "/public") paths.

Record Summary : Type := { total : nat; successful : nat; failed : nat }.

Definition summary (results : list Result) : Summary :=
  {| total := List.length results;
     successful := List.length (filter is_success results);
     failed := List.length (filter (fun r => negb (is_success r)) results) |}.

(** [init]: the map afterwards, the results and the summary it logs. *)
Definition init (fuel : nat) (loadedAssets : Assets) (paths : list string)
    : Run (Assets * list Result * Summary) :=
  match preloadAssets fuel loadedAssets (findAssets paths) None with
  | Returned (a, results) => Returned (a, results, summary results)
  | Awaiting => Awaiting
  | Looping => Looping
  end.

End Preloader.

End AssetPreload.

(** ** [blog]: loading, lookups and static paths *)

Module BlogQueries.
Import JS Builtins Blog.

(** A normalized post with what [load] reads: the time value of its
    [publishDate] ([NaN] for an invalid date) and its [draft] flag. *)
Record Normalized : Type := {
  normalized : Post;
  publishDate : number;
  draft : bool
}.

(** [load], on the posts [getNormalizedPost] produced. *)
Definition load (normalizedPosts : list Normalized) : list Normalized :=
  filter (fun post => negb (draft post))
    (insertion_sort
       (fun a b => (0 <? publishDate b - publishDate a)%float)
       normalizedPosts).

(** [posts.some((post) => test(post) && r.push(post))]: the first post that
    passes is pushed, and ends the search. *)
Fixpoint some_push (test : Post -> bool) (posts r : list Post) : list Post :=
  match posts with
  | [] => r
  | p :: posts' => if test p then (r ++ [p])%list else some_push test posts' r
  end.

(** [findPostsBySlugs]; [None] is an argument that is no array. *)
Definition findPostsBySlugs (posts : list Post) (slugs : option (list string)) : list Post :=
  match slugs with
  | None => []
  | Some l =>
      fold_left
        (fun r slug => some_push (fun p => String.eqb slug (post_slug p)) posts r) l []
  end.

Definition findPostsByIds (posts : list Post) (ids : option (list string)) : list Post :=
  match ids with
  | None => []
  | Some l =>
      fold_left
        (fun r id => some_push (fun p => String.eqb id (post_id p)) posts r) l []
  end.



(** [post.category?.slug] *)
Definition category_slug (p : Post) : option string :=
  match post_category p with Some c => Some (slug c) | None => None end.

Definition in_category (categorySlug : string) (p : Post) : bool :=
  match category_slug p with
  | Some s => truthy_string s && String.eqb categorySlug s
  | None => false
  end.

(** The [categories] object of [getStaticPathsBlogCategory]. *)
Definition categories (posts : list Post) : list (string * Taxonomy) :=
  fold_left
    (fun acc p =>
       match post_category p with
       | Some c => if truthy_string (slug c) then obj_put (slug c) c acc else acc
       | None => acc
       end)
    posts [].

(** [post.tags.find((elem) => elem.slug === tagSlug)], as a truth value. *)
Definition has_tag (tagSlug : string) (p : Post) : bool :=
  match post_tags p with
  | Some tags => existsb (fun elem => String.eqb (slug elem) tagSlug) tags
  | None => false
  end.

(** The [tags] object of [getStaticPathsBlogTag]. *)
Definition tags (posts : list Post) : list (string * Taxonomy) :=
  fold_left
    (fun acc p =>
       match post_tags p with
       | Some ts => fold_left (fun acc' t => obj_put (slug t) t acc') ts acc
       | None => acc
       end)
    posts [].

Section Paths.
(** [paginate] of Astro, already given the base and the page size: from the
    posts, the slug and the taxonomy of a group to its pages. *)
Context {Page : Type}.
Variable paginate : list Post -> string -> option Taxonomy -> list Page.
Variables isBlogEnabled isBlogCategoryRouteEnabled isBlogTagRouteEnabled : bool.

(** The calls of [paginate] that [getStaticPathsBlogCategory] makes. *)
Definition categoryGroups (posts : list Post) : list (list Post * string * option Taxonomy) :=
  map (fun categorySlug =>
         (filter (in_category categorySlug) posts, categorySlug,
          obj_get categorySlug (categories posts)))
    (Object_keys (categories posts)).

Definition getStaticPathsBlogCategory (posts : list Post) : list Page :=
  if negb isBlogEnabled || negb isBlogCategoryRouteEnabled then []
  else flat_map (fun '(group, s, c) => paginate group s c) (categoryGroups posts).

Definition tagGroups (posts : list Post) : list (list Post * string * option Taxonomy) :=
  map (fun tagSlug =>
         (filter (has_tag tagSlug) posts, tagSlug, obj_get tagSlug (tags posts)))
    (Object_keys (tags posts)).

Definition getStaticPathsBlogTag (posts : list Post) : list Page :=
  if negb isBlogEnabled || negb isBlogTagRouteEnabled then []
  else flat_map (fun '(group, s, c) => paginate group s c) (tagGroups posts).

End Paths.

End BlogQueries.

(** ** The scene bootstrap

    The script of [src/unnamed/part_000], the caller of [initAssetPreload]:
    its module variables are the state, what the page does is a sequence of
    events, and what the script does to the outside ([localStorage], the
    scenes [createScene] returns) is a log. A scene is named by the number
    of scenes created before it. *)

Module SceneBootstrap.

Inductive Action : Type :=
  | setItem                    (* localStorage.setItem('threejs_initialized', 'true') *)
  | createScene (scene : nat)  (* createScene('scene', isDevelopment) *)
  | scene_init (scene : nat)
  | scene_cleanup (scene : nat).

(** The listeners the script registers with [{ once: true }]. *)
Inductive Listener : Type := scroll | click | mousemove | touchstart.

Definition Listener_eqb (a b : Listener) : bool :=
  match a, b with
  | scroll, scroll | click, click | mousemove, mousemove | touchstart, touchstart => true
  | _, _ => false
  end.

Inductive Event : Type :=
  | window_event (l : Listener)
  | timeout                    (* the 3000 ms timer *)
  | before_swap                (* astro:before-swap *)
  | page_load.                 (* astro:page-load *)

Record State : Type := {
  isInitialized : bool;
  sceneManager : option nat;   (* sceneManager['scene'] *)
  listeners : list Listener;   (* the listeners still registered *)
  timer : bool;                (* the timer is pending *)
  scenes : nat;                (* the scenes created so far *)
  log : list Action
}.

(** [sceneManager[CANVAS_ID] = createScene(...); sceneManager[CANVAS_ID].init()] *)
Definition create (s : State) : State :=
  {| isInitialized := isInitialized s;
     sceneManager := Some (scenes s);
     listeners := listeners s;
     timer := timer s;
     scenes := S (scenes s);
     log := (log s ++ [createScene (scenes s); scene_init (scenes s)])%list |}.

Definition initThreeJS (s : State) : State :=
  if isInitialized s then s
  else
    let s1 :=
      {| isInitialized := true;
         sceneManager := sceneManager s;
         listeners := listeners s;
         timer := timer s;
         scenes := scenes s;
         log := (log s ++ [setItem])%list |} in
    match sceneManager s with
    | Some _ => s1
    | None => create s1
    end.

Definition init (s : State) : State := initThreeJS s.

(** The script when the module is evaluated; [isThreeJSCached] is what
    [localStorage] answered. *)
Definition boot (isThreeJSCached : bool) : State :=
  let s0 :=
    {| isInitialized := false; sceneManager := None; listeners := []; timer := false;
       scenes := 0; log := [] |} in
  if isThreeJSCached then init s0
  else
    {| isInitialized := false; sceneManager := None;
       listeners := [scroll; click; mousemove; touchstart]; timer := true;
       scenes := 0; log := [] |}.

Definition unregister (l : Listener) (s : State) : State :=
  {| isInitialized := isInitialized s;
     sceneManager := sceneManager s;
     listeners := filter (fun l' => negb (Listener_eqb l l')) (listeners s);
     timer := timer s;
     scenes := scenes s;
     log := log s |}.

(** What the script does on an event. *)
Definition handle (s : State) (e : Event) : State :=
  match e with
  | window_event l =>
      if existsb (Listener_eqb l) (listeners s) then init (unregister l s) else s
  | timeout =>
      if timer s then
        init {| isInitialized := isInitialized s; sceneManager := sceneManager s;
                listeners := listeners s; timer := false; scenes := scenes s;
                log := log s |}
      else s
  | before_swap =>
      {| isInitialized := isInitialized s;
         sceneManager := None;
         listeners := listeners s;
         timer := timer s;
         scenes := scenes s;
         log := match sceneManager s with
                | Some scene => (log s ++ [scene_cleanup scene])%list
                | None => log s
                end |}
  | page_load =>
      match sceneManager s with
      | Some _ => s
      | None => if isInitialized s then create s else s
      end
  end.

Definition run (isThreeJSCached : bool) (events : list Event) : State :=
  fold_left handle events (boot isThreeJSCached).

End SceneBootstrap.

(** The vocabulary and the examples of the further statements. *)

Module Wording.
Import JS Builtins ImagesOptimization.

(** [c] is no decimal digit *)
Definition no_digit (c : ascii) : bool := negb (is_digit c).

(** The first element that passes [test], as a list of one or none. *)
Definition first_match {A : Type} (test : A -> bool) (l : list A) : list A :=
  match find test l with Some x => [x] | None => [] end.

(** The slug of a group of [categoryGroups] or [tagGroups]. *)
Definition group_slug (g : list Blog.Post * string * option Blog.Taxonomy) : string :=
  snd (fst g).

(** The posts of a collection that are not the original post. *)
Definition others_of (allPosts : list Blog.Post) (originalPost : Blog.Post) : list Blog.Post :=
  filter (fun p => negb (String.eqb (Blog.post_slug p) (Blog.post_slug originalPost))) allPosts.

(** The properties [getStaticPathsBlogCategory] writes to its [categories]
    object, in the order of the posts, and those [getStaticPathsBlogTag]
    writes to [tags]. *)
Definition category_entries (posts : list Blog.Post) : list (string * Blog.Taxonomy) :=
  flat_map
    (fun p =>
       match Blog.post_category p with
       | Some c => if truthy_string (Blog.slug c) then [(Blog.slug c, c)] else []
       | None => []
       end)
    posts.

Definition tag_entries (posts : list Blog.Post) : list (string * Blog.Taxonomy) :=
  flat_map
    (fun p =>
       match Blog.post_tags p with
       | Some ts => map (fun t => (Blog.slug t, t)) ts
       | None => []
       end)
    posts.

(** [k] is a key an object created by [{}] can be given by assignment. *)
Definition plain_key (k : string) : bool := negb (String.eqb k "__proto__").

(** [u] is among [l] *)
Definition mem (u : string) (l : list string) : bool := existsb (String.eqb u) l.

(** What a loader of its own leaves in [loadedAssets] for a URL. *)
Definition outcome (browser : string -> AssetPreload.Event) (url : string)
    : option AssetPreload.Asset :=
  match browser url with
  | AssetPreload.OnLoad => Some (AssetPreload.Loaded url)
  | AssetPreload.OnError =>
      Some (AssetPreload.Failed (AssetPreload.failure url (AssetPreload.fileExtension url)))
  | AssetPreload.Silence => None
  end.

(** The result for a URL that is loaded by a loader of its own. *)
Definition report (browser : string -> AssetPreload.Event) (url : string)
    : AssetPreload.Result :=
  match browser url with
  | AssetPreload.OnLoad => AssetPreload.success url (AssetPreload.Url url)
  | _ => AssetPreload.error url (AssetPreload.failure url (AssetPreload.fileExtension url))
  end.

(** The result for a URL that [loadedAssets] has already. *)
Definition replay (loadedAssets : AssetPreload.Assets) (url : string) : AssetPreload.Result :=
  AssetPreload.success url
    (AssetPreload.Entry
       (match obj_get url loadedAssets with
        | Some asset => asset
        | None => AssetPreload.Loading
        end)).

(** [u] is the URL of a call that started a loader. *)
Definition started (u : string) (calls : list (string * AssetPreload.Call)) : bool :=
  existsb
    (fun c => String.eqb u (fst c)
              && match snd c with AssetPreload.Started => true | AssetPreload.Cached _ => false end)
    calls.

(** The result a call becomes. *)
Definition answer (browser : string -> AssetPreload.Event) (c : string * AssetPreload.Call)
    : AssetPreload.Result :=
  match snd c with
  | AssetPreload.Cached asset => AssetPreload.success (fst c) (AssetPreload.Entry asset)
  | AssetPreload.Started => report browser (fst c)
  end.

(** The entry [now] that a run over [urls] which began with [before]
    leaves for [u]: an entry that was there and was not ['loading'] stays;
    one that was ['loading'] stays or is what the handlers of its loader
    make of it; every other URL of [urls] has the outcome of its loader. *)
Definition run_leaves (browser : string -> AssetPreload.Event) (before : AssetPreload.Assets)
    (urls : list string) (u : string) (now : option AssetPreload.Asset) : Prop :=
  match obj_get u before with
  | Some AssetPreload.Loading =>
      now = Some AssetPreload.Loading
      \/ now = Some (AssetPreload.Loaded u)
      \/ now = Some (AssetPreload.Failed
                       (AssetPreload.failure u (AssetPreload.fileExtension u)))
  | Some asset => now = Some asset
  | None => now = if mem u urls then outcome browser u else None
  end.

(** A [parseUrl] that throws on a URL it cannot read, and a [transformUrl]
    that has nothing to offer above a width of 1000. *)
Definition strict (url : string) : Optimizers.Completion (option string) :=
  if String.eqb url "http://[bad" then Optimizers.Throw "Invalid URL"
  else Optimizers.Normal (Some "imgix").

Definition narrow (url : string) (w : number) (h : option number) (cdn : string)
    : Optimizers.Completion (option string) :=
  if (1000 <? w)%float then Optimizers.Throw "too wide"
  else Optimizers.Normal (Some (url ++ "?cdn=" ++ cdn)).

(** A map with a load that is pending, and its element firing while the
    first chunk is awaited. *)
Definition pending : AssetPreload.Assets :=
  [("/posts/old.png", AssetPreload.Loading);
   ("/posts/gone.png", AssetPreload.Failed "Failed to load image: /posts/gone.png")].

Definition late (i : Z) (url : string) : AssetPreload.Event :=
  if (i =? 0)%Z && String.eqb url "/posts/old.png" then AssetPreload.OnLoad
  else AssetPreload.Silence.

Definition quiet (i : Z) (url : string) : AssetPreload.Event := AssetPreload.Silence.

(** No loader that a run over [urls] starts stays silent. *)
Definition settles (browser : string -> AssetPreload.Event) (before : AssetPreload.Assets)
    (urls : list string) : Prop :=
  forall u, In u urls -> obj_get u before = None -> browser u <> AssetPreload.Silence.

(** [concurrent = 3] in the parameter pattern. *)
Definition chunk_size (concurrent : option Z) : Z :=
  match concurrent with Some c => c | None => 3%Z end.

(** A browser for which one video fails to load. *)
Definition flaky (url : string) : AssetPreload.Event :=
  if String.eqb url "/posts/b.mp4" then AssetPreload.OnError else AssetPreload.OnLoad.

Definition assets : list string := ["/posts/a.webp"; "/posts/b.mp4"; "/posts/c.png"; "/posts/d.png"].

(** Three entries of a collection: a draft, and two posts a day apart. *)
Definition dated (p : Blog.Post) (t : number) (d : bool) : BlogQueries.Normalized :=
  {| BlogQueries.normalized := p; BlogQueries.publishDate := t; BlogQueries.draft := d |}.

Definition entries : list BlogQueries.Normalized :=
  [dated BlogSpec.other 1700000000000 false;
   dated BlogSpec.misc 1700200000000 true;
   dated BlogSpec.deep 1700086400000 false].

(** A value that makes a declaration: a string that is not empty. *)
Definition declared (v : option string) : option string :=
  match v with
  | Some s => if truthy_string s then Some s else None
  | None => None
  end.

(** [v = default] in a parameter pattern. *)
Definition or_default (v : option string) (default : string) : string :=
  match v with Some s => s | None => default end.

(** The value the entries leave under [k]: the last one that makes a
    declaration. *)
Fixpoint last_declared (k : string) (entries : list (string * option string))
    (acc : option string) : option string :=
  match entries with
  | [] => acc
  | (k', v) :: rest =>
      last_declared k rest
        (if String.eqb k k'
         then match declared v with Some s => Some s | None => acc end
         else acc)
  end.

(** The CSS properties [getStyle] knows. *)
Definition style_properties : list string :=
  ["object-fit"; "object-position"; "background-image"; "background-size";
   "background-repeat"; "background"; "width"; "height"; "max-width"; "max-height";
   "aspect-ratio"].

(** What the log says about scenes. *)
Definition about_scene (a : SceneBootstrap.Action) : bool :=
  match a with SceneBootstrap.setItem => false | _ => true end.

(** The lives of the first [n] scenes, one after the other: each created,
    initialised and cleaned up. *)
Definition lives (n : nat) : list SceneBootstrap.Action :=
  flat_map
    (fun i => [SceneBootstrap.createScene i; SceneBootstrap.scene_init i;
               SceneBootstrap.scene_cleanup i])
    (seq 0 n).

(** An event of the page, not of the visitor or the timer. *)
Definition navigation (e : SceneBootstrap.Event) : bool :=
  match e with
  | SceneBootstrap.before_swap | SceneBootstrap.page_load => true
  | _ => false
  end.

End Wording.

(** * Properties *)

Import JS FloatOrder Text.

(** ** The order of doubles *)

Section FloatFacts.
Local Open Scope Z_scope.

Lemma digits2_pos_bounds (m : positive) :
  2 ^ (Zpos (digits2_pos m) - 1) <= Zpos m < 2 ^ Zpos (digits2_pos m).
Proof.
  induction m as [m IH | m IH |]; cbn [digits2_pos].
  - rewrite Pos2Z.inj_succ.
    replace (Z.succ (Zpos (digits2_pos m)) - 1) with (Z.succ (Zpos (digits2_pos m) - 1)) by lia.
    rewrite !Z.pow_succ_r by lia. lia.
  - rewrite Pos2Z.inj_succ.
    replace (Z.succ (Zpos (digits2_pos m)) - 1) with (Z.succ (Zpos (digits2_pos m) - 1)) by lia.
    rewrite !Z.pow_succ_r by lia. lia.
  - cbn. lia.
Qed.

(** What [valid_binary] says of a finite double. *)
Lemma bounded_facts (m : positive) (e : Z) :
  bounded prec emax m e = true ->
  -1074 <= e <= 971 /\ Zpos m < 2 ^ 53 /\ (-1074 < e -> 2 ^ 52 <= Zpos m).
Proof.
  unfold bounded, canonical_mantissa, fexp, SpecFloat.emin, prec, emax.
  intros H. apply andb_true_iff in H as [H1 H2].
  apply Z.eqb_eq in H1. apply Z.leb_le in H2.
  pose proof (digits2_pos_bounds m) as [Hlo Hhi].
  assert (Hd : Zpos (digits2_pos m) <= 53) by lia.
  repeat split; try lia.
  - eapply Z.lt_le_trans; [exact Hhi|]. apply Z.pow_le_mono_r; lia.
  - intros He. assert (Zpos (digits2_pos m) = 53) as Hd' by lia.
    rewrite Hd' in Hlo. exact Hlo.
Qed.

Lemma pow2_pos (k : Z) : 0 <= k -> 0 < 2 ^ k.
Proof. intros; apply Z.pow_pos_nonneg; lia. Qed.

Lemma pow2_nz (k : Z) : 0 <= k -> 2 ^ k <> 0.
Proof. intros H. pose proof (pow2_pos k H). lia. Qed.

Lemma finite_ord_bounds (m : positive) (e : Z) :
  bounded prec emax m e = true ->
  0 < Zpos m * 2 ^ (e + 1074) < 2 ^ 2098.
Proof.
  intros H. destruct (bounded_facts m e H) as [He [Hm _]].
  pose proof (pow2_pos (e + 1074) ltac:(lia)) as Hp.
  split; [lia|].
  assert (2 ^ (e + 1074) <= 2 ^ 2045) by (apply Z.pow_le_mono_r; lia).
  replace (2 ^ 2098) with (2 ^ 53 * 2 ^ 2045) by (rewrite <- Z.pow_add_r by lia; reflexivity).
  nia.
Qed.

Lemma finite_ord_lt (m1 m2 : positive) (e1 e2 : Z) :
  bounded prec emax m1 e1 = true -> bounded prec emax m2 e2 = true ->
  e1 < e2 -> Zpos m1 * 2 ^ (e1 + 1074) < Zpos m2 * 2 ^ (e2 + 1074).
Proof.
  intros H1 H2 Hlt.
  destruct (bounded_facts m1 e1 H1) as [He1 [Hm1 _]].
  destruct (bounded_facts m2 e2 H2) as [He2 [_ Hm2]].
  specialize (Hm2 ltac:(lia)).
  pose proof (pow2_pos (e1 + 1074) ltac:(lia)) as Hp.
  assert (Hstep : 2 * 2 ^ (e1 + 1074) <= 2 ^ (e2 + 1074)).
  { rewrite <- Z.pow_succ_r by lia. apply Z.pow_le_mono_r; lia. }
  change (2 ^ 53) with (2 * 2 ^ 52) in Hm1.
  nia.
Qed.

Lemma compare_scaled (m1 m2 : positive) (k : Z) :
  0 < k -> (Zpos m1 * k ?= Zpos m2 * k) = Pos.compare_cont Eq m1 m2.
Proof.
  intros Hk. change (Pos.compare_cont Eq m1 m2) with (Zpos m1 ?= Zpos m2).
  destruct (Z.compare_spec (Zpos m1) (Zpos m2)) as [E | L | G].
  - rewrite E. apply Z.compare_refl.
  - apply Z.compare_lt_iff. nia.
  - apply Z.compare_gt_iff. nia.
Qed.

(** Settles a goal [(x ?= y) = c] on integers that [lia] can order. *)
Ltac order_by_lia :=
  first [ apply Z.compare_eq_iff; lia
        | apply Z.compare_lt_iff; lia
        | apply Z.compare_gt_iff; lia ].

(** [SFcompare] is the comparison of positions. *)
Lemma SFcompare_ord (a b : spec_float) :
  valid_binary a = true -> valid_binary b = true -> not_nan a -> not_nan b ->
  SFcompare a b = Some (ord a ?= ord b).
Proof.
  intros Va Vb Na Nb.
  destruct a as [sa | sa | | sa ma ea]; try (exfalso; apply Na; reflexivity);
  destruct b as [sb | sb | | sb mb eb]; try (exfalso; apply Nb; reflexivity);
  cbn [valid_binary] in Va, Vb; cbn [SFcompare ord].
  all: try pose proof (finite_ord_bounds _ _ Va) as Ba.
  all: try pose proof (finite_ord_bounds _ _ Vb) as Bb.
  all: assert (0 < 2 ^ 2098) by (apply pow2_pos; lia).
  1-8: repeat match goal with s : bool |- _ => destruct s end;
       f_equal; symmetry; order_by_lia.
  destruct sa, sb; f_equal; try (symmetry; order_by_lia).
  - (* both negative: the larger magnitude is the smaller number *)
    destruct (Z.compare_spec ea eb) as [E | L | G].
    + subst eb. rewrite Z.compare_opp. rewrite compare_scaled by lia.
      rewrite <- Pos.compare_antisym. reflexivity.
    + pose proof (finite_ord_lt _ _ _ _ Va Vb L). symmetry. order_by_lia.
    + pose proof (finite_ord_lt _ _ _ _ Vb Va G). symmetry. order_by_lia.
  - (* both positive *)
    destruct (Z.compare_spec ea eb) as [E | L | G].
    + subst eb. rewrite compare_scaled by lia. reflexivity.
    + pose proof (finite_ord_lt _ _ _ _ Va Vb L). symmetry. order_by_lia.
    + pose proof (finite_ord_lt _ _ _ _ Vb Va G). symmetry. order_by_lia.
Qed.

(** *** Rounding keeps the sign *)

Lemma shr_1_m (r : shr_record) :
  0 <= shr_m r -> shr_m (shr_1 r) = shr_m r / 2.
Proof.
  destruct r as [m r s]; cbn [shr_m]. intros Hm.
  destruct m as [| [p | p |] | p]; cbn [shr_1 shr_m]; try lia;
    first [ apply (Z.div_unique _ 2 _ 0); lia | apply (Z.div_unique _ 2 _ 1); lia ].
Qed.

Lemma iter_shr_1_m (p : positive) : forall r : shr_record,
  0 <= shr_m r -> shr_m (iter_pos shr_1 p r) = shr_m r / 2 ^ Zpos p.
Proof.
  induction p as [p IH | p IH |]; intros r Hr; cbn [iter_pos].
  - assert (H1 : 0 <= shr_m (shr_1 r)).
    { rewrite shr_1_m by exact Hr. apply Z.div_pos; lia. }
    assert (H2 : 0 <= shr_m (iter_pos shr_1 p (shr_1 r))).
    { rewrite IH by exact H1. apply Z.div_pos; [exact H1 | apply pow2_pos; lia]. }
    rewrite IH by exact H2. rewrite IH by exact H1. rewrite shr_1_m by exact Hr.
    rewrite !Z.div_div by (first [apply pow2_pos | apply pow2_nz | idtac]; lia).
    f_equal. rewrite <- Z.pow_add_r by lia. rewrite <- (Z.pow_succ_r 2) by lia.
    f_equal; lia.
  - assert (H2 : 0 <= shr_m (iter_pos shr_1 p r)).
    { rewrite IH by exact Hr. apply Z.div_pos; [exact Hr | apply pow2_pos; lia]. }
    rewrite IH by exact H2. rewrite IH by exact Hr.
    rewrite Z.div_div by (first [apply pow2_pos | apply pow2_nz | idtac]; lia).
    f_equal. rewrite <- Z.pow_add_r by lia. f_equal; lia.
  - rewrite shr_1_m by exact Hr. reflexivity.
Qed.

Lemma shr_record_of_loc_m (m : Z) (l : location) :
  shr_m (shr_record_of_loc m l) = m.
Proof. destruct l as [| []]; reflexivity. Qed.

(** Shifting to the canonical exponent never makes a mantissa negative. *)
Lemma shr_fexp_nonneg (m e : Z) (l : location) :
  0 <= m -> 0 <= shr_m (fst (shr_fexp prec emax m e l)).
Proof.
  intros Hm. unfold shr_fexp, shr.
  destruct (fexp prec emax (Zdigits2 m + e) - e) as [| p | p]; cbn [fst];
    rewrite ?iter_shr_1_m; rewrite ?shr_record_of_loc_m; try lia.
  apply Z.div_pos; [exact Hm | apply pow2_pos; lia].
Qed.

(** At an exponent that is not below [emin] it keeps it positive. *)
Lemma shr_fexp_pos (m e : Z) (l : location) :
  0 < m -> -1074 <= e ->
  0 < shr_m (fst (shr_fexp prec emax m e l)) /\ -1074 <= snd (shr_fexp prec emax m e l).
Proof.
  intros Hm He. unfold shr_fexp, shr.
  destruct m as [| m | m]; try lia. cbn [Zdigits2].
  pose proof (digits2_pos_bounds m) as [Hlo _].
  remember (fexp prec emax (Zpos (digits2_pos m) + e) - e) as n eqn:En.
  unfold fexp, SpecFloat.emin, prec, emax in En.
  destruct n as [| p | p]; cbn [fst snd];
    rewrite ?iter_shr_1_m; rewrite ?shr_record_of_loc_m; try lia.
  split; [| lia].
  apply Z.div_str_pos. split; [apply pow2_pos; lia |].
  eapply Z.le_trans; [| exact Hlo]. apply Z.pow_le_mono_r; lia.
Qed.

Lemma round_nearest_even_ge (m : Z) (l : location) :
  m <= round_nearest_even m l.
Proof.
  destruct l as [| []]; cbn [round_nearest_even]; try lia.
  destruct (Z.even m); lia.
Qed.


Lemma binary_round_aux_not_nan (s : bool) (m e : Z) (l : location) :
  0 <= m -> not_nan (binary_round_aux prec emax s m e l).
Proof.
  intros Hm. unfold binary_round_aux.
  pose proof (shr_fexp_nonneg m e l Hm) as H1.
  destruct (shr_fexp prec emax m e l) as [r1 e1]. cbn [fst] in H1.
  pose proof (round_nearest_even_ge (shr_m r1) (loc_of_shr_record r1)) as H2.
  pose proof (shr_fexp_nonneg (round_nearest_even (shr_m r1) (loc_of_shr_record r1)) e1 loc_Exact
                ltac:(lia)) as H3.
  destruct (shr_fexp prec emax _ e1 loc_Exact) as [r2 e2]. cbn [fst] in H3.
  destruct (shr_m r2) as [| p | p]; try lia; try discriminate.
  destruct (e2 <=? emax - prec); discriminate.
Qed.

Lemma binary_round_aux_sign (s : bool) (m e : Z) (l : location) :
  0 < m -> -1074 <= e -> signed_as s (binary_round_aux prec emax s m e l).
Proof.
  intros Hm He. unfold binary_round_aux.
  pose proof (shr_fexp_pos m e l Hm He) as [H1 H1'].
  destruct (shr_fexp prec emax m e l) as [r1 e1]. cbn [fst snd] in H1, H1'.
  pose proof (round_nearest_even_ge (shr_m r1) (loc_of_shr_record r1)) as H2.
  pose proof (shr_fexp_pos (round_nearest_even (shr_m r1) (loc_of_shr_record r1)) e1 loc_Exact
                ltac:(lia) H1') as [H3 _].
  destruct (shr_fexp prec emax _ e1 loc_Exact) as [r2 e2]. cbn [fst] in H3.
  destruct (shr_m r2) as [| p | p]; try lia.
  destruct (e2 <=? emax - prec); reflexivity.
Qed.

Lemma iter_xO (d : positive) : forall m : positive,
  Zpos (Pos.iter xO m d) = Zpos m * 2 ^ Zpos d.
Proof.
  induction d as [| d IH] using Pos.peano_ind; intros m.
  - cbn. lia.
  - rewrite Pos.iter_succ. rewrite Pos2Z.inj_xO, IH, Pos2Z.inj_succ, Z.pow_succ_r by lia. lia.
Qed.

(** [shl_align] towards a smaller exponent keeps the value. *)
Lemma shl_align_value (m : positive) (e e' : Z) :
  e' <= e -> Zpos (fst (shl_align m e e')) = Zpos m * 2 ^ (e - e').
Proof.
  intros H. unfold shl_align.
  destruct (e' - e) as [| d | d] eqn:E; cbn [fst]; try lia.
  - replace (e - e') with 0 by lia. lia.
  - rewrite iter_xO. f_equal. f_equal. lia.
Qed.

Lemma shl_align_exp (m : positive) (e e' : Z) :
  snd (shl_align m e e') = Z.min e e'.
Proof.
  unfold shl_align. destruct (e' - e) as [| d | d] eqn:E; cbn [snd]; lia.
Qed.

Lemma binary_round_sign (s : bool) (m : positive) (e : Z) :
  -1074 <= e -> signed_as s (binary_round prec emax s m e).
Proof.
  intros He. unfold binary_round.
  pose proof (shl_align_exp m e (fexp prec emax (Zpos (digits2_pos m) + e))) as Hx.
  destruct (shl_align m e _) as [mz ez]. cbn [snd] in Hx.
  apply binary_round_aux_sign; [lia |].
  unfold fexp, SpecFloat.emin, prec, emax in Hx. lia.
Qed.


Lemma SFpositive_signed (s : bool) (r : spec_float) :
  signed_as s r -> SFpositive r = negb s.
Proof.
  destruct r as [| s' | | s' m e]; cbn; try contradiction; intros ->; destruct s; reflexivity.
Qed.

Lemma binary_normalize_positive (z e : Z) :
  -1074 <= e -> SFpositive (binary_normalize prec emax z e false) = (0 <? z).
Proof.
  intros He. destruct z as [| p | p]; cbn [binary_normalize].
  - reflexivity.
  - rewrite (SFpositive_signed false) by (apply binary_round_sign; exact He). reflexivity.
  - rewrite (SFpositive_signed true) by (apply binary_round_sign; exact He). reflexivity.
Qed.

(** The sign of a difference is the order of its operands. *)
Lemma SFsub_positive (a b : spec_float) :
  valid_binary a = true -> valid_binary b = true -> not_nan a -> not_nan b ->
  SFpositive (SFsub prec emax a b) = (ord b <? ord a).
Proof.
  intros Va Vb Na Nb.
  destruct a as [sa | sa | | sa ma ea]; try (exfalso; apply Na; reflexivity);
  destruct b as [sb | sb | | sb mb eb]; try (exfalso; apply Nb; reflexivity);
  cbn [valid_binary] in Va, Vb; cbn [SFsub ord].
  all: try pose proof (finite_ord_bounds _ _ Va) as Ba.
  all: try pose proof (finite_ord_bounds _ _ Vb) as Bb.
  all: assert (0 < 2 ^ 2098) by (apply pow2_pos; lia).
  1-8: repeat match goal with s : bool |- _ => destruct s end;
       cbn [SFpositive SFltb SFcompare negb]; symmetry;
       first [ apply Z.ltb_lt; lia | apply Z.ltb_ge; lia ].
  destruct (bounded_facts _ _ Va) as [Ea _].
  destruct (bounded_facts _ _ Vb) as [Eb _].
  rewrite binary_normalize_positive by lia.
  rewrite !shl_align_value by lia.
  set (ez := Z.min ea eb).
  assert (Hp : 0 < 2 ^ (ez + 1074)) by (apply pow2_pos; lia).
  assert (Ha : 2 ^ (ea + 1074) = 2 ^ (ea - ez) * 2 ^ (ez + 1074)).
  { rewrite <- Z.pow_add_r by lia. f_equal. lia. }
  assert (Hb : 2 ^ (eb + 1074) = 2 ^ (eb - ez) * 2 ^ (ez + 1074)).
  { rewrite <- Z.pow_add_r by lia. f_equal. lia. }
  rewrite Ha, Hb.
  set (P := 2 ^ (ez + 1074)) in *.
  set (A := Zpos ma * 2 ^ (ea - ez)). set (B := Zpos mb * 2 ^ (eb - ez)).
  replace (Zpos ma * (2 ^ (ea - ez) * P)) with (A * P) by (unfold A; ring).
  replace (Zpos mb * (2 ^ (eb - ez) * P)) with (B * P) by (unfold B; ring).
  destruct sa, sb; cbn [cond_Zopp];
    destruct (Z.ltb_spec 0 (- A - - B)); destruct (Z.ltb_spec 0 (- A - B));
    destruct (Z.ltb_spec 0 (A - - B)); destruct (Z.ltb_spec 0 (A - B));
    symmetry; first [ apply Z.ltb_lt; nia | apply Z.ltb_ge; nia ].
Qed.

Lemma SFcompare_refl (a : spec_float) :
  valid_binary a = true -> not_nan a -> SFcompare a a = Some Eq.
Proof.
  intros V N. rewrite SFcompare_ord by assumption. now rewrite Z.compare_refl.
Qed.

Lemma is_nan_spec (x : float) : is_nan x = true <-> Prim2SF x = S754_nan.
Proof.
  unfold is_nan. rewrite eqb_spec. unfold SFeqb. split.
  - intros H. destruct (Prim2SF x) eqn:E; try reflexivity;
      rewrite SFcompare_refl in H; try discriminate;
      try (rewrite <- E; apply Prim2SF_valid); discriminate.
  - intros ->. reflexivity.
Qed.

Lemma not_nan_spec (x : float) : is_nan x = false -> not_nan (Prim2SF x).
Proof.
  intros H E. apply is_nan_spec in E. congruence.
Qed.

Lemma ltb_position (x y : float) :
  is_nan x = false -> is_nan y = false ->
  (x <? y)%float = (position x <? position y).
Proof.
  intros Hx Hy. rewrite ltb_spec. unfold SFltb, position.
  rewrite SFcompare_ord by (try apply Prim2SF_valid; apply not_nan_spec; assumption).
  unfold Z.ltb. reflexivity.
Qed.

Lemma eqb_position (x y : float) :
  is_nan x = false -> is_nan y = false ->
  (x =? y)%float = (position x =? position y).
Proof.
  intros Hx Hy. rewrite eqb_spec. unfold SFeqb, position.
  rewrite SFcompare_ord by (try apply Prim2SF_valid; apply not_nan_spec; assumption).
  destruct (Z.compare_spec (ord (Prim2SF x)) (ord (Prim2SF y)));
    destruct (Z.eqb_spec (ord (Prim2SF x)) (ord (Prim2SF y))); try lia; reflexivity.
Qed.

(** The comparator [(a, b) => a - b] is positive exactly when [b < a]. *)
Lemma sub_positive (x y : float) :
  is_nan x = false -> is_nan y = false ->
  (0 <? x - y)%float = (position y <? position x).
Proof.
  intros Hx Hy. rewrite ltb_spec, sub_spec.
  change (Prim2SF 0%float) with (S754_zero false).
  apply SFsub_positive; try apply Prim2SF_valid; apply not_nan_spec; assumption.
Qed.

Lemma double_not_nan (x : float) : is_nan x = false -> is_nan (x * 2)%float = false.
Proof.
  intros Hx. destruct (is_nan (x * 2)%float) eqn:E; [| reflexivity].
  apply is_nan_spec in E. rewrite mul_spec in E.
  apply not_nan_spec in Hx. exfalso. revert E.
  replace (Prim2SF 2%float) with (S754_finite false 4503599627370496 (-51)) by (vm_compute; reflexivity).
  unfold SF64mul. destruct (Prim2SF x) as [s | s | | s m e]; cbn [SFmul]; try discriminate.
  - exfalso. apply Hx. reflexivity.
  - apply binary_round_aux_not_nan. lia.
Qed.

(** *** Whole numbers *)

Lemma digits2_pos_iter_xO (d : positive) : forall m : positive,
  Zpos (digits2_pos (Pos.iter xO m d)) = Zpos (digits2_pos m) + Zpos d.
Proof.
  induction d as [| d IH] using Pos.peano_ind; intros m.
  - cbn [Pos.iter digits2_pos]. lia.
  - rewrite Pos.iter_succ. cbn [digits2_pos]. rewrite Pos2Z.inj_succ, IH. lia.
Qed.

(** A mantissa of 53 digits at an exponent in range is not rounded. *)
Lemma binary_round_aux_exact (s : bool) (m : positive) (e : Z) :
  Zpos (digits2_pos m) = 53 -> -1074 <= e <= 971 ->
  binary_round_aux prec emax s (Zpos m) e loc_Exact = S754_finite s m e.
Proof.
  intros Hd He. unfold binary_round_aux, shr_fexp. cbn [Zdigits2 shr_record_of_loc].
  rewrite Hd.
  assert (E : fexp prec emax (53 + e) - e = 0)
    by (unfold fexp, SpecFloat.emin, prec, emax; lia).
  rewrite E. cbn [shr shr_m loc_of_shr_record round_nearest_even Zdigits2 shr_record_of_loc].
  rewrite Hd, E. cbn [shr shr_m].
  destruct (Z.leb_spec e (emax - prec)) as [_ | G]; [reflexivity |].
  unfold emax, prec in G. lia.
Qed.

(** A whole number below [2^53] is a double. *)
Lemma binary_normalize_whole (p : positive) :
  Zpos p < 2 ^ 53 ->
  exists m e,
    binary_normalize prec emax (Zpos p) 0 false = S754_finite false m e
    /\ bounded prec emax m e = true
    /\ Zpos m * 2 ^ (e + 1074) = Zpos p * 2 ^ 1074.
Proof.
  intros Hp. cbn [binary_normalize]. unfold binary_round.
  pose proof (digits2_pos_bounds p) as [Hlo Hhi].
  assert (Hd : Zpos (digits2_pos p) <= 53).
  { destruct (Z.le_gt_cases (Zpos (digits2_pos p)) 53) as [L | G]; [exact L |].
    assert (2 ^ 53 <= 2 ^ (Zpos (digits2_pos p) - 1)) by (apply Z.pow_le_mono_r; lia).
    lia. }
  assert (Ef : fexp prec emax (Zpos (digits2_pos p) + 0) = Zpos (digits2_pos p) - 53)
    by (unfold fexp, SpecFloat.emin, prec, emax; lia).
  rewrite Ef. set (d := Zpos (digits2_pos p)) in *.
  pose proof (shl_align_value p 0 (d - 53) ltac:(lia)) as Hv.
  pose proof (shl_align_exp p 0 (d - 53)) as Hx.
  assert (Hdig : Zpos (digits2_pos (fst (shl_align p 0 (d - 53)))) = 53).
  { unfold shl_align. destruct (d - 53 - 0) as [| k | k] eqn:Ek; cbn [fst].
    - fold d. lia.
    - lia.
    - rewrite digits2_pos_iter_xO. fold d. lia. }
  destruct (shl_align p 0 (d - 53)) as [mz ez]. cbn [fst snd] in Hv, Hx, Hdig.
  rewrite binary_round_aux_exact by (try exact Hdig; lia).
  exists mz, ez. split; [reflexivity |]. split.
  - unfold bounded, canonical_mantissa. rewrite Hdig.
    apply andb_true_iff. split.
    + apply Z.eqb_eq. unfold fexp, SpecFloat.emin, prec, emax. lia.
    + apply Z.leb_le. unfold emax, prec. lia.
  - rewrite Hv, Hx. rewrite Z.min_r by lia.
    rewrite <- Z.mul_assoc, <- Z.pow_add_r by lia. f_equal. f_equal. lia.
Qed.

(** The double of a whole number from 0 to [2^53 - 1] is that number. *)
Lemma float_of_Z_whole (z : Z) :
  0 <= z < 2 ^ 53 ->
  is_nan (float_of_Z z) = false /\ position (float_of_Z z) = z * 2 ^ 1074.
Proof.
  intros Hz. unfold float_of_Z, position.
  destruct z as [| p | p]; [| | lia].
  - split; reflexivity.
  - destruct (binary_normalize_whole p ltac:(lia)) as [m [e [E [B V]]]].
    rewrite E. rewrite Prim2SF_SF2Prim by exact B.
    split.
    + destruct (is_nan _) eqn:N; [| reflexivity].
      apply is_nan_spec in N. rewrite Prim2SF_SF2Prim in N by exact B. discriminate.
    + cbn [ord]. exact V.
Qed.

(** Whole numbers below [2^53] compare as doubles the way they compare as
    integers. *)
Lemma float_of_Z_ltb (a b : Z) :
  0 <= a < 2 ^ 53 -> 0 <= b < 2 ^ 53 ->
  (float_of_Z a <? float_of_Z b)%float = (a <? b).
Proof.
  intros Ha Hb.
  destruct (float_of_Z_whole a Ha) as [Na Pa].
  destruct (float_of_Z_whole b Hb) as [Nb Pb].
  rewrite ltb_position by assumption. rewrite Pa, Pb.
  assert (0 < 2 ^ 1074) by (apply pow2_pos; lia).
  destruct (Z.ltb_spec a b); [apply Z.ltb_lt | apply Z.ltb_ge]; nia.
Qed.

Lemma ltb_irrefl (x : float) : (x <? x)%float = false.
Proof.
  rewrite ltb_spec. unfold SFltb.
  destruct (Prim2SF x) eqn:E; try reflexivity.
  - cbn. now destruct s.
  - rewrite SFcompare_refl; [reflexivity | rewrite <- E; apply Prim2SF_valid | discriminate].
Qed.

End FloatFacts.

(** ** Sorting and sets *)

Section ArrayFacts.
Local Open Scope Z_scope.

Section SortFacts.
Context {A : Type} (after : A -> A -> bool).

Lemma sort_insert_perm (x : A) (l : list A) :
  Permutation (sort_insert after x l) (x :: l).
Proof.
  induction l as [| y l IH]; cbn [sort_insert]; [reflexivity |].
  destruct (after x y); [| reflexivity].
  rewrite IH. apply perm_swap.
Qed.

Lemma insertion_sort_perm (l : list A) :
  Permutation (insertion_sort after l) l.
Proof.
  induction l as [| x l IH]; cbn; [reflexivity |].
  fold (insertion_sort after l). rewrite sort_insert_perm. now constructor.
Qed.

Lemma insertion_sort_In (x : A) (l : list A) :
  In x (insertion_sort after l) <-> In x l.
Proof.
  split; apply Permutation_in; [| symmetry]; apply insertion_sort_perm.
Qed.

(** Sorting by a key: where the comparator is positive exactly on the
    pairs whose keys descend, the result ascends. *)
Variable key : A -> Z.
Variable ok : A -> Prop.
Hypothesis after_key : forall x y, ok x -> ok y -> after x y = (key y <? key x).

Lemma sort_insert_sorted (x : A) (l : list A) :
  ok x -> Forall ok l ->
  StronglySorted (fun a b => key a <= key b) l ->
  StronglySorted (fun a b => key a <= key b) (sort_insert after x l).
Proof.
  intros Hx Hl Hs. induction l as [| y l IH]; cbn [sort_insert].
  - constructor; constructor.
  - inversion Hl as [| ? ? Hy Hl']; subst. inversion Hs as [| ? ? Hs' Hy']; subst.
    rewrite after_key by assumption.
    destruct (Z.ltb_spec (key y) (key x)) as [L | G].
    + constructor; [apply IH; assumption |].
      rewrite Forall_forall. intros z Hz.
      apply (Permutation_in _ (sort_insert_perm x l)) in Hz.
      destruct Hz as [<- | Hz]; [lia |].
      rewrite Forall_forall in Hy'. now apply Hy'.
    + constructor; [assumption |].
      constructor; [exact G |].
      rewrite Forall_forall in Hy'. rewrite Forall_forall. intros z Hz.
      specialize (Hy' z Hz). lia.
Qed.

Lemma insertion_sort_sorted (l : list A) :
  Forall ok l ->
  StronglySorted (fun a b => key a <= key b) (insertion_sort after l).
Proof.
  induction l as [| x l IH]; intros Hl; cbn.
  - constructor.
  - inversion Hl as [| ? ? Hx Hl']; subst.
    change (StronglySorted (fun a b => key a <= key b)
              (sort_insert after x (insertion_sort after l))).
    apply sort_insert_sorted; [exact Hx | | exact (IH Hl')].
    rewrite Forall_forall. intros z Hz. apply (proj1 (insertion_sort_In z l)) in Hz.
    rewrite Forall_forall in Hl'. exact (Hl' z Hz).
Qed.
End SortFacts.

(** A list that ascends and has no two equal keys ascends strictly. *)
Lemma sorted_nodup_strict {A : Type} (key : A -> Z) (l : list A) :
  StronglySorted (fun a b => key a <= key b) l ->
  NoDup (map key l) ->
  StronglySorted (fun a b => key a < key b) l.
Proof.
  induction 1 as [| x l Hs IH Hx]; intros Hn; [constructor |].
  cbn in Hn. inversion Hn as [| ? ? Hnot Hn']; subst.
  constructor; [now apply IH |].
  rewrite Forall_forall in *. intros z Hz. specialize (Hx z Hz).
  assert (key x <> key z); [| lia].
  intros E. apply Hnot. rewrite E. now apply in_map.
Qed.

(** *** [Set] *)


Lemma Set_add_spec (seen : list float) (x : float) :
  Set_add seen x =
    if existsb (sameValueZero (canonical x)) seen then seen else (seen ++ [canonical x])%list.
Proof. reflexivity. Qed.

Lemma fold_Set_add_prefix (l : list float) : forall seen,
  exists more, fold_left Set_add l seen = (seen ++ more)%list.
Proof.
  induction l as [| x l IH]; intros seen; cbn [fold_left].
  - exists []. now rewrite app_nil_r.
  - destruct (IH (Set_add seen x)) as [more E]. rewrite E, Set_add_spec.
    destruct (existsb (sameValueZero (canonical x)) seen).
    + now exists more.
    + exists (canonical x :: more). now rewrite <- app_assoc.
Qed.

Lemma fold_Set_add_In (l : list float) : forall seen x,
  In x (fold_left Set_add l seen) -> In x seen \/ exists y, In y l /\ x = canonical y.
Proof.
  induction l as [| y l IH]; intros seen x H; cbn [fold_left] in H.
  - now left.
  - apply IH in H. destruct H as [H | [z [Hz E]]].
    + rewrite Set_add_spec in H. destruct (existsb (sameValueZero (canonical y)) seen).
      * now left.
      * apply in_app_or in H. destruct H as [H | [<- | []]]; [now left |].
        right. exists y. split; [now left | reflexivity].
    + right. exists z. split; [now right | exact E].
Qed.

Lemma Set_values_In (l : list float) (x : float) :
  In x (Set_values l) -> exists y, In y l /\ x = canonical y.
Proof.
  intros H. apply fold_Set_add_In in H. destruct H as [[] | H]. exact H.
Qed.

Lemma is_zero_position (x : float) :
  is_nan x = false -> PrimFloat.is_zero x = (position x =? 0).
Proof.
  intros H. unfold PrimFloat.is_zero. rewrite eqb_position by (exact H || reflexivity).
  reflexivity.
Qed.

Lemma canonical_not_nan (x : float) : is_nan x = false -> is_nan (canonical x) = false.
Proof. unfold canonical. destruct (PrimFloat.is_zero x); auto. Qed.

Lemma existsb_sameValueZero (x : float) (seen : list float) :
  is_nan x = false -> Forall (fun y => is_nan y = false) seen ->
  existsb (sameValueZero x) seen = false -> ~ In (position x) (map position seen).
Proof.
  intros Hx Hs. induction Hs as [| y seen Hy Hs IH]; cbn; [tauto |].
  intros H. apply orb_false_iff in H as [H1 H2].
  unfold sameValueZero in H1. rewrite Hx in H1. cbn in H1.
  rewrite eqb_position in H1 by assumption. apply Z.eqb_neq in H1.
  intros [E | E]; [congruence | now apply IH].
Qed.

Lemma fold_Set_add_keys (l : list float) : forall seen,
  Forall (fun y => is_nan y = false) l ->
  Forall (fun y => is_nan y = false) seen ->
  NoDup (map position seen) ->
  Forall (fun y => is_nan y = false) (fold_left Set_add l seen) /\
  NoDup (map position (fold_left Set_add l seen)).
Proof.
  induction l as [| x l IH]; intros seen Hl Hs Hn; cbn [fold_left]; [now split |].
  inversion Hl as [| ? ? Hx Hl']; subst.
  apply IH; [assumption | |]; rewrite Set_add_spec;
    destruct (existsb (sameValueZero (canonical x)) seen) eqn:E; try assumption.
  - apply Forall_app. split; [assumption |]. constructor; [| constructor].
    now apply canonical_not_nan.
  - rewrite map_app. cbn [map].
    apply NoDup_incl_NoDup with (l := position (canonical x) :: map position seen).
    + constructor; [| assumption].
      apply existsb_sameValueZero; [now apply canonical_not_nan | assumption | exact E].
    + rewrite length_app. cbn. lia.
    + intros z [<- | Hz]; apply in_or_app; [right; now left | now left].
Qed.

Lemma Set_values_keys (l : list float) :
  Forall (fun y => is_nan y = false) l ->
  Forall (fun y => is_nan y = false) (Set_values l) /\ NoDup (map position (Set_values l)).
Proof.
  intros H. apply fold_Set_add_keys; [assumption | constructor | constructor].
Qed.

(** [[...new Set(l)].sort((a, b) => a - b)] ascends strictly when [l] has
    no [NaN]. *)
Lemma sorted_set_ascending (l : list float) :
  Forall (fun y => is_nan y = false) l ->
  StronglySorted (fun a b => (a <? b)%float = true)
    (Array_sort (fun a b => (a - b)%float) (Set_values l)).
Proof.
  intros Hl. destruct (Set_values_keys l Hl) as [Hn Hd].
  unfold Array_sort.
  set (after := fun x y : float => (0 <? x - y)%float).
  change (StronglySorted (fun a b => (a <? b)%float = true)
            (insertion_sort after (Set_values l))).
  assert (Hs : StronglySorted (fun a b => position a < position b)
                 (insertion_sort after (Set_values l))).
  { apply sorted_nodup_strict.
    - apply insertion_sort_sorted with (ok := fun y => is_nan y = false); [| exact Hn].
      intros x y Hx Hy. unfold after. now apply sub_positive.
    - eapply Permutation_NoDup; [| exact Hd].
      apply Permutation_map. symmetry. apply insertion_sort_perm. }
  assert (Hn' : Forall (fun y => is_nan y = false) (insertion_sort after (Set_values l))).
  { rewrite Forall_forall in *. intros z Hz. apply Hn.
    exact (proj1 (insertion_sort_In after z (Set_values l)) Hz). }
  revert Hs Hn'. generalize (insertion_sort after (Set_values l)). intros s Hs.
  induction Hs as [| x s Hs IH Hx]; intros Hn'; [constructor |].
  inversion Hn'; subst. constructor; [now apply IH |].
  rewrite Forall_forall in *. intros z Hz.
  rewrite ltb_position by auto. apply Z.ltb_lt. now apply Hx.
Qed.

End ArrayFacts.

(** ** Strings, patterns and objects *)

Lemma truthy_string_app_l (a b : string) :
  truthy_string a = true -> truthy_string (a ++ b) = true.
Proof. destruct a; [discriminate | reflexivity]. Qed.

Lemma truthy_string_app_r (a b : string) :
  truthy_string b = true -> truthy_string (a ++ b) = true.
Proof. destruct a; [trivial | reflexivity]. Qed.

Lemma length_append (a b : string) :
  String.length (a ++ b) = (String.length a + String.length b)%nat.
Proof. induction a as [| c a IH]; cbn; [reflexivity | now rewrite IH]. Qed.

Lemma substring_prefix (a b : string) :
  substring 0 (String.length a) (a ++ b) = a.
Proof.
  induction a as [| c a IH]; cbn.
  - destruct b; reflexivity.
  - now rewrite IH.
Qed.

Lemma consumed_app (a rest : string) : consumed (a ++ rest) rest = a.
Proof.
  unfold consumed. rewrite length_append.
  replace (String.length a + String.length rest - String.length rest)%nat
    with (String.length a) by lia.
  apply substring_prefix.
Qed.

Lemma append_empty_r (a : string) : a ++ "" = a.
Proof. induction a as [| c a IH]; cbn; [reflexivity | now rewrite IH]. Qed.

Lemma consumed_all (s : string) : consumed s "" = s.
Proof. rewrite <- (append_empty_r s) at 1. rewrite consumed_app. reflexivity. Qed.

(** A greedy run takes all of [a] when what follows stops it and the
    continuation accepts. *)
Lemma star_k_run {A : Type} (p : ascii -> bool) (a rest : string)
    (k : string -> option A) (r : A) :
  all_in p a = true -> stops p rest = true -> k rest = Some r ->
  star_k p (a ++ rest) k = Some r.
Proof.
  intros Ha Hr Hk. induction a as [| c a IH]; cbn.
  - destruct rest as [| c rest]; cbn; [exact Hk |].
    cbn in Hr. destruct (p c); [discriminate | exact Hk].
  - cbn in Ha. apply andb_true_iff in Ha as [Hc Ha].
    rewrite Hc, (IH Ha). reflexivity.
Qed.

Lemma group_plus_run {A : Type} (p : ascii -> bool) (a rest : string) (caps : list string)
    (k : string -> list string -> option A) (r : A) :
  truthy_string a = true -> all_in p a = true -> stops p rest = true ->
  k rest (caps ++ [a])%list = Some r ->
  rmatch (Group (Plus p)) (a ++ rest) caps k = Some r.
Proof.
  intros Hn Ha Hr Hk. destruct a as [| c a]; [discriminate |].
  cbn in Ha. apply andb_true_iff in Ha as [Hc Ha].
  cbn [rmatch append]. rewrite Hc.
  apply star_k_run; [exact Ha | exact Hr |].
  change (String c (a ++ rest)) with (String c a ++ rest).
  rewrite consumed_app. exact Hk.
Qed.

Lemma digit_not_space (c : ascii) : is_digit c = true -> is_space c = false.
Proof.
  unfold is_digit, is_space. intros H.
  apply andb_true_iff in H as [H1 H2].
  apply Nat.leb_le in H1. apply Nat.leb_le in H2.
  repeat rewrite orb_false_iff. repeat split.
  - apply andb_false_iff. right. apply Nat.leb_gt. lia.
  - apply Nat.eqb_neq. lia.
  - apply Nat.eqb_neq. lia.
Qed.

Lemma digits_stop_space (b : string) : digits b = true -> stops is_space b = true.
Proof.
  unfold digits. destruct b as [| c b]; [discriminate |]. cbn.
  intros H. apply andb_true_iff in H as [H _].
  now rewrite digit_not_space.
Qed.

(** *** Objects *)

Lemma obj_get_set {V : Type} (k k' : string) (v : V) (o : list (string * V)) :
  obj_get k (obj_set k' v o) = if String.eqb k k' then Some v else obj_get k o.
Proof.
  induction o as [| [k0 v0] o IH]; cbn.
  - reflexivity.
  - destruct (String.eqb_spec k' k0) as [-> | N]; cbn.
    + destruct (String.eqb k k0); reflexivity.
    + rewrite IH. destruct (String.eqb_spec k k0) as [-> | N'].
      * destruct (String.eqb_spec k0 k') as [E | _]; [congruence | reflexivity].
      * reflexivity.
Qed.

(** After [{...o, ...entries}] a key reads as its last value in [entries],
    or as in [o]. *)
Lemma obj_get_assign {V : Type} (k : string) (entries : list (string * V)) :
  forall o : list (string * V),
  obj_get k (obj_assign o entries) =
    match obj_get k (rev entries) with
    | Some v => Some v
    | None => obj_get k o
    end.
Proof.
  unfold obj_assign.
  induction entries as [| [k' v'] entries IH]; intros o; cbn [fold_left rev].
  - reflexivity.
  - rewrite IH, obj_get_set.
    assert (Happ : forall (a b : list (string * V)),
               obj_get k (a ++ b)%list =
                 match obj_get k a with Some v => Some v | None => obj_get k b end).
    { induction a as [| [k1 v1] a IHa]; intros b; cbn; [reflexivity |].
      destruct (String.eqb k k1); [reflexivity | apply IHa]. }
    rewrite Happ. cbn [obj_get].
    destruct (obj_get k (rev entries)); [reflexivity |].
    destruct (String.eqb k k'); reflexivity.
Qed.

Lemma obj_get_In {V : Type} (k : string) (v : V) (o : list (string * V)) :
  obj_get k o = Some v -> In (k, v) o.
Proof.
  induction o as [| [k' v'] o IH]; cbn; [discriminate |].
  destruct (String.eqb_spec k k') as [-> | N].
  - intros [= ->]. now left.
  - intros H. right. now apply IH.
Qed.

Lemma obj_get_rev_none {V : Type} (k : string) (o : list (string * V)) :
  obj_get k o = None -> obj_get k (rev o) = None.
Proof.
  intros H.
  assert (Hin : forall o' : list (string * V),
            obj_get k o' = None <-> (forall v, ~ In (k, v) o')).
  { induction o' as [| [k' v'] o' IH]; cbn.
    - split; [intros _ v [] | reflexivity].
    - destruct (String.eqb_spec k k') as [-> | N].
      + split; [discriminate |]. intros H'. exfalso. apply (H' v'). now left.
      + rewrite IH. split.
        * intros H' v [E | Hv]; [congruence | now apply (H' v)].
        * intros H' v Hv. apply (H' v). now right. }
  apply Hin. intros v Hv. apply in_rev in Hv. revert v Hv. now apply Hin.
Qed.

Lemma obj_get_filter {V : Type} (k : string) (keep : string -> bool) (o : list (string * V)) :
  keep k = true ->
  obj_get k (filter (fun kv => keep (fst kv)) o) = obj_get k o.
Proof.
  intros Hk. induction o as [| [k' v'] o IH]; cbn; [reflexivity |].
  destruct (String.eqb_spec k k') as [<- | N].
  - rewrite Hk. cbn. now rewrite String.eqb_refl.
  - destruct (keep k'); cbn; [| exact IH].
    destruct (String.eqb_spec k k'); [congruence | exact IH].
Qed.

Lemma join_truthy (sep x : string) (l : list string) :
  truthy_string x = true -> truthy_string (join sep (x :: l)) = true.
Proof.
  intros H. cbn [join]. destruct l; [exact H | now apply truthy_string_app_l].
Qed.

(** ** Related posts *)

Section BlogFacts.
Import Blog BlogSpec.
Local Open Scope Z_scope.

Lemma count_fold (keep : Taxonomy -> bool) (tags : list Taxonomy) : forall acc : Z,
  fold_left (fun acc tag => if keep tag then acc + 1 else acc) tags acc
  = acc + Z.of_nat (List.length (filter keep tags)).
Proof.
  induction tags as [| t tags IH]; intros acc; cbn [fold_left filter].
  - cbn. lia.
  - rewrite IH. destruct (keep t); cbn [List.length]; lia.
Qed.

Lemma has_in (set : list string) (s : string) :
  has set s = if in_dec string_dec s set then true else false.
Proof.
  unfold has. destruct (in_dec string_dec s set) as [Hin | Hout].
  - apply existsb_exists. exists s. split; [exact Hin | apply String.eqb_refl].
  - destruct (existsb (String.eqb s) set) eqn:E; [| reflexivity].
    apply existsb_exists in E. destruct E as [x [Hx E]].
    apply String.eqb_eq in E. now subst.
Qed.

Lemma score_of_related_score (originalPost candidate : Post) :
  score_of originalPost candidate = related_score originalPost candidate.
Proof.
  unfold score_of, related_score, SCORE_POSTS_INCREMENT, same_category, tag_slugs.
  fold (originalTagsSet originalPost).
  assert (C : (if match post_category candidate, post_category originalPost with
                  | Some c, Some c' => String.eqb (slug c) (slug c')
                  | _, _ => false
                  end then 5 else 0)
              = match post_category candidate, post_category originalPost with
                | Some c, Some c' => if string_dec (slug c) (slug c') then 5 else 0
                | _, _ => 0
                end).
  { destruct (post_category candidate) as [c |]; [| reflexivity].
    destruct (post_category originalPost) as [c' |]; [| reflexivity].
    destruct (String.eqb_spec (slug c) (slug c')), (string_dec (slug c) (slug c'));
      congruence. }
  rewrite C. destruct (post_tags candidate) as [tags |].
  - rewrite count_fold. f_equal. f_equal.
    induction tags as [| t tags IH]; [reflexivity |]. cbn [filter map].
    rewrite has_in. destruct (in_dec string_dec (slug t) (originalTagsSet originalPost));
      cbn [List.length]; now rewrite IH.
  - cbn. lia.
Qed.

Lemma postsWithScores_fold (originalPost : Post) (allPosts : list Post) : forall acc,
  fold_left (score_step originalPost) allPosts acc =
    (acc ++ map (fun p => {| post := p; score := score_of originalPost p |})
       (filter (fun p => negb (String.eqb (post_slug p) (post_slug originalPost))) allPosts))%list.
Proof.
  induction allPosts as [| p allPosts IH]; intros acc; cbn [fold_left filter].
  - cbn. now rewrite app_nil_r.
  - rewrite IH. unfold score_step.
    destruct (String.eqb (post_slug p) (post_slug originalPost)); cbn [negb map].
    + reflexivity.
    + now rewrite <- app_assoc.
Qed.

Lemma postsWithScores_spec (allPosts : list Post) (originalPost : Post) :
  postsWithScores allPosts originalPost =
    map (fun p => {| post := p; score := score_of originalPost p |})
      (filter (fun p => negb (String.eqb (post_slug p) (post_slug originalPost))) allPosts).
Proof. unfold postsWithScores. now rewrite postsWithScores_fold. Qed.

(** The loop returns a prefix of the sorted posts: it stops at the first
    count that is not below [maxResults], or at the end of the posts. *)
Lemma select_prefix (remaining : list Scored) (maxResults : number) : forall selected,
  exists k,
    select selected remaining maxResults = (selected ++ firstn k (map post remaining))%list
    /\ (k <= List.length remaining)%nat
    /\ (forall j, (j < k)%nat ->
          (float_of_Z (Z.of_nat (List.length selected + j)) <? maxResults)%float = true)
    /\ (k = List.length remaining
        \/ (float_of_Z (Z.of_nat (List.length selected + k)) <? maxResults)%float = false).
Proof.
  induction remaining as [| p remaining IH]; intros selected; cbn [select].
  - exists 0%nat. cbn [firstn map List.length]. rewrite app_nil_r.
    repeat split; [lia | lia | now left].
  - destruct (float_of_Z (Z.of_nat (List.length selected)) <? maxResults)%float eqn:T.
    + destruct (IH (selected ++ [post p])%list) as [k [E [L [B St]]]].
      rewrite length_app in B, St. cbn [List.length] in B, St.
      exists (S k). cbn [map firstn List.length]. rewrite E, <- app_assoc.
      split; [reflexivity |]. split; [lia |]. split.
      * intros [| j] Hj.
        -- now rewrite Nat.add_0_r.
        -- replace (List.length selected + S j)%nat
             with (List.length selected + 1 + j)%nat by lia.
           apply B. lia.
      * destruct St as [-> | St]; [now left | right].
        now replace (List.length selected + S k)%nat
          with (List.length selected + 1 + k)%nat by lia.
    + exists 0%nat. cbn [firstn]. rewrite app_nil_r.
      split; [reflexivity |]. split; [lia |]. split; [lia |].
      right. now rewrite Nat.add_0_r.
Qed.

(** What the loop returns when it starts from no post: the first [k] of the
    sorted posts. *)
Lemma select_count (remaining : list Scored) (maxResults : number) :
  exists k,
    select [] remaining maxResults = firstn k (map post remaining)
    /\ List.length (select [] remaining maxResults) = k
    /\ (k <= List.length remaining)%nat
    /\ (forall j, (j < k)%nat -> (float_of_Z (Z.of_nat j) <? maxResults)%float = true)
    /\ (k = List.length remaining
        \/ (float_of_Z (Z.of_nat k) <? maxResults)%float = false).
Proof.
  destruct (select_prefix remaining maxResults []) as [k [E [L [B St]]]].
  cbn [app List.length Nat.add] in E, B, St.
  exists k. split; [exact E |]. split; [| split; [exact L | split; [exact B | exact St]]].
  rewrite E, length_firstn, length_map. lia.
Qed.

(** For a whole [maxResults] below [2^53] the count is the smaller of
    [maxResults] and the number of posts. *)
Lemma select_whole (remaining : list Scored) (n : Z) :
  0 <= n < 2 ^ 53 ->
  List.length (select [] remaining (float_of_Z n))
  = Nat.min (Z.to_nat n) (List.length remaining).
Proof.
  intros Hn. destruct (select_count remaining (float_of_Z n)) as [k [_ [-> [L [B St]]]]].
  assert (U : (k <= Z.to_nat n)%nat).
  { destruct (Nat.le_gt_cases k (Z.to_nat n)) as [H | H]; [exact H |].
    specialize (B (Z.to_nat n) H). rewrite Z2Nat.id in B by lia.
    rewrite ltb_irrefl in B. discriminate. }
  destruct St as [-> | St]; [lia |].
  rewrite float_of_Z_ltb in St by lia. apply Z.ltb_ge in St. lia.
Qed.

Lemma firstn_In {A : Type} (x : A) (l : list A) : forall k,
  In x (firstn k l) -> In x l.
Proof.
  induction l as [| y l IH]; intros [| k]; cbn; try tauto.
  intros [E | H]; [now left | right; now apply (IH k)].
Qed.

Lemma StronglySorted_firstn {A : Type} (R : A -> A -> Prop) (l : list A) : forall k,
  StronglySorted R l -> StronglySorted R (firstn k l).
Proof.
  induction l as [| x l IH]; intros [| k] H; cbn; try constructor.
  - apply IH. now inversion H.
  - inversion H as [| ? ? _ Hx]; subst.
    rewrite Forall_forall in *. intros z Hz. apply Hx. now apply firstn_In in Hz.
Qed.

(** Sorting by descending score. *)
Lemma sorted_by_score_sorted (l : list Scored) :
  StronglySorted (fun a b => score b <= score a) (sorted_by_score l).
Proof.
  unfold sorted_by_score.
  pose proof (insertion_sort_sorted (fun a b : Scored => 0 <? score b - score a)
                (fun a => - score a) (fun _ => True)) as H.
  assert (Hs : StronglySorted (fun a b : Scored => - score a <= - score b)
                 (insertion_sort (fun a b : Scored => 0 <? score b - score a) l)).
  { apply H.
    - intros x y _ _. destruct (Z.ltb_spec 0 (score y - score x));
        destruct (Z.ltb_spec (- score y) (- score x)); try lia; reflexivity.
    - rewrite Forall_forall. trivial. }
  clear H. induction Hs as [| x s Hs IH Hx]; constructor; [exact IH |].
  rewrite Forall_forall in *. intros z Hz. specialize (Hx z Hz). lia.
Qed.

End BlogFacts.

(** * The resolver *)

Import ImagesOptimization Statements.

Lemma truthy_not_nan (x : number) : truthy x = true -> is_nan x = false.
Proof.
  unfold truthy. intros H. apply negb_true_iff in H. apply orb_false_iff in H. tauto.
Qed.

Lemma final_In (x : number) (l : list number) :
  In x (final l) -> exists y, In y l /\ x = canonical y.
Proof.
  unfold final, Array_sort. intros H.
  apply (proj1 (insertion_sort_In _ x (Set_values l))) in H.
  now apply Set_values_In.
Qed.

Lemma final_head (x y : number) (l : list number) :
  sameValueZero (canonical y) (canonical x) = false ->
  In (canonical x) (final (x :: y :: l)) /\ In (canonical y) (final (x :: y :: l)).
Proof.
  intros H. unfold final, Array_sort, Set_values. cbn [fold_left].
  destruct (fold_Set_add_prefix l (Set_add (Set_add [] x) y)) as [more E].
  rewrite E.
  change (Set_add (Set_add [] x) y)
    with (if existsb (sameValueZero (canonical y)) [canonical x]
          then [canonical x] else [canonical x; canonical y]).
  cbn [existsb]. rewrite H. cbn [orb app].
  split; apply (proj2 (insertion_sort_In _ _ _)); cbn; tauto.
Qed.


(** ** The breakpoint selector *)

(** C1, as stated, fails at the width 0, and at NaN: widths that are
    defined, for which the selector returns no breakpoint at all, where the
    specification has the width, its double and the candidates below it. *)
Lemma constrained_zero_width :
  getBreakpoints (Some 0%float) None constrained = []
  /\ getBreakpoints (Some 0%float) None constrained
     <> (0 :: 0 * 2 :: filter (fun x => x <? 0 * 2) deviceSizes)%float
  /\ getBreakpoints (Some nan) None constrained = [].
Proof. split; [reflexivity | split; [discriminate | reflexivity]]. Qed.

(** C1 (amended). For the layout [constrained] and a width [W] that is
    defined and truthy (neither zero nor NaN) the selector returns [W],
    [2 * W] and then the candidates (the supplied ones, or the device table)
    that are strictly below [2 * W]; for a width that is undefined, zero or
    NaN it returns the empty list. At [W = 800] the final sequence contains
    800 and 1600, and each of its members is 1600 or is below 1600: no
    candidate of 1600 or more is carried over. *)
Theorem getBreakpoints_constrained (W : number) (c : option (list number)) :
  getBreakpoints (Some W) c constrained
  = (if truthy W
     then W :: (W * 2)%float :: filter (fun x => (x <? W * 2)%float) (candidates c)
     else [])
  /\ getBreakpoints None c constrained = []
  /\ In 800%float (final (getBreakpoints (Some 800%float) c constrained))
  /\ In 1600%float (final (getBreakpoints (Some 800%float) c constrained))
  /\ (forall x, In x (final (getBreakpoints (Some 800%float) c constrained)) ->
        x = 1600%float \/ (x <? 1600)%float = true).
Proof.
  split; [| split; [reflexivity |]].
  - unfold getBreakpoints, candidates. destruct (truthy W); reflexivity.
  - change (getBreakpoints (Some 800%float) c constrained)
      with (800%float :: 1600%float :: filter (fun x => (x <? 1600)%float) (candidates c)).
    split; [| split].
    + apply (final_head 800%float 1600%float). reflexivity.
    + apply (final_head 800%float 1600%float). reflexivity.
    + intros x Hx. apply final_In in Hx. destruct Hx as [y [Hy ->]].
      destruct Hy as [<- | [<- | Hy]].
      * right. reflexivity.
      * left. reflexivity.
      * right. apply filter_In in Hy. destruct Hy as [_ Hy].
        unfold canonical. destruct (PrimFloat.is_zero y); [reflexivity | exact Hy].
Qed.

Lemma pixelate_defined (x : number) :
  is_nan x = false -> pixelate (Some x) = Some (Number_toString x ++ "px").
Proof.
  intros H. unfold pixelate, truthy. rewrite H, orb_false_r.
  change (x =? 0)%float with (PrimFloat.is_zero x).
  now destruct (PrimFloat.is_zero x).
Qed.

Lemma truthy_entries_app (a b : list (string * option string)) :
  truthy_entries (a ++ b)%list = (truthy_entries a ++ truthy_entries b)%list.
Proof.
  induction a as [| [k [v |]] a IH]; cbn; [reflexivity | | exact IH].
  destruct (truthy_string v); cbn; now rewrite IH.
Qed.

Lemma obj_get_app {V : Type} (k : string) (a b : list (string * V)) :
  obj_get k (a ++ b)%list = match obj_get k a with Some v => Some v | None => obj_get k b end.
Proof.
  induction a as [| [k1 v1] a IH]; cbn; [reflexivity |].
  destruct (String.eqb k k1); [reflexivity | apply IH].
Qed.

Lemma append_assoc (a b c : string) : (a ++ b) ++ c = a ++ (b ++ c).
Proof. induction a as [| x a IH]; cbn; [reflexivity | now rewrite IH]. Qed.

Lemma declaration_px (k n : string) :
  declaration (k, n ++ "px") = k ++ ": " ++ n ++ "px;".
Proof. unfold declaration. cbn [fst snd]. now rewrite append_assoc. Qed.

(** The [styles] object of a fixed layout: what the three entries of the
    layout wrote is what is read, whatever came before. *)
Lemma styles_fixed (W H : number) (r : option number) (fit pos bg : option string) (k : string) :
  is_nan W = false -> is_nan H = false ->
  obj_get k
    (rev [("width", Number_toString W ++ "px"); ("height", Number_toString H ++ "px");
          ("object-position", "top left")]) <> None ->
  obj_get k (styles (Some W) (Some H) r (Some fixed) fit pos bg)
  = obj_get k
      (rev [("width", Number_toString W ++ "px"); ("height", Number_toString H ++ "px");
            ("object-position", "top left")]).
Proof.
  intros HW HH Hk. unfold styles. rewrite obj_get_assign.
  unfold styleEntries. cbn [when Layout_eqb]. rewrite !app_nil_r.
  rewrite app_assoc, truthy_entries_app, rev_app_distr, obj_get_app.
  rewrite !pixelate_defined by assumption.
  cbn [truthy_entries].
  rewrite !truthy_string_app_r by reflexivity. cbn [truthy_string].
  destruct (obj_get k (rev _)) eqn:E at 1.
  - rewrite E. reflexivity.
  - rewrite E in Hk. contradiction.
Qed.

Lemma join_cons (sep x : string) (l : list string) :
  l <> [] -> join sep (x :: l) = x ++ sep ++ join sep l.
Proof. destruct l; [congruence | reflexivity]. Qed.

Lemma join_app (sep : string) (a b : list string) :
  a <> [] -> b <> [] -> join sep (a ++ b)%list = join sep a ++ sep ++ join sep b.
Proof.
  intros Ha Hb. induction a as [| x a IH]; [congruence |].
  destruct a as [| y a].
  - cbn [app]. now rewrite join_cons.
  - change ((x :: y :: a) ++ b)%list with (x :: ((y :: a) ++ b))%list.
    rewrite join_cons by discriminate. rewrite IH by discriminate.
    rewrite (join_cons sep x (y :: a)) by discriminate.
    now rewrite !append_assoc.
Qed.

(** A run of consecutive elements is a part of the joined string. *)
Lemma join_contains (sep : string) (front run back : list string) :
  run <> [] -> contains (join sep run) (join sep (front ++ run ++ back)%list).
Proof.
  intros Hr. unfold contains.
  destruct front as [| f front], back as [| b back].
  - exists "", "". cbn [app]. rewrite app_nil_r. cbn. now rewrite append_empty_r.
  - exists "", (sep ++ join sep (b :: back)). cbn [app].
    rewrite join_app by (assumption || discriminate). reflexivity.
  - exists (join sep (f :: front) ++ sep), "". rewrite app_nil_r.
    rewrite join_app by (assumption || discriminate).
    now rewrite append_empty_r, append_assoc.
  - exists (join sep (f :: front) ++ sep), (sep ++ join sep (b :: back)).
    rewrite join_app by (discriminate || (destruct run; [congruence | discriminate])).
    rewrite join_app by (assumption || discriminate).
    now rewrite !append_assoc.
Qed.

Lemma obj_set_fresh {V : Type} (k : string) (v : V) (o : list (string * V)) :
  obj_get k o = None -> obj_set k v o = (o ++ [(k, v)])%list.
Proof.
  induction o as [| [k' v'] o IH]; cbn; [reflexivity |].
  destruct (String.eqb k k'); [discriminate |]. intros H. now rewrite IH.
Qed.

(** Writing a key leaves a run of other keys in place. *)
Lemma obj_set_keeps_run {V : Type} (k : string) (v : V) (front run back : list (string * V)) :
  obj_get k run = None ->
  exists front' back', obj_set k v (front ++ run ++ back)%list = (front' ++ run ++ back')%list.
Proof.
  intros Hr. induction front as [| [k' v'] front IH]; cbn [app].
  - exists []. cbn [app]. induction run as [| [k' v'] run IHr]; cbn [app].
    + exists (obj_set k v back). reflexivity.
    + cbn in Hr. cbn [obj_set]. destruct (String.eqb k k'); [discriminate |].
      destruct (IHr Hr) as [back' E]. exists back'. now rewrite E.
  - cbn [obj_set]. destruct (String.eqb k k').
    + exists ((k, v) :: front), back. reflexivity.
    + destruct IH as [front' [back' E]]. exists ((k', v') :: front'), back'. now rewrite E.
Qed.

Lemma obj_assign_app {V : Type} (o a b : list (string * V)) :
  obj_assign o (a ++ b)%list = obj_assign (obj_assign o a) b.
Proof. unfold obj_assign. apply fold_left_app. Qed.

(** Entries under other keys leave [k] unread. *)
Lemma truthy_entries_other (k : string) (entries : list (string * option string)) :
  forallb (fun kv => negb (String.eqb k (fst kv))) entries = true ->
  obj_get k (truthy_entries entries) = None.
Proof.
  induction entries as [| [k' [v |]] entries IH]; cbn; [reflexivity | |].
  - intros H. apply andb_true_iff in H as [H1 H2]. apply negb_true_iff in H1.
    destruct (truthy_string v); cbn; [rewrite H1 |]; now apply IH.
  - intros H. apply andb_true_iff in H as [_ H2]. now apply IH.
Qed.

(** The [styles] object of a fixed layout holds the width and the height
    side by side. *)
Lemma styles_fixed_run (W H : number) (r : option number) (fit pos bg : option string) :
  is_nan W = false -> is_nan H = false ->
  exists front back,
    styles (Some W) (Some H) r (Some fixed) fit pos bg
    = (front ++ [("width", (Number_toString W ++ "px")%string);
            ("height", (Number_toString H ++ "px")%string)]
         ++ back)%list.
Proof.
  intros HW HH. unfold styles, styleEntries. cbn [when Layout_eqb]. rewrite !app_nil_r.
  rewrite app_assoc, truthy_entries_app, obj_assign_app.
  rewrite !pixelate_defined by assumption.
  cbn [truthy_entries]. rewrite !truthy_string_app_r by reflexivity. cbn [truthy_string].
  set (base := obj_assign [] (truthy_entries _)).
  assert (Hw : obj_get "width" base = None).
  { unfold base. rewrite obj_get_assign. rewrite obj_get_rev_none; [reflexivity |].
    apply truthy_entries_other. destruct (is_url bg); reflexivity. }
  assert (Hh : obj_get "height" base = None).
  { unfold base. rewrite obj_get_assign. rewrite obj_get_rev_none; [reflexivity |].
    apply truthy_entries_other. destruct (is_url bg); reflexivity. }
  unfold obj_assign. cbn [fold_left].
  rewrite (obj_set_fresh "width") by exact Hw.
  rewrite (obj_set_fresh "height").
  2:{ rewrite obj_get_app, Hh. reflexivity. }
  rewrite <- app_assoc. cbn [app].
  replace (base ++ [("width", (Number_toString W ++ "px")%string);
            ("height", (Number_toString H ++ "px")%string)])%list
    with (base ++ [("width", (Number_toString W ++ "px")%string);
            ("height", (Number_toString H ++ "px")%string)] ++ [])%list
    by (now rewrite app_nil_r).
  apply (obj_set_keeps_run "object-position" "top left" base
           [("width", (Number_toString W ++ "px")%string);
            ("height", (Number_toString H ++ "px")%string)] []).
  reflexivity.
Qed.

(** C2, as stated, fails at the width 0, which has neither the breakpoints
    [0; 0] nor the [sizes] value ["0px"]; and a height of NaN has no
    declaration in the style. *)
Lemma fixed_zero_width :
  getBreakpoints (Some 0%float) None fixed = []
  /\ getBreakpoints (Some 0%float) None fixed <> [0; 0 * 2]%float
  /\ getSizes (Some 0%float) (Some fixed) = None
  /\ getSizes (Some 0%float) (Some fixed) <> Some "0px"
  /\ getStyle (Some 800%float) (Some nan) None (Some fixed) None None None
     = "object-fit: cover; object-position: top left; width: 800px;".
Proof.
  split; [reflexivity | split; [discriminate | split; [reflexivity | split]]];
    [discriminate | reflexivity].
Qed.

(** C2 (amended). For the layout [fixed], a width [W] that is truthy
    (defined, not zero, not NaN) and a height [H] that is not NaN: the
    selector returns exactly [W; 2 * W] (and nothing for an undefined width),
    [getSizes] returns ["Wpx"], and the style, whatever the other arguments
    of [getStyle], contains [width: Wpx; height: Hpx;] and
    [object-position: top left;], the one value under that property, which
    replaced the base value. The style of the resolver's own call is spelled
    out. *)
Theorem fixed_layout (W H : number) (c : option (list number)) (r : option number)
    (fit pos bg : option string) :
  truthy W = true -> is_nan H = false ->
  getBreakpoints (Some W) c fixed = [W; (W * 2)%float]
  /\ getBreakpoints None c fixed = []
  /\ getSizes (Some W) (Some fixed) = Some (Number_toString W ++ "px")
  /\ contains ("width: " ++ Number_toString W ++ "px; height: " ++ Number_toString H ++ "px;")
       (getStyle (Some W) (Some H) r (Some fixed) fit pos bg)
  /\ contains "object-position: top left;"
       (getStyle (Some W) (Some H) r (Some fixed) fit pos bg)
  /\ obj_get "object-position" (styles (Some W) (Some H) r (Some fixed) fit pos bg)
     = Some "top left"
  /\ getStyle (Some W) (Some H) r (Some fixed) None None None
     = "object-fit: cover; object-position: top left; width: " ++ Number_toString W
       ++ "px; height: " ++ Number_toString H ++ "px;".
Proof.
  intros HW HH. pose proof (truthy_not_nan W HW) as HW'.
  assert (Gp : obj_get "object-position" (styles (Some W) (Some H) r (Some fixed) fit pos bg)
               = Some "top left").
  { rewrite styles_fixed by (assumption || (cbn; discriminate)). reflexivity. }
  split; [| split; [| split; [| split; [| split; [| split]]]]].
  - unfold getBreakpoints. rewrite HW. reflexivity.
  - reflexivity.
  - unfold getSizes. rewrite HW. reflexivity.
  - destruct (styles_fixed_run W H r fit pos bg HW' HH) as [front [back E]].
    unfold getStyle. rewrite E, !map_app.
    replace ("width: " ++ Number_toString W ++ "px; height: " ++ Number_toString H ++ "px;")
      with (join " "
              (map declaration
                 [("width", Number_toString W ++ "px"); ("height", Number_toString H ++ "px")])).
    + apply join_contains. discriminate.
    + cbn [map join]. rewrite !declaration_px. now rewrite !append_assoc.
  - apply obj_get_In in Gp. apply in_split in Gp. destruct Gp as [front [back E]].
    unfold getStyle. rewrite E, map_app.
    apply (join_contains " " (map declaration front) ["object-position: top left;"]
             (map declaration back)).
    discriminate.
  - exact Gp.
  - unfold getStyle, styles, styleEntries. cbn [when Layout_eqb is_url app].
    rewrite !pixelate_defined by assumption.
    cbn [truthy_entries truthy_string].
    rewrite !truthy_string_app_r by reflexivity.
    cbn -[Number_toString]. rewrite !append_assoc. reflexivity.
Qed.

(** A width of 800, a height of 600 and the device table. *)
Lemma fixed_layout_witness :
  truthy 800 = true /\ is_nan 600 = false
  /\ getBreakpoints (Some 800%float) None fixed = [800; 1600]%float
  /\ getSizes (Some 800%float) (Some fixed) = Some "800px"
  /\ getStyle (Some 800%float) (Some 600%float) None (Some fixed) None None None
     = "object-fit: cover; object-position: top left; width: 800px; height: 600px;".
Proof.
  destruct (fixed_layout 800%float 600%float None None None None None)
    as [B [_ [S [_ [_ [_ G]]]]]]; [reflexivity | reflexivity |].
  exact (conj eq_refl (conj eq_refl (conj B (conj S G)))).
Defined.

(** ** The sizes attribute *)

(** C8, as stated, fails at the width 0, and at NaN: widths that are
    present, for which nothing is returned, where the specification has
    ["100vw"] for the layout [fullWidth]. *)
Lemma sizes_zero_width :
  getSizes (Some 0%float) (Some fullWidth) = None
  /\ getSizes (Some 0%float) (Some fullWidth) <> Some "100vw"
  /\ getSizes (Some nan) (Some fullWidth) = None.
Proof. split; [reflexivity | split; [discriminate | reflexivity]]. Qed.

(** C8 (amended). [getSizes] returns undefined when the width or the layout
    is absent, and also when the width is zero or NaN; otherwise it returns
    ["(min-width: Wpx) Wpx, 100vw"] for [constrained], ["Wpx"] for [fixed],
    ["100vw"] for [fullWidth] and undefined for [cover], [responsive] and
    [contained]. *)
Theorem getSizes_cases (w : option number) (W : number) (l : Layout) :
  getSizes None (Some l) = None
  /\ getSizes w None = None
  /\ getSizes (Some W) (Some l) =
       (if truthy W then
          match l with
          | constrained =>
              Some ("(min-width: " ++ Number_toString W ++ "px) "
                    ++ Number_toString W ++ "px, 100vw")
          | fixed => Some (Number_toString W ++ "px")
          | fullWidth => Some "100vw"
          | cover | responsive | contained => None
          end
        else None)
  /\ getSizes (Some 800%float) (Some constrained) = Some "(min-width: 800px) 800px, 100vw".
Proof.
  repeat split.
  - destruct w; reflexivity.
  - unfold getSizes. destruct (truthy W), l; reflexivity.
Qed.

Lemma or_undefined_truthy (x : number) : truthy x = true -> or_undefined x = Some x.
Proof. unfold or_undefined. now intros ->. Qed.

Lemma coerce_number (x : number) : truthy x = true -> coerce (DimNumber x) = Some x.
Proof. intros H. unfold coerce. cbn. rewrite H. now apply or_undefined_truthy. Qed.

Lemma defined_truthy_some (x : number) : truthy x = true -> defined_truthy (Some x) = Some x.
Proof. apply or_undefined_truthy. Qed.

(** ** The dimension normalizer *)

(** C3, as stated, fails at the aspect ratio 0, which is present: with the
    width 100 and no height the height stays undefined, where the
    specification has [100 / 0]; so it is with the aspect ratio NaN. A width
    of 0 with the height 50 gives no aspect ratio either. *)
Lemma ratio_zero_no_height :
  dim_height (dimensions (ImageUrl "a.png")
                (number_hints (DimNumber 100) DimUndefined (DimNumber 0) constrained)) = None
  /\ dim_height (dimensions (ImageUrl "a.png")
                   (number_hints (DimNumber 100) DimUndefined (DimNumber nan) constrained))
     = None
  /\ dim_height (dimensions (ImageUrl "a.png")
                   (number_hints (DimNumber 100) DimUndefined (DimNumber 0) constrained))
     <> Some (100 / 0)%float
  /\ dim_ratio (dimensions (ImageUrl "a.png")
                  (number_hints (DimNumber 0) (DimNumber 50) DimUndefined constrained)) = None.
Proof.
  split; [reflexivity | split; [reflexivity | split; [discriminate | reflexivity]]].
Qed.

(** C3 (amended). In the normalization of [getImagesOptimized], with an
    aspect ratio [r], a width [w] and a height [h] that are truthy (present,
    not zero, not NaN): the aspect ratio and the width alone give the height
    [w / r]; the aspect ratio and the height alone give the width [h * r];
    the width and the height without an aspect ratio give the aspect ratio
    [w / h]. So does the resolver for an image given by its URL, where the
    hints are all there is: 100 with 2 gives the height 50, 50 with 2 gives
    the width 100, 100 with 50 gives the aspect ratio 2. *)
Theorem dimensions_derived (w h r : number) (l : Layout) (url : string) :
  truthy w = true -> truthy h = true -> truthy r = true ->
  dim_height (normalize (Some w) None (Some r) l) = Some (w / r)%float
  /\ dim_width (normalize None (Some h) (Some r) l) = Some (h * r)%float
  /\ dim_ratio (normalize (Some w) (Some h) None l) = Some (w / h)%float
  /\ dim_height (dimensions (ImageUrl url)
                   (number_hints (DimNumber w) DimUndefined (DimNumber r) l))
     = Some (w / r)%float
  /\ dim_width (dimensions (ImageUrl url)
                  (number_hints DimUndefined (DimNumber h) (DimNumber r) l))
     = Some (h * r)%float
  /\ dim_ratio (dimensions (ImageUrl url)
                  (number_hints (DimNumber w) (DimNumber h) DimUndefined l))
     = Some (w / h)%float
  /\ dim_height (dimensions (ImageUrl url)
                   (number_hints (DimNumber 100) DimUndefined (DimNumber 2) l))
     = Some 50%float
  /\ dim_width (dimensions (ImageUrl url)
                  (number_hints DimUndefined (DimNumber 50) (DimNumber 2) l))
     = Some 100%float
  /\ dim_ratio (dimensions (ImageUrl url)
                  (number_hints (DimNumber 100) (DimNumber 50) DimUndefined l))
     = Some 2%float.
Proof.
  intros Hw Hh Hr.
  assert (N1 : forall w r, truthy w = true -> truthy r = true ->
            dim_height (normalize (Some w) None (Some r) l) = Some (w / r)%float).
  { intros w0 r0 H0 H1. unfold normalize. now rewrite !defined_truthy_some by assumption. }
  assert (N2 : forall h r, truthy h = true -> truthy r = true ->
            dim_width (normalize None (Some h) (Some r) l) = Some (h * r)%float).
  { intros h0 r0 H0 H1. unfold normalize. now rewrite !defined_truthy_some by assumption. }
  assert (N3 : forall w h, truthy w = true -> truthy h = true ->
            dim_ratio (normalize (Some w) (Some h) None l) = Some (w / h)%float).
  { intros w0 h0 H0 H1. unfold normalize. now rewrite !defined_truthy_some by assumption. }
  assert (D1 : forall w r, truthy w = true -> truthy r = true ->
            dim_height (dimensions (ImageUrl url)
                          (number_hints (DimNumber w) DimUndefined (DimNumber r) l))
            = Some (w / r)%float).
  { intros w0 r0 H0 H1. unfold dimensions, coerced, number_hints, layout_of.
    cbn [intrinsic width height aspectRatio layout fst snd parseAspectRatio].
    rewrite coerce_number by assumption. now apply N1. }
  assert (D2 : forall h r, truthy h = true -> truthy r = true ->
            dim_width (dimensions (ImageUrl url)
                         (number_hints DimUndefined (DimNumber h) (DimNumber r) l))
            = Some (h * r)%float).
  { intros h0 r0 H0 H1. unfold dimensions, coerced, number_hints, layout_of.
    cbn [intrinsic width height aspectRatio layout fst snd parseAspectRatio].
    rewrite coerce_number by assumption. now apply N2. }
  assert (D3 : forall w h, truthy w = true -> truthy h = true ->
            dim_ratio (dimensions (ImageUrl url)
                         (number_hints (DimNumber w) (DimNumber h) DimUndefined l))
            = Some (w / h)%float).
  { intros w0 h0 H0 H1. unfold dimensions, coerced, number_hints, layout_of.
    cbn [intrinsic width height aspectRatio layout fst snd parseAspectRatio].
    rewrite !coerce_number by assumption. now apply N3. }
  repeat split; auto.
Qed.

(** A full HD frame: 1920 and 1080 with each other, and with the ratio 2. *)
Lemma dimensions_derived_witness :
  truthy 1920 = true /\ truthy 1080 = true /\ truthy 2 = true
  /\ dim_height (dimensions (ImageUrl "a.png")
                   (number_hints (DimNumber 1920) DimUndefined (DimNumber 2) fixed))
     = Some 960%float
  /\ dim_width (dimensions (ImageUrl "a.png")
                  (number_hints DimUndefined (DimNumber 1080) (DimNumber 2) fixed))
     = Some 2160%float
  /\ dim_ratio (dimensions (ImageUrl "a.png")
                  (number_hints (DimNumber 1920) (DimNumber 1080) DimUndefined fixed))
     = Some (1920 / 1080)%float.
Proof.
  destruct (dimensions_derived 1920 1080 2 fixed "a.png")
    as [_ [_ [_ [A [B [C _]]]]]]; try reflexivity.
  exact (conj eq_refl (conj eq_refl (conj eq_refl (conj A (conj B C))))).
Defined.

(** ** Intrinsic dimensions *)

(** C5. For the image of 1920 by 1080 and no hints the resolver takes the
    width 1920 and the height 1080, the image's own. For the image of 100 by
    83 it keeps the width 100 and takes the height 82:
    [Math.floor(100 / (100 / 83))], where the quotient, rounded, is
    [82.99999999999999]. *)
Theorem intrinsic_height_rounds_down :
  coerced (ImageData {| meta_src := "a.png"; meta_width := 1920; meta_height := 1080 |})
    no_hints = (Some 1920%float, Some 1080%float)
  /\ Number_toString (100 / (100 / 83)) = "82.99999999999999"
  /\ computeHeight 100 (100 / 83) = 82%float
  /\ coerced (ImageData {| meta_src := "a.png"; meta_width := 100; meta_height := 83 |})
       no_hints = (Some 100%float, Some 82%float)
  /\ dim_width (dimensions
       (ImageData {| meta_src := "a.png"; meta_width := 100; meta_height := 83 |}) no_hints)
     = Some 100%float
  /\ dim_height (dimensions
       (ImageData {| meta_src := "a.png"; meta_width := 100; meta_height := 83 |}) no_hints)
     = Some 82%float.
Proof. repeat split; vm_compute; reflexivity. Qed.

(** *** No value twice in a set *)

Lemma eqb_sym (x y : float) : (x =? y)%float = (y =? x)%float.
Proof.
  destruct (is_nan x) eqn:Hx; [| destruct (is_nan y) eqn:Hy].
  - apply is_nan_spec in Hx. rewrite !eqb_spec, Hx. unfold SFeqb.
    now destruct (Prim2SF y).
  - apply is_nan_spec in Hy. rewrite !eqb_spec, Hy. unfold SFeqb.
    now destruct (Prim2SF x).
  - rewrite !eqb_position by assumption. apply Z.eqb_sym.
Qed.

Lemma sameValueZero_sym (x y : float) : sameValueZero x y = sameValueZero y x.
Proof. unfold sameValueZero. now rewrite eqb_sym, andb_comm. Qed.

Lemma distinct_snoc (l : list float) (x : float) :
  distinct l -> existsb (sameValueZero x) l = false -> distinct (l ++ [x])%list.
Proof.
  unfold distinct. induction 1 as [| a l Ha Hl IH]; cbn; intros Hx.
  - constructor; constructor.
  - apply orb_false_iff in Hx as [H1 H2]. constructor; [| now apply IH].
    apply Forall_app. split; [exact Ha |]. constructor; [| constructor].
    now rewrite sameValueZero_sym.
Qed.

Lemma fold_Set_add_distinct (l : list float) : forall seen,
  distinct seen -> distinct (fold_left Set_add l seen).
Proof.
  induction l as [| x l IH]; intros seen Hs; cbn [fold_left]; [exact Hs |].
  apply IH. rewrite Set_add_spec.
  destruct (existsb (sameValueZero (canonical x)) seen) eqn:E; [exact Hs |].
  now apply distinct_snoc.
Qed.

Lemma distinct_perm (l l' : list float) :
  Permutation l l' -> distinct l -> distinct l'.
Proof.
  unfold distinct. induction 1 as [| x l l' P IH | x y l | l l' l'' P1 IH1 P2 IH2]; intros H.
  - exact H.
  - inversion H as [| ? ? Hx Hl]; subst. constructor; [| now apply IH].
    rewrite Forall_forall in *. intros z Hz. apply Hx.
    apply (Permutation_in z (Permutation_sym P)). exact Hz.
  - inversion H as [| ? ? Hy Hl]; subst. inversion Hl as [| ? ? Hx Hl']; subst.
    inversion Hy as [| ? ? Hyx Hy']; subst.
    constructor; [| constructor; assumption].
    constructor; [| assumption]. now rewrite sameValueZero_sym.
  - auto.
Qed.

Lemma final_distinct (l : list float) : distinct (final l).
Proof.
  unfold final, Array_sort.
  eapply distinct_perm; [symmetry; apply insertion_sort_perm |].
  apply fold_Set_add_distinct. constructor.
Qed.

Lemma getBreakpoints_not_nan (w : option number) (c : list number) (l : Layout) :
  Forall (fun y => is_nan y = false) c ->
  Forall (fun y => is_nan y = false) (getBreakpoints w (Some c) l).
Proof.
  intros Hc. unfold getBreakpoints.
  destruct l; try exact Hc.
  - destruct w as [W |]; [| constructor].
    destruct (truthy W) eqn:HW; cbn [negb]; [| constructor].
    pose proof (truthy_not_nan W HW) as HN.
    constructor; [exact HN |]. constructor; [now apply double_not_nan | constructor].
  - destruct w as [W |]; [| constructor].
    destruct (truthy W) eqn:HW; cbn [negb]; [| constructor].
    pose proof (truthy_not_nan W HW) as HN.
    constructor; [exact HN |]. constructor; [now apply double_not_nan |].
    rewrite Forall_forall in *. intros z Hz. apply filter_In in Hz. now apply Hc.
Qed.

(** ** The final breakpoints *)

(** C6, as stated, fails when a candidate width is NaN: the comparator
    [a - b] is NaN on it, the order is left as it was, and 3 stays before 1. *)
Lemma breakpoints_with_nan :
  resolvedBreakpoints (ImageUrl "a.png") (width_hints [3; nan; 1]%float fullWidth) = [3; nan; 1]%float
  /\ ~ StronglySorted (fun a b => (a <? b)%float = true)
         (resolvedBreakpoints (ImageUrl "a.png") (width_hints [3; nan; 1]%float fullWidth)).
Proof.
  split; [reflexivity |].
  change (resolvedBreakpoints (ImageUrl "a.png") (width_hints [3; nan; 1]%float fullWidth))
    with [3; nan; 1]%float.
  intros H. inversion H as [| ? ? _ H3]; subst.
  inversion H3 as [| ? ? Hn _]; subst. discriminate Hn.
Qed.

(** C6 (amended). The transform is called with the final breakpoint
    sequence. For every input that sequence has no value twice (set
    semantics); when no candidate width is NaN it ascends strictly. For the
    layouts [fullWidth], [cover], [responsive] and [contained] the selector
    returns the supplied candidates verbatim, or the device table when there
    are none, so the candidates [200; 100; 200; 300] with [fullWidth] give
    the final sequence [100; 200; 300]. *)
Theorem resolvedBreakpoints_set_sorted (image : Image) (props : ImageProps)
    (transform : ImagesOptimizer) (w : option number) (c : option (list number)) :
  snd (getImagesOptimized image props (Some transform))
  = match transform image (resolvedBreakpoints image props)
            (defined_truthy (dim_width (dimensions image props)))
            (defined_truthy (dim_height (dimensions image props))) with
    | Fulfilled entries => Fulfilled (assemble image props entries)
    | Rejected reason => Rejected reason
    end
  /\ distinct (resolvedBreakpoints image props)
  /\ (Forall (fun y => is_nan y = false) (candidates (widths props)) ->
      StronglySorted (fun a b => (a <? b)%float = true) (resolvedBreakpoints image props))
  /\ getBreakpoints w c fullWidth = candidates c
  /\ getBreakpoints w c cover = candidates c
  /\ getBreakpoints w c responsive = candidates c
  /\ getBreakpoints w c contained = candidates c
  /\ resolvedBreakpoints image (width_hints [200; 100; 200; 300]%float fullWidth)
     = [100; 200; 300]%float.
Proof.
  split; [reflexivity |].
  split; [apply final_distinct |].
  split; [| repeat split].
  intros Hc. apply sorted_set_ascending. apply getBreakpoints_not_nan. exact Hc.
Qed.

(** The device table, which has no NaN, under a constrained width of 800. *)
Lemma resolvedBreakpoints_set_sorted_witness :
  Forall (fun y => is_nan y = false) deviceSizes
  /\ StronglySorted (fun a b => (a <? b)%float = true)
       (resolvedBreakpoints (ImageUrl "a.png")
          (number_hints (DimNumber 800) DimUndefined DimUndefined constrained)).
Proof.
  assert (H : Forall (fun y => is_nan y = false) deviceSizes).
  { repeat constructor. }
  split; [exact H |].
  apply (resolvedBreakpoints_set_sorted (ImageUrl "a.png")
           (number_hints (DimNumber 800) DimUndefined DimUndefined constrained)
           (one_for_each "a.png") None None).
  exact H.
Defined.

(** ** The assembled attributes *)

Lemma srcset_entry_truthy (e : SrcEntry) : truthy_string (srcset_entry e) = true.
Proof. unfold srcset_entry. apply truthy_string_app_r. reflexivity. Qed.

Lemma rest_of_srcset (props : ImageProps) :
  obj_get "srcset" (rest_of props) = obj_get "srcset" (others props).
Proof.
  unfold rest_of.
  apply (obj_get_filter "srcset" (fun k => negb (existsb (String.eqb k) destructured))).
  reflexivity.
Qed.

(** C7, as stated, fails when the hints carry a [srcset] of their own: it is
    passed through after the computed one and replaces it, here by the empty
    string although the transform returned the empty list. *)
Lemma srcset_passed_through :
  srcset_of (getImagesOptimized (ImageUrl "a.png") (passing [("srcset", AttrString "")])
               (Some (resolving [])))
  = Some (AttrString "")
  /\ srcset_of (getImagesOptimized (ImageUrl "a.png") (passing [("srcset", AttrString "")])
                  (Some (resolving [])))
     <> Some AttrUndefined.
Proof. split; [reflexivity | discriminate]. Qed.

(** C7 (amended). For every call whose hints carry no [srcset] property and
    whose transform resolves: when the transform returned the empty list,
    [attributes.srcset] is undefined, not the empty string; when it returned a
    non-empty list, [srcset] is its entries formatted as ["{url} {width}w"]
    and joined by [", "]. A transform that rejects makes the resolver reject
    with the same reason. *)
Theorem srcset_of_transform (image : Image) (props : ImageProps) (transform : ImagesOptimizer)
    (entries : list SrcEntry) (reason : string) :
  obj_get "srcset" (others props) = None ->
  (transform image (resolvedBreakpoints image props)
     (defined_truthy (dim_width (dimensions image props)))
     (defined_truthy (dim_height (dimensions image props))) = Fulfilled entries ->
   srcset_of (getImagesOptimized image props (Some transform))
   = Some (match entries with
           | [] => AttrUndefined
           | _ :: _ => AttrString (join ", " (map srcset_entry entries))
           end))
  /\ (transform image (resolvedBreakpoints image props)
        (defined_truthy (dim_width (dimensions image props)))
        (defined_truthy (dim_height (dimensions image props))) = Rejected reason ->
      snd (getImagesOptimized image props (Some transform)) = Rejected reason)
  /\ srcset_of (getImagesOptimized image props None) = Some AttrUndefined.
Proof.
  intros Hp.
  assert (Hget : forall es,
            obj_get "srcset" (attributes (assemble image props es))
            = Some (if truthy_string (join ", " (map srcset_entry es))
                    then AttrString (join ", " (map srcset_entry es)) else AttrUndefined)).
  { intros es. unfold assemble. cbn [attributes]. rewrite obj_get_assign.
    rewrite obj_get_rev_none by (now rewrite rest_of_srcset).
    reflexivity. }
  split; [| split].
  - intros Ht. unfold srcset_of, getImagesOptimized. cbn [snd]. rewrite Ht.
    rewrite Hget. destruct entries as [| e es]; [reflexivity |].
    cbn [map]. now rewrite join_truthy by apply srcset_entry_truthy.
  - intros Ht. unfold getImagesOptimized. cbn [snd]. now rewrite Ht.
  - unfold srcset_of, getImagesOptimized. cbn [snd]. now rewrite Hget.
Qed.

(** No hints, and a transform that names a URL for each breakpoint of a
    fixed width of 800. *)
Lemma srcset_of_transform_witness :
  obj_get "srcset" (others (number_hints (DimNumber 800) DimUndefined DimUndefined fixed)) = None
  /\ srcset_of (getImagesOptimized (ImageUrl "a.png")
                  (number_hints (DimNumber 800) DimUndefined DimUndefined fixed)
                  (Some (one_for_each "a.png")))
     = Some (AttrString "a.png 800w, a.png 1600w").
Proof.
  split; [reflexivity |].
  apply (srcset_of_transform (ImageUrl "a.png")
           (number_hints (DimNumber 800) DimUndefined DimUndefined fixed)
           (one_for_each "a.png")
           [{| entry_src := "a.png"; entry_width := 800 |};
            {| entry_src := "a.png"; entry_width := 1600 |}] "");
    reflexivity.
Defined.

(** ** Determinism *)

Section Determinism.
Import Shared.

Lemma read_alloc (s : Store) (a : list number) (r : Ref) :
  valid s r -> read (fst (alloc s a)) r = read s r.
Proof. intros H. unfold read, alloc. cbn [fst]. now apply app_nth1. Qed.

Lemma read_alloc_new (s : Store) (a : list number) :
  read (fst (alloc s a)) (snd (alloc s a)) = a.
Proof.
  unfold read, alloc. cbn [fst snd]. rewrite app_nth2 by lia.
  now rewrite Nat.sub_diag.
Qed.

Lemma valid_alloc (s : Store) (a : list number) (r : Ref) :
  valid s r -> valid (fst (alloc s a)) r.
Proof. unfold valid, alloc. cbn [fst]. rewrite length_app. cbn. lia. Qed.

Lemma valid_alloc_new (s : Store) (a : list number) :
  valid (fst (alloc s a)) (snd (alloc s a)).
Proof. unfold valid, alloc. cbn [fst snd]. rewrite length_app. cbn. lia. Qed.

Lemma alloc_new_apart (s : Store) (a : list number) (r : Ref) :
  valid s r -> r <> snd (alloc s a).
Proof. unfold valid, alloc. cbn [snd]. lia. Qed.

Lemma length_write (s : Store) : forall r a, List.length (write s r a) = List.length s.
Proof.
  induction s as [| x s IH]; intros [| r] a; cbn [write List.length]; try reflexivity.
  now rewrite IH.
Qed.

Lemma read_write (s : Store) : forall r a, valid s r -> read (write s r a) r = a.
Proof.
  unfold valid, read.
  induction s as [| x s IH]; intros [| r] a H; cbn [List.length] in H; cbn [write nth];
    try lia; [reflexivity |].
  apply IH. lia.
Qed.

Lemma read_write_apart (s : Store) : forall r r' a,
  r <> r' -> read (write s r a) r' = read s r'.
Proof.
  unfold read.
  induction s as [| x s IH]; intros [| r] [| r'] a H; cbn [write nth];
    try reflexivity; try congruence.
  apply IH. congruence.
Qed.

(** The array [getBreakpoints] returns holds what [getBreakpoints] is on
    the values, and the arrays that were there are as they were. *)
Lemma getBreakpoints_read (s : Store) (w : option number) (b : Ref) (l : Layout) :
  valid s b ->
  read (fst (Shared.getBreakpoints s w (Some b) l)) (snd (Shared.getBreakpoints s w (Some b) l))
  = ImagesOptimization.getBreakpoints w (Some (read s b)) l
  /\ valid (fst (Shared.getBreakpoints s w (Some b) l))
       (snd (Shared.getBreakpoints s w (Some b) l))
  /\ (List.length s <= List.length (fst (Shared.getBreakpoints s w (Some b) l)))%nat
  /\ forall r, valid s r -> read (fst (Shared.getBreakpoints s w (Some b) l)) r = read s r.
Proof.
  intros Hb. unfold Shared.getBreakpoints, ImagesOptimization.getBreakpoints.
  assert (A : forall a,
            read (fst (alloc s a)) (snd (alloc s a)) = a
            /\ valid (fst (alloc s a)) (snd (alloc s a))
            /\ (List.length s <= List.length (fst (alloc s a)))%nat
            /\ forall r, valid s r -> read (fst (alloc s a)) r = read s r).
  { intros a. split; [apply read_alloc_new |]. split; [apply valid_alloc_new |].
    split; [unfold alloc; cbn [fst]; rewrite length_app; lia |].
    intros r Hr. now apply read_alloc. }
  destruct l; cbn [fst snd];
    try (split; [reflexivity | split; [exact Hb | split; [lia | tauto]]]).
  all: destruct w as [wv |]; [| apply A].
  all: destruct (truthy wv); cbn [negb]; [| apply A].
  1: apply A.
  destruct (alloc s (filter (fun c => (c <? wv * 2)%float) (read s b))) as [s1 below] eqn:E.
  pose proof (read_alloc_new s (filter (fun c => (c <? wv * 2)%float) (read s b))) as R.
  rewrite E in R. cbn [fst snd] in R. rewrite R.
  destruct (A (filter (fun c => (c <? wv * 2)%float) (read s b))) as [_ [_ [L K]]].
  rewrite E in L, K. cbn [fst] in L, K.
  split; [apply read_alloc_new |]. split; [apply valid_alloc_new |]. split.
  - unfold alloc. cbn [fst]. rewrite length_app. lia.
  - intros r Hr. rewrite read_alloc; [now apply K |]. unfold valid in *. lia.
Qed.

(** One call: the result is that of the resolver on the values, and no
    array of the store has changed. *)
Lemma getImagesOptimized_call (s : Store) (image : Image) (props : ImageProps)
    (widths : option Ref) (transform : option ImagesOptimizer) :
  valid s config_deviceSizes ->
  (forall r, widths = Some r -> valid s r) ->
  snd (Shared.getImagesOptimized s image props widths transform)
  = ImagesOptimization.getImagesOptimized image
      (with_widths props (Some (candidates_of s widths))) transform
  /\ (List.length s <= List.length (fst (Shared.getImagesOptimized s image props widths transform)))%nat
  /\ forall r, valid s r ->
       read (fst (Shared.getImagesOptimized s image props widths transform)) r = read s r.
Proof.
  intros Hc Hw. unfold Shared.getImagesOptimized, candidates_of.
  set (b := match widths with Some r => r | None => config_deviceSizes end).
  assert (Hb : valid s b) by (unfold b; destruct widths as [r |]; [now apply Hw | exact Hc]).
  set (d := dimensions image props).
  destruct (getBreakpoints_read s (dim_width d) b (layout_of props) Hb) as [R [V [L K]]].
  destruct (Shared.getBreakpoints s (dim_width d) (Some b) (layout_of props)) as [s1 bp].
  cbn [fst snd] in R, V, L, K.
  pose proof (read_alloc_new s1 (Set_values (read s1 bp))) as R2.
  pose proof (valid_alloc_new s1 (Set_values (read s1 bp))) as V2.
  assert (K2 : forall r, valid s1 r -> read (fst (alloc s1 (Set_values (read s1 bp)))) r = read s1 r)
    by (intros r Hr; now apply read_alloc).
  assert (N2 : forall r, valid s1 r -> r <> snd (alloc s1 (Set_values (read s1 bp))))
    by (intros r Hr; now apply alloc_new_apart).
  assert (L2 : (List.length s1 <= List.length (fst (alloc s1 (Set_values (read s1 bp)))))%nat)
    by (unfold alloc; cbn [fst]; rewrite length_app; lia).
  destruct (alloc s1 (Set_values (read s1 bp))) as [s2 fresh].
  cbn [fst snd] in R2, V2, K2, N2, L2. cbn [fst snd].
  rewrite read_write by exact V2. rewrite R2, R.
  split; [| split].
  - unfold ImagesOptimization.getImagesOptimized, resolvedBreakpoints.
    destruct props; reflexivity.
  - rewrite length_write. lia.
  - intros r Hr. assert (Hr1 : valid s1 r) by (unfold valid in *; lia).
    rewrite read_write_apart by (intros E; exact (N2 r Hr1 (eq_sym E))).
    rewrite K2 by exact Hr1. now apply K.
Qed.

(** C9. [getImagesOptimized] is deterministic. A call writes to no array
    that was there before it, neither to [config.deviceSizes] nor to the
    [widths] of the caller: it sorts a copy. So a second call with the same
    image, the same hints and the same transform, made in the store the
    first call has left, returns what the first returned: the same
    diagnostics, the same [src] and the same attributes, [srcset], [sizes]
    and [style] included. So does a call in any store in which the array
    the candidates are taken from holds the same values. What a call
    returns is what the resolver returns on the values of the arrays. *)
Theorem getImagesOptimized_deterministic (s : Store) (image : Image) (props : ImageProps)
    (widths : option Ref) (transform : option ImagesOptimizer) :
  valid s config_deviceSizes ->
  (forall r, widths = Some r -> valid s r) ->
  let first := Shared.getImagesOptimized s image props widths transform in
  let second := Shared.getImagesOptimized (fst first) image props widths transform in
  snd second = snd first
  /\ (forall r, valid s r -> read (fst first) r = read s r /\ read (fst second) r = read s r)
  /\ (forall s',
        valid s' config_deviceSizes -> (forall r, widths = Some r -> valid s' r) ->
        candidates_of s' widths = candidates_of s widths ->
        snd (Shared.getImagesOptimized s' image props widths transform) = snd first)
  /\ snd first
     = ImagesOptimization.getImagesOptimized image
         (with_widths props (Some (candidates_of s widths))) transform.
Proof.
  intros Hc Hw. cbn zeta.
  destruct (getImagesOptimized_call s image props widths transform Hc Hw) as [E [L K]].
  set (s1 := fst (Shared.getImagesOptimized s image props widths transform)) in *.
  assert (Hc1 : valid s1 config_deviceSizes) by (unfold valid in *; lia).
  assert (Hw1 : forall r, widths = Some r -> valid s1 r)
    by (intros r Hr; specialize (Hw r Hr); unfold valid in *; lia).
  assert (C1 : candidates_of s1 widths = candidates_of s widths).
  { unfold candidates_of. destruct widths as [r |]; apply K; [now apply Hw | exact Hc]. }
  destruct (getImagesOptimized_call s1 image props widths transform Hc1 Hw1) as [E1 [L1 K1]].
  split; [| split; [| split]].
  - now rewrite E1, E, C1.
  - intros r Hr. split; [now apply K |].
    rewrite K1 by (unfold valid in *; lia). now apply K.
  - intros s' Hc' Hw' C'.
    destruct (getImagesOptimized_call s' image props widths transform Hc' Hw') as [E' _].
    now rewrite E', E, C'.
  - exact E.
Qed.

(** Two calls with the array of the caller, for an image of full width:
    the array is as it was, and the second call has the [srcset] of the
    first. *)
Lemma getImagesOptimized_deterministic_witness :
  valid caller config_deviceSizes
  /\ valid caller 1
  /\ srcset_of
       (snd (Shared.getImagesOptimized caller (ImageUrl "a.png")
               (number_hints DimUndefined DimUndefined DimUndefined fullWidth) (Some 1%nat)
               (Some (one_for_each "a.png"))))
     = Some (AttrString "a.png 400w, a.png 1200w")
  /\ read
       (fst (Shared.getImagesOptimized caller (ImageUrl "a.png")
               (number_hints DimUndefined DimUndefined DimUndefined fullWidth) (Some 1%nat)
               (Some (one_for_each "a.png")))) 1
     = [1200; 400; 1200]%float
  /\ snd (Shared.getImagesOptimized
            (fst (Shared.getImagesOptimized caller (ImageUrl "a.png")
                    (number_hints DimUndefined DimUndefined DimUndefined fullWidth) (Some 1%nat)
                    (Some (one_for_each "a.png"))))
            (ImageUrl "a.png")
            (number_hints DimUndefined DimUndefined DimUndefined fullWidth) (Some 1%nat)
            (Some (one_for_each "a.png")))
     = snd (Shared.getImagesOptimized caller (ImageUrl "a.png")
              (number_hints DimUndefined DimUndefined DimUndefined fullWidth) (Some 1%nat)
              (Some (one_for_each "a.png"))).
Proof.
  assert (H1 : valid caller config_deviceSizes) by (unfold valid, caller, config_deviceSizes; cbn [List.length]; lia).
  assert (H2 : valid caller 1) by (unfold valid, caller, config_deviceSizes; cbn [List.length]; lia).
  assert (Hw : forall r, Some 1%nat = Some r -> valid caller r) by (now intros r [= <-]).
  destruct (getImagesOptimized_deterministic caller (ImageUrl "a.png")
              (number_hints DimUndefined DimUndefined DimUndefined fullWidth) (Some 1%nat)
              (Some (one_for_each "a.png")) H1 Hw) as [D [K _]].
  exact (conj H1 (conj H2 (conj eq_refl (conj (proj1 (K 1%nat H2)) D)))).
Defined.

End Determinism.

(** ** Aspect ratios *)

Lemma separator_not_digit (sep : ascii) : is_separator sep = true -> is_digit sep = false.
Proof.
  unfold is_separator. intros H. apply orb_true_iff in H as [H | H];
    apply Ascii.eqb_eq in H; subst; reflexivity.
Qed.

Lemma separator_not_space (sep : ascii) : is_separator sep = true -> is_space sep = false.
Proof.
  unfold is_separator. intros H. apply orb_true_iff in H as [H | H];
    apply Ascii.eqb_eq in H; subst; reflexivity.
Qed.

Lemma rmatch_cat {A : Type} (r1 r2 : regex) (s : string) (caps : list string)
    (k : string -> list string -> option A) :
  rmatch (Cat r1 r2) s caps k = rmatch r1 s caps (fun s' caps' => rmatch r2 s' caps' k).
Proof. reflexivity. Qed.

Lemma rmatch_star {A : Type} (p : ascii -> bool) (s : string) (caps : list string)
    (k : string -> list string -> option A) :
  rmatch (Star p) s caps k = star_k p s (fun s' => k s' caps).
Proof. reflexivity. Qed.

Lemma rmatch_class {A : Type} (p : ascii -> bool) (c : ascii) (s : string) (caps : list string)
    (k : string -> list string -> option A) :
  rmatch (Class p) (String c s) caps k = if p c then k s caps else None.
Proof. reflexivity. Qed.

(** The pattern on [num sep den]: the whole string, and the two numbers. *)
Lemma ratio_pattern_match (num den : string) (sep : ascii) :
  digits num = true -> digits den = true -> is_separator sep = true ->
  String_match ratio_pattern (num ++ String sep den)
  = Some [num ++ String sep den; num; den].
Proof.
  intros Hn Hd Hs.
  unfold digits in Hn, Hd.
  apply andb_true_iff in Hn as [Hn1 Hn2]. pose proof Hd as Hd0.
  apply andb_true_iff in Hd as [Hd1 Hd2].
  assert (E : rmatch ratio_pattern (num ++ String sep den) []
                (fun rest caps => Some (consumed (num ++ String sep den) rest :: caps))
              = Some [num ++ String sep den; num; den]).
  { unfold ratio_pattern. rewrite rmatch_cat.
    apply group_plus_run; [exact Hn1 | exact Hn2 | |].
    - cbn. now rewrite separator_not_digit.
    - rewrite rmatch_cat, rmatch_star. cbn [star_k]. rewrite (separator_not_space sep Hs).
      rewrite rmatch_cat, rmatch_class.
      change (is_separator sep) with (Ascii.eqb sep "/" || Ascii.eqb sep ":") in Hs.
      rewrite Hs. rewrite rmatch_cat, rmatch_star.
      apply (star_k_run is_space "" den); [reflexivity | now apply digits_stop_space |].
      rewrite <- (append_empty_r den) at 1.
      apply group_plus_run; [exact Hd1 | exact Hd2 | reflexivity |].
      rewrite consumed_all. reflexivity. }
  destruct num as [| c num]; [discriminate |].
  cbn [append String_match]. cbn [append] in E. rewrite E. reflexivity.
Qed.




(** ** Related posts *)

Section Related.
Import Blog BlogSpec.
Local Open Scope Z_scope.

Lemma scores_sorted (originalPost : Post) (l : list Scored) :
  (forall s, In s l -> score s = related_score originalPost (post s)) ->
  StronglySorted (fun a b => score b <= score a) l ->
  StronglySorted
    (fun a b => related_score originalPost b <= related_score originalPost a)
    (map post l).
Proof.
  intros Hin Hs. induction Hs as [| s l Hs IH Hx]; cbn [map]; constructor.
  - apply IH. intros z Hz. apply Hin. now right.
  - rewrite Forall_forall in *. intros p Hp. apply in_map_iff in Hp.
    destruct Hp as [z [<- Hz]]. specialize (Hx z Hz).
    rewrite <- (Hin s (or_introl eq_refl)), <- (Hin z (or_intror Hz)). exact Hx.
Qed.

(** C10, as stated, fails at [maxResults = 1.5]: the loop pushes a post as
    long as the number of posts it has is below [maxResults], at 0 and at 1,
    and returns two posts, which is more than 1.5. [maxResults] is a number;
    nothing makes it whole. *)
Lemma getRelatedPosts_above_maxResults :
  (0 <=? 1.5)%float = true
  /\ getRelatedPosts collection intro (Some 1.5%float) = [deep; types]
  /\ (float_of_Z (Z.of_nat (List.length (getRelatedPosts collection intro (Some 1.5%float))))
      <=? 1.5)%float = false.
Proof. repeat split; vm_compute; reflexivity. Qed.

(** C10 (amended). For every collection and original post: when
    [maxResults] is a whole number [n >= 0], [getRelatedPosts] returns at
    most [n] posts; for every [maxResults], whole or not, it returns no post
    or the number of its posts less one is below [maxResults] (fewer than
    [maxResults + 1] posts); none of the posts has the slug of the original
    post; they are in an order of non-increasing score; and the score of a
    post is 5 when its category slug equals that of the original post, plus
    1 for each of its tags whose slug is a tag slug of the original post. *)
Theorem getRelatedPosts_spec (allPosts : list Post) (originalPost : Post) (maxResults : number) :
  let result := getRelatedPosts allPosts originalPost (Some maxResults) in
  (forall n : Z, 0 <= n -> maxResults = float_of_Z n -> Z.of_nat (List.length result) <= n)
  /\ (result = []
      \/ (float_of_Z (Z.of_nat (List.length result) - 1) <? maxResults)%float = true)
  /\ Forall (fun p => post_slug p <> post_slug originalPost) result
  /\ StronglySorted
       (fun a b => related_score originalPost b <= related_score originalPost a) result
  /\ (forall p, score_of originalPost p = related_score originalPost p).
Proof.
  cbn zeta. unfold getRelatedPosts.
  set (sorted := sorted_by_score (postsWithScores allPosts originalPost)).
  destruct (select_count sorted maxResults) as [k [E [Ek [L [B St]]]]].
  rewrite Ek. rewrite E.
  assert (Hin : forall s, In s sorted ->
            post_slug (post s) <> post_slug originalPost
            /\ score s = related_score originalPost (post s)).
  { intros s Hs. unfold sorted, sorted_by_score in Hs.
    apply (proj1 (insertion_sort_In _ s _)) in Hs.
    rewrite postsWithScores_spec in Hs. apply in_map_iff in Hs.
    destruct Hs as [p [<- Hp]]. apply filter_In in Hp. destruct Hp as [_ Hp].
    cbn [post score]. split.
    - apply negb_true_iff in Hp. now apply String.eqb_neq in Hp.
    - apply score_of_related_score. }
  split; [| split; [| split; [| split]]].
  - intros n Hn ->.
    destruct (Nat.le_gt_cases k (Z.to_nat n)) as [H | H]; [lia |].
    specialize (B (Z.to_nat n) H). rewrite Z2Nat.id in B by lia.
    rewrite ltb_irrefl in B. discriminate.
  - destruct k as [| k]; [now left | right].
    replace (Z.of_nat (S k) - 1) with (Z.of_nat k) by lia. apply B. lia.
  - rewrite Forall_forall. intros p Hp. apply firstn_In in Hp.
    apply in_map_iff in Hp. destruct Hp as [s [<- Hs]]. now apply Hin.
  - apply StronglySorted_firstn. apply scores_sorted.
    + intros z Hz. now apply Hin.
    + apply sorted_by_score_sorted.
  - intros p. apply score_of_related_score.
Qed.

(** Two related posts out of the sample collection. *)
Lemma getRelatedPosts_spec_witness :
  getRelatedPosts collection intro (Some 2%float) = [deep; types]
  /\ Z.of_nat (List.length (getRelatedPosts collection intro (Some 2%float))) <= 2
  /\ related_score intro deep = 7.
Proof.
  destruct (getRelatedPosts_spec collection intro 2%float) as [L [_ [_ [_ Sc]]]].
  refine (conj eq_refl (conj (L 2 _ eq_refl) _)); [lia |].
  rewrite <- Sc. reflexivity.
Defined.

End Related.

(** * Further properties *)

Import Wording.

(** ** The final breakpoints keep every value *)

(** Two doubles that compare equal are the same double, or two zeros. *)
Lemma SFcompare_Eq_inv (a b : spec_float) :
  SFcompare a b = Some Eq ->
  a = b \/ exists s s', a = S754_zero s /\ b = S754_zero s'.
Proof.
  destruct a as [s | s | | s m e], b as [s' | s' | | s' m' e']; cbn;
    try discriminate.
  - intros _. right. now exists s, s'.
  - destruct s'; discriminate.
  - destruct s'; discriminate.
  - destruct s; discriminate.
  - destruct s, s'; try discriminate; now left.
  - destruct s; discriminate.
  - destruct s; discriminate.
  - destruct s'; discriminate.
  - destruct s, s'; try discriminate;
      destruct (Z.compare_spec e e') as [-> | |]; try discriminate; intros [= H].
    + apply (f_equal CompOpp) in H. rewrite CompOpp_involutive in H. cbn in H.
      apply Pos.compare_eq in H. subst. now left.
    + apply Pos.compare_eq in H. subst. now left.
Qed.

Lemma canonical_idem (x : float) : canonical (canonical x) = canonical x.
Proof.
  unfold canonical. destruct (PrimFloat.is_zero x) eqn:E; [reflexivity | now rewrite E].
Qed.

(** On the values a [Set] stores, SameValueZero is equality. *)
Lemma sameValueZero_stored (a b : float) :
  canonical a = a -> canonical b = b -> sameValueZero a b = true -> a = b.
Proof.
  intros Ha Hb H. unfold sameValueZero in H. apply orb_true_iff in H as [H | H].
  - apply andb_true_iff in H as [H1 H2].
    apply is_nan_spec in H1. apply is_nan_spec in H2.
    apply Prim2SF_inj. congruence.
  - rewrite eqb_spec in H. unfold SFeqb in H.
    destruct (SFcompare (Prim2SF a) (Prim2SF b)) as [[| |] |] eqn:E; try discriminate.
    apply SFcompare_Eq_inv in E. destruct E as [E | [s [s' [E1 E2]]]].
    + now apply Prim2SF_inj.
    + assert (Za : PrimFloat.is_zero a = true).
      { unfold PrimFloat.is_zero. rewrite eqb_spec, E1. reflexivity. }
      assert (Zb : PrimFloat.is_zero b = true).
      { unfold PrimFloat.is_zero. rewrite eqb_spec, E2. reflexivity. }
      unfold canonical in Ha, Hb. rewrite Za in Ha. rewrite Zb in Hb. congruence.
Qed.

Lemma fold_Set_add_keeps (l : list float) : forall seen x,
  In x seen -> In x (fold_left Set_add l seen).
Proof.
  intros seen x H. destruct (fold_Set_add_prefix l seen) as [more E].
  rewrite E. apply in_or_app. now left.
Qed.

Lemma fold_Set_add_stores (l : list float) : forall seen y,
  Forall (fun z => canonical z = z) seen ->
  In y l -> In (canonical y) (fold_left Set_add l seen).
Proof.
  induction l as [| x l IH]; intros seen y Hs Hy; [destruct Hy |].
  cbn [fold_left].
  assert (Hs' : Forall (fun z => canonical z = z) (Set_add seen x)).
  { rewrite Set_add_spec. destruct (existsb (sameValueZero (canonical x)) seen); [exact Hs |].
    apply Forall_app. split; [exact Hs |]. constructor; [apply canonical_idem | constructor]. }
  destruct Hy as [<- | Hy]; [| now apply IH].
  apply fold_Set_add_keeps. rewrite Set_add_spec.
  destruct (existsb (sameValueZero (canonical x)) seen) eqn:E.
  - apply existsb_exists in E. destruct E as [z [Hz E]].
    rewrite Forall_forall in Hs.
    apply sameValueZero_stored in E; [| apply canonical_idem | now apply Hs].
    now rewrite E.
  - apply in_or_app. right. now left.
Qed.

Lemma final_stores (y : number) (l : list number) :
  In y l -> In (canonical y) (final l).
Proof.
  intros H. unfold final, Array_sort.
  apply (proj2 (insertion_sort_In _ _ _)).
  unfold Set_values. now apply fold_Set_add_stores.
Qed.

(** X1. The breakpoints [getImagesOptimized] hands to the transform are the
    values of the breakpoints [getBreakpoints] selected, no more and no
    fewer: a value is in the final sequence exactly when it is a selected
    breakpoint, [-0] read as [0]. Removing duplicates and sorting lose no
    width and invent none, [NaN] included. *)
Theorem resolvedBreakpoints_values (image : Image) (props : ImageProps) (z : number) :
  In z (resolvedBreakpoints image props)
  <-> exists y,
        In y (getBreakpoints (dim_width (dimensions image props))
                (Some (match widths props with Some l => l | None => deviceSizes end))
                (layout_of props))
        /\ z = canonical y.
Proof.
  unfold resolvedBreakpoints. cbn zeta.
  set (selected := getBreakpoints _ _ _).
  change (Array_sort (fun a b => (a - b)%float) (Set_values selected)) with (final selected).
  split.
  - apply final_In.
  - intros [y [Hy ->]]. now apply final_stores.
Qed.

(** ** The style object *)

Lemma obj_set_keys {V : Type} (k : string) (v : V) (o : list (string * V)) :
  map fst (obj_set k v o)
  = if existsb (String.eqb k) (map fst o) then map fst o else (map fst o ++ [k])%list.
Proof.
  induction o as [| [k' v'] o IH]; cbn; [reflexivity |].
  destruct (String.eqb_spec k k') as [-> | N]; cbn; [reflexivity |].
  rewrite IH. now destruct (existsb (String.eqb k) (map fst o)).
Qed.

Lemma obj_set_NoDup {V : Type} (k : string) (v : V) (o : list (string * V)) :
  NoDup (map fst o) -> NoDup (map fst (obj_set k v o)).
Proof.
  intros H. rewrite obj_set_keys.
  destruct (existsb (String.eqb k) (map fst o)) eqn:E; [exact H |].
  apply NoDup_app; [exact H | repeat constructor; intros [] |].
  intros x Hx [Ex | []].
  assert (existsb (String.eqb k) (map fst o) = true); [| congruence].
  apply existsb_exists. exists x. split; [exact Hx | subst; apply String.eqb_refl].
Qed.

Lemma obj_set_Forall {V : Type} (P : string * V -> Prop) (k : string) (v : V)
    (o : list (string * V)) :
  P (k, v) -> Forall P o -> Forall P (obj_set k v o).
Proof.
  intros Hk Ho. induction Ho as [| [k' v'] o Hx Ho IH]; cbn.
  - repeat constructor. exact Hk.
  - destruct (String.eqb k k'); constructor; assumption.
Qed.

Lemma obj_assign_wellformed {V : Type} (P : string * V -> Prop) (entries : list (string * V)) :
  forall o : list (string * V),
  Forall P entries -> Forall P o -> NoDup (map fst o) ->
  Forall P (obj_assign o entries) /\ NoDup (map fst (obj_assign o entries)).
Proof.
  unfold obj_assign.
  induction entries as [| [k v] entries IH]; intros o He Ho Hn; cbn [fold_left].
  - now split.
  - inversion He as [| ? ? Hk He']; subst. apply IH.
    + exact He'.
    + now apply obj_set_Forall.
    + now apply obj_set_NoDup.
Qed.

Lemma truthy_entries_Forall (entries : list (string * option string)) :
  Forall (fun kv => truthy_string (snd kv) = true) (truthy_entries entries).
Proof.
  induction entries as [| [k [v |]] entries IH]; cbn; [constructor | | exact IH].
  destruct (truthy_string v) eqn:E; [constructor; assumption | exact IH].
Qed.

(** X2. For every layout and every value of the other arguments, the
    declarations [getStyle] joins name each CSS property once, with a value
    that is not empty: a property pushed twice (as [object-position] for
    [fixed] and [object-fit] for [contained] are) is declared once, and an
    undefined value declares nothing. The string is these declarations, each
    as ["<property>: <value>;"], joined by one space. *)
Theorem getStyle_declarations (w h r : option number) (l : option Layout)
    (objectFit objectPosition background : option string) :
  NoDup (map fst (styles w h r l objectFit objectPosition background))
  /\ Forall (fun kv => truthy_string (snd kv) = true)
       (styles w h r l objectFit objectPosition background)
  /\ getStyle w h r l objectFit objectPosition background
     = join " "
         (map (fun kv => fst kv ++ ": " ++ snd kv ++ ";")
            (styles w h r l objectFit objectPosition background)).
Proof.
  destruct (obj_assign_wellformed (fun kv : string * string => truthy_string (snd kv) = true)
              (truthy_entries (styleEntries w h r l objectFit objectPosition background)) [])
    as [F N]; [apply truthy_entries_Forall | constructor | constructor |].
  split; [exact N | split; [exact F | reflexivity]].
Qed.

(** ** The diagnostics of the resolver *)

Lemma or_undefined_inv (x y : number) : or_undefined x = Some y -> x = y /\ truthy y = true.
Proof.
  unfold or_undefined. destruct (truthy x) eqn:E; [| discriminate].
  intros [= <-]. now split.
Qed.

Lemma coerce_truthy (d : Dim) (x : number) : coerce d = Some x -> truthy x = true.
Proof.
  unfold coerce. destruct (truthy_Dim d); [| discriminate].
  intros H. now apply or_undefined_inv in H.
Qed.

Lemma defined_truthy_coerce (d : Dim) : defined_truthy (coerce d) = coerce d.
Proof.
  destruct (coerce d) as [x |] eqn:E; [| reflexivity].
  cbn. apply or_undefined_truthy. now apply coerce_truthy in E.
Qed.

(** X3. What the resolver reports to [console.error]: nothing for the layout
    [fullWidth], whatever the hints; for every other layout it reports
    exactly when the width or the height is still undefined after the
    aspect ratio was applied. When it reports nothing for such a layout,
    the width, the height and the aspect ratio are all defined. *)
Theorem diagnostics_of_dimensions (image : Image) (props : ImageProps) :
  let d := dimensions image props in
  (if Layout_eqb (layout_of props) fullWidth then dim_log d = []
   else (dim_log d = [] <-> dim_width d <> None /\ dim_height d <> None))
  /\ ((dim_width d <> None /\ dim_height d <> None) -> dim_ratio d <> None).
Proof.
  cbn zeta. unfold dimensions, coerced.
  destruct (intrinsic image (width props) (height props)) as [w h]. cbn [fst snd].
  unfold normalize. rewrite !defined_truthy_coerce.
  destruct (defined_truthy (parseAspectRatio (aspectRatio props))) as [ar |] eqn:Er;
    destruct (coerce w) as [wv |] eqn:Ew; destruct (coerce h) as [hv |] eqn:Eh;
    cbn [dim_log dim_width dim_height dim_ratio];
    destruct (Layout_eqb (layout_of props) fullWidth) eqn:El;
    (split; [try reflexivity; try (split; [intros _; split; discriminate | reflexivity]);
             try (split; [discriminate | intros [A B]; congruence])
            | try (intros [A B]; congruence); try discriminate]).
  all: try (intros _; destruct (parseAspectRatio (aspectRatio props)); [discriminate | discriminate]).
Qed.

(** ** The style of each layout *)

Lemma last_declared_read (k : string) (entries : list (string * option string)) :
  forall acc,
  match obj_get k (rev (truthy_entries entries)) with
  | Some v => Some v
  | None => acc
  end = last_declared k entries acc.
Proof.
  induction entries as [| [k' v] entries IH]; intros acc; [reflexivity |].
  cbn [last_declared]. rewrite <- IH.
  destruct v as [s |]; cbn [truthy_entries declared];
    [| now destruct (String.eqb k k'), (obj_get k (rev (truthy_entries entries)))].
  destruct (truthy_string s); cbn [rev];
    [| now destruct (String.eqb k k'), (obj_get k (rev (truthy_entries entries)))].
  rewrite obj_get_app. cbn [obj_get].
  now destruct (obj_get k (rev (truthy_entries entries))), (String.eqb k k').
Qed.

Lemma styles_last_declared (w h r : option number) (l : option Layout)
    (fit pos bg : option string) (k : string) :
  obj_get k (styles w h r l fit pos bg)
  = last_declared k (styleEntries w h r l fit pos bg) None.
Proof.
  unfold styles. rewrite obj_get_assign, <- last_declared_read. cbn [obj_get].
  now destruct (obj_get k (rev (truthy_entries (styleEntries w h r l fit pos bg)))).
Qed.

Lemma last_declared_key (k : string) (entries : list (string * option string)) :
  forall acc,
  last_declared k entries acc <> acc -> In k (map fst entries).
Proof.
  induction entries as [| [k' v] entries IH]; intros acc H; [now destruct H |].
  cbn [last_declared] in H. cbn [map fst In].
  destruct (String.eqb_spec k k') as [-> | N]; [now left | right].
  now apply (IH acc).
Qed.

Ltac by_cases :=
  repeat match goal with
         | |- context [match ?x with _ => _ end] => is_var x; destruct x
         end;
  reflexivity.

(** X26. What [getStyle] declares for each layout, for every value of its
    other arguments and with the later of two entries for one property
    winning: [object-fit] is [contain] for [contained] whatever was asked
    for, and otherwise the value asked for or [cover]; [object-position]
    is [top left] for [fixed], otherwise the value asked for or [center];
    [width] is the width in pixels for [fixed], [100%] for [constrained],
    [fullWidth] and [responsive], and absent for [contained] and [cover];
    [height] is the height in pixels for [fixed] and [fullWidth], [auto]
    for [responsive] and absent otherwise; [max-width] and [max-height]
    are the pixels for [constrained] and [100%] for [contained] and
    [cover]; [aspect-ratio] is declared for every layout but [fixed] and
    [cover] when the ratio is neither 0 nor NaN; a background that is a
    URL gives [background-image] and no [background]; an empty value
    declares nothing; and no other property is ever declared. *)
Theorem getStyle_by_layout (w h r : option number) (l : Layout)
    (fit pos bg : option string) :
  let st := styles w h r (Some l) fit pos bg in
  obj_get "object-fit" st
  = match l with
    | contained => Some "contain"
    | _ => declared (Some (or_default fit "cover"))
    end
  /\ obj_get "object-position" st
     = match l with
       | fixed => Some "top left"
       | _ => declared (Some (or_default pos "center"))
       end
  /\ obj_get "width" st
     = match l with
       | fixed => declared (pixelate w)
       | constrained | fullWidth | responsive => Some "100%"
       | contained | cover => None
       end
  /\ obj_get "height" st
     = match l with
       | fixed | fullWidth => declared (pixelate h)
       | responsive => Some "auto"
       | constrained | contained | cover => None
       end
  /\ obj_get "max-width" st
     = match l with
       | constrained => declared (pixelate w)
       | contained | cover => Some "100%"
       | fixed | fullWidth | responsive => None
       end
  /\ obj_get "max-height" st
     = match l with
       | constrained => declared (pixelate h)
       | contained | cover => Some "100%"
       | fixed | fullWidth | responsive => None
       end
  /\ obj_get "aspect-ratio" st
     = match l with
       | fixed | cover => None
       | constrained | fullWidth | responsive | contained => declared (ratio_string r)
       end
  /\ obj_get "background" st = (if is_url bg then None else declared bg)
  /\ obj_get "background-image" st
     = (if is_url bg then Some ("url(" ++ or_default bg "" ++ ")") else None)
  /\ forall k, obj_get k st <> None -> In k style_properties.
Proof.
  cbn zeta. rewrite !styles_last_declared.
  assert (K : forall k, obj_get k (styles w h r (Some l) fit pos bg) <> None ->
                        In k style_properties).
  { intros k. rewrite styles_last_declared. intros H. apply last_declared_key in H.
    unfold styleEntries in H. destruct l, (is_url bg); cbn in H; unfold style_properties;
      cbn; tauto. }
  unfold styleEntries.
  set (pw := pixelate w). set (ph := pixelate h). set (rs := ratio_string r).
  clearbody pw ph rs.
  destruct (is_url bg) eqn:Eb.
  - destruct bg as [b |]; [| discriminate]. clear Eb.
    repeat (split; [destruct l; cbv -[append]; by_cases |]). exact K.
  - clear Eb.
    repeat (split; [destruct l; cbv -[append]; by_cases |]). exact K.
Qed.

(** ** Attributes passed through *)

Lemma obj_get_NoDup {V : Type} (k : string) (v : V) (o : list (string * V)) :
  NoDup (map fst o) -> In (k, v) o -> obj_get k o = Some v.
Proof.
  induction o as [| [k' v'] o IH]; cbn; [intros _ [] |].
  intros Hn [E | Hin].
  - injection E as -> ->. now rewrite String.eqb_refl.
  - inversion Hn as [| ? ? Hnot Hn']; subst.
    destruct (String.eqb_spec k k') as [-> | N].
    + exfalso. apply Hnot. apply in_map_iff. now exists (k', v).
    + now apply IH.
Qed.

Lemma keys_filter {V : Type} (keep : string -> bool) (o : list (string * V)) :
  map fst (filter (fun kv => keep (fst kv)) o) = filter keep (map fst o).
Proof.
  induction o as [| [k v] o IH]; cbn; [reflexivity |].
  destruct (keep k); cbn; now rewrite IH.
Qed.

Lemma obj_get_dropped {V : Type} (k : string) (keep : string -> bool) (o : list (string * V)) :
  keep k = false ->
  obj_get k (filter (fun kv => keep (fst kv)) o) = None.
Proof.
  intros Hk. induction o as [| [k' v'] o IH]; cbn; [reflexivity |].
  destruct (keep k') eqn:E; cbn; [| exact IH].
  destruct (String.eqb_spec k k'); [congruence | exact IH].
Qed.

(** X4. Every attribute of the hints that the resolver does not take for
    itself ([alt], [loading], [class], a [srcset], ...) is in the result
    with the value the caller gave it, whatever the image, the other hints
    and the entries of the transform: the attributes passed through are
    merged last. *)
Theorem attributes_passed_through (image : Image) (props : ImageProps)
    (entries : list SrcEntry) (k : string) (v : Attr) :
  NoDup (map fst (others props)) ->
  In (k, v) (others props) ->
  existsb (String.eqb k) destructured = false ->
  obj_get k (attributes (assemble image props entries)) = Some v.
Proof.
  intros Hn Hin Hk. unfold assemble. cbn [attributes].
  rewrite obj_get_assign.
  rewrite (obj_get_NoDup k v); [reflexivity | |].
  - rewrite map_rev. apply NoDup_rev. unfold rest_of.
    rewrite (keys_filter (fun k' => negb (existsb (String.eqb k') destructured))).
    now apply NoDup_filter.
  - apply -> in_rev. unfold rest_of. apply filter_In. split; [exact Hin |].
    cbn [fst]. now rewrite Hk.
Qed.

(** ["alt"] and ["loading"] next to a width. *)
Lemma attributes_passed_through_witness :
  obj_get "loading"
    (attributes
       (assemble (ImageUrl "a.png")
          {| width := DimNumber 800; height := DimUndefined; sizes := None;
             aspectRatio := DimUndefined; widths := None; layout := None; style := None;
             others := [("alt", AttrString "A"); ("loading", AttrString "lazy")] |}
          []))
  = Some (AttrString "lazy").
Proof.
  apply attributes_passed_through.
  - repeat constructor; cbn; intuition discriminate.
  - cbn. tauto.
  - reflexivity.
Defined.

(** X5. The [sizes] attribute is computed from the width hint as it is
    before the aspect ratio is applied. For an image given by its URL
    whose hints have no usable width and no [sizes], the result has no
    [sizes], for every layout, also when the resolver derives a width from
    the height and the aspect ratio; and no attribute passed through can
    set it. *)
Theorem sizes_from_width_hint (url : string) (props : ImageProps) (entries : list SrcEntry) :
  coerce (width props) = None ->
  (sizes props = None \/ sizes props = Some "") ->
  obj_get "sizes" (attributes (assemble (ImageUrl url) props entries)) = Some AttrUndefined.
Proof.
  intros Hw Hs. unfold assemble. cbn [attributes].
  rewrite obj_get_assign.
  rewrite obj_get_rev_none
    by (unfold rest_of;
        apply (obj_get_dropped "sizes" (fun k => negb (existsb (String.eqb k) destructured)));
        reflexivity).
  unfold coerced. cbn [intrinsic fst]. rewrite Hw. cbn [defined_truthy getSizes].
  destruct Hs as [-> | ->]; reflexivity.
Qed.

(** A height of 100 and the aspect ratio 2, layout [fixed]: the width is
    derived as 200, and [sizes] stays undefined. *)
Lemma sizes_from_width_hint_witness :
  obj_get "width"
    (attributes (assemble (ImageUrl "a.png")
                   (number_hints DimUndefined (DimNumber 100) (DimNumber 2) fixed) []))
  = Some (AttrNumber 200)
  /\ obj_get "sizes"
       (attributes (assemble (ImageUrl "a.png")
                      (number_hints DimUndefined (DimNumber 100) (DimNumber 2) fixed) []))
     = Some AttrUndefined.
Proof.
  split; [reflexivity |].
  apply sizes_from_width_hint; [reflexivity | now left].
Defined.

(** ** Aspect ratios inside a text *)

Lemma String_match_skip (pre s : string) :
  all_in no_digit pre = true ->
  String_match ratio_pattern (pre ++ s) = String_match ratio_pattern s.
Proof.
  intros H. induction pre as [| c pre IH]; [reflexivity |].
  cbn in H. apply andb_true_iff in H as [Hc Hp].
  cbn [append String_match]. unfold ratio_pattern at 1.
  rewrite rmatch_cat. cbn [rmatch].
  unfold no_digit in Hc. apply negb_true_iff in Hc. rewrite Hc.
  now apply IH.
Qed.

Lemma space_not_separator (sep : ascii) (rest : string) :
  is_separator sep = true -> stops is_space (String sep rest) = true.
Proof. intros H. cbn. now rewrite separator_not_space. Qed.

Lemma all_in_stops_other (p q : ascii -> bool) (a rest : string) :
  (forall c, p c = true -> q c = false) ->
  all_in p a = true -> truthy_string a = true ->
  stops q (a ++ rest) = true.
Proof.
  intros Hpq Ha Hn. destruct a as [| c a]; [discriminate |].
  cbn in Ha. apply andb_true_iff in Ha as [Hc _]. cbn. now rewrite (Hpq c Hc).
Qed.

(** The pattern inside a text: spaces around the separator, anything
    without a digit before, anything that does not begin with a digit
    after. *)
Lemma ratio_pattern_match_within (num den ws1 ws2 post : string) (sep : ascii) :
  digits num = true -> digits den = true -> is_separator sep = true ->
  all_in is_space ws1 = true -> all_in is_space ws2 = true ->
  stops is_digit post = true ->
  String_match ratio_pattern (num ++ ws1 ++ String sep (ws2 ++ den ++ post))
  = Some [num ++ ws1 ++ String sep (ws2 ++ den); num; den].
Proof.
  intros Hn Hd Hs H1 H2 Hp.
  unfold digits in Hn, Hd.
  apply andb_true_iff in Hn as [Hn1 Hn2]. pose proof Hd as Hd0.
  apply andb_true_iff in Hd as [Hd1 Hd2].
  set (whole := num ++ ws1 ++ String sep (ws2 ++ den ++ post)).
  assert (Hwhole : consumed whole post = num ++ ws1 ++ String sep (ws2 ++ den)).
  { unfold whole.
    replace (num ++ ws1 ++ String sep (ws2 ++ den ++ post))
      with ((num ++ ws1 ++ String sep (ws2 ++ den)) ++ post).
    - apply consumed_app.
    - rewrite !append_assoc. cbn [append]. now rewrite !append_assoc. }
  assert (E : rmatch ratio_pattern whole []
                (fun rest caps => Some (consumed whole rest :: caps))
              = Some [num ++ ws1 ++ String sep (ws2 ++ den); num; den]).
  { unfold ratio_pattern, whole. rewrite rmatch_cat.
    apply group_plus_run; [exact Hn1 | exact Hn2 | |].
    - destruct ws1 as [| c ws1]; cbn.
      + now rewrite separator_not_digit.
      + cbn in H1. apply andb_true_iff in H1 as [Hc _].
        destruct (is_digit c) eqn:Ed; [| reflexivity].
        apply digit_not_space in Ed. congruence.
    - rewrite rmatch_cat, rmatch_star.
      apply (star_k_run is_space ws1); [exact H1 | now apply space_not_separator |].
      rewrite rmatch_cat, rmatch_class.
      change (is_separator sep) with (Ascii.eqb sep "/" || Ascii.eqb sep ":") in Hs.
      rewrite Hs. rewrite rmatch_cat, rmatch_star.
      apply (star_k_run is_space ws2); [exact H2 | |].
      + apply (all_in_stops_other is_digit is_space); try assumption.
        apply digit_not_space.
      + apply group_plus_run; [exact Hd1 | exact Hd2 | exact Hp |].
        fold whole. rewrite Hwhole. reflexivity. }
  destruct num as [| c num]; [discriminate |].
  unfold whole in *. cbn [append String_match]. cbn [append] in E. rewrite E. reflexivity.
Qed.

(** X6. The ratio pattern is searched for, not matched against the whole
    string: text without a digit before the ratio, white space around the
    [/] or [:], and text after the denominator that does not begin with a
    digit change nothing. Such a string has the aspect ratio of the bare
    [<num><sep><den>]. *)
Theorem parseAspectRatio_within (pre num ws1 ws2 den post : string) (sep : ascii) :
  all_in no_digit pre = true ->
  digits num = true -> digits den = true -> is_separator sep = true ->
  all_in is_space ws1 = true -> all_in is_space ws2 = true ->
  stops is_digit post = true ->
  parseAspectRatio (DimString (pre ++ num ++ ws1 ++ String sep (ws2 ++ den ++ post)))
  = parseAspectRatio (DimString (num ++ String sep den)).
Proof.
  intros Hpre Hn Hd Hs H1 H2 Hp. unfold parseAspectRatio.
  rewrite String_match_skip by exact Hpre.
  rewrite ratio_pattern_match_within by assumption.
  rewrite ratio_pattern_match by assumption.
  reflexivity.
Qed.

(** ["ratio 16 : 9 (wide)"] is 16/9. *)
Lemma parseAspectRatio_within_witness :
  parseAspectRatio (DimString "ratio 16 : 9 (wide)") = Some (16 / 9)%float.
Proof.
  exact (eq_trans
           (parseAspectRatio_within "ratio " "16" " " " " "9" " (wide)" ":"
              eq_refl eq_refl eq_refl eq_refl eq_refl eq_refl eq_refl)
           eq_refl).
Defined.

(** ** The two transforms *)

Section Transforms.
Import Builtins Optimizers.

Lemma Promise_all_fulfilled {A B : Type} (f : A -> B) (l : list A) :
  Promise_all (map (fun x => Fulfilled (f x)) l) = Fulfilled (map f l).
Proof.
  induction l as [| x l IH]; cbn; [reflexivity | now rewrite IH].
Qed.

(** X7. For an image that is not a string and for the empty string
    [unpicOptimizer] resolves to no entry at all, and [parseUrl] is not
    called. For any other string it rejects with what [parseUrl] throws,
    when it throws, and resolves to no entry when [parseUrl] does not
    recognise the URL. For a URL [parseUrl] recognises it resolves exactly
    when [transformUrl] throws for no breakpoint: then there is one entry
    for each breakpoint, in the order of the breakpoints and with the
    breakpoint as its width, and no entry has an empty [src]: where
    [transformUrl] gives nothing, the entry is the image URL itself. When
    [transformUrl] throws, the promise rejects with what it throws for the
    first breakpoint at which it does. *)
Theorem unpicOptimizer_entries (parseUrl : string -> Completion (option string))
    (transformUrl : string -> number -> option number -> string -> Completion (option string))
    (image : Image) (breakpoints : list number) (w h : option number) :
  match image with
  | ImageData _ =>
      unpicOptimizer parseUrl transformUrl image breakpoints w h = Fulfilled []
  | ImageUrl url =>
      if truthy_string url then
        match parseUrl url with
        | Throw reason =>
            unpicOptimizer parseUrl transformUrl image breakpoints w h = Rejected reason
        | Normal None =>
            unpicOptimizer parseUrl transformUrl image breakpoints w h = Fulfilled []
        | Normal (Some cdn) =>
            match unpicOptimizer parseUrl transformUrl image breakpoints w h with
            | Fulfilled entries =>
                map entry_width entries = breakpoints
                /\ Forall (fun e => truthy_string (entry_src e) = true) entries
                /\ Forall (fun e =>
                             exists transformed,
                               transformUrl url (entry_width e)
                                 (scaled_height (entry_width e) w h) cdn
                               = Normal transformed
                               /\ entry_src e = or_image url transformed
                               /\ (transformed = None -> entry_src e = url))
                     entries
            | Rejected reason =>
                exists before b after,
                  breakpoints = (before ++ b :: after)%list
                  /\ transformUrl url b (scaled_height b w h) cdn = Throw reason
                  /\ Forall (fun b' =>
                               exists transformed,
                                 transformUrl url b' (scaled_height b' w h) cdn
                                 = Normal transformed)
                       before
            end
        end
      else unpicOptimizer parseUrl transformUrl image breakpoints w h = Fulfilled []
  end.
Proof.
  destruct image as [url | meta]; [| reflexivity].
  unfold unpicOptimizer.
  destruct (truthy_string url) eqn:Eu; cbn [negb]; [| reflexivity].
  destruct (parseUrl url) as [[cdn |] | reason]; [| reflexivity | reflexivity].
  induction breakpoints as [| b bs IH]; cbn [map Promise_all].
  - repeat split; constructor.
  - destruct (transformUrl url b (scaled_height b w h) cdn) as [t | r] eqn:Eb.
    + destruct (Promise_all _) as [es | r].
      * destruct IH as [IH1 [IH2 IH3]]. cbn [map entry_width].
        split; [now rewrite IH1 |]. split.
        -- constructor; [| exact IH2]. cbn [entry_src]. unfold or_image.
           destruct t as [u |]; [| exact Eu].
           destruct (truthy_string u) eqn:E; [exact E | exact Eu].
        -- constructor; [| exact IH3]. cbn [entry_src entry_width].
           exists t. split; [exact Eb |]. split; [reflexivity |].
           now intros ->.
      * destruct IH as [pre [b' [post [E [T F]]]]].
        exists (b :: pre), b', post. split; [now rewrite E |]. split; [exact T |].
        constructor; [now exists t | exact F].
    + exists [], b, bs. split; [reflexivity |]. split; [exact Eb | constructor].
Qed.

(** A URL that [parseUrl] cannot read, and a breakpoint at which
    [transformUrl] throws. *)
Lemma unpicOptimizer_entries_witness :
  unpicOptimizer strict narrow (ImageUrl "http://[bad") [640; 1280]%float None None
  = Rejected "Invalid URL"
  /\ unpicOptimizer strict narrow (ImageUrl "https://a.test/i.png") [640; 1280]%float None None
     = Rejected "too wide"
  /\ unpicOptimizer strict narrow (ImageUrl "https://a.test/i.png") [640]%float None None
     = Fulfilled [{| entry_src := "https://a.test/i.png?cdn=imgix"; entry_width := 640 |}].
Proof.
  split; [| split; reflexivity].
  exact (unpicOptimizer_entries strict narrow (ImageUrl "http://[bad") [640; 1280]%float
           None None).
Defined.

(** X8. For the empty string as image [astroAsseetsOptimizer] resolves to
    the empty list. For every other image it resolves exactly when
    [getImage] resolves for every breakpoint: then there is one entry for
    each breakpoint, in the order of the breakpoints, with the breakpoint
    as its width and the URL [getImage] gave for it. When it rejects, the
    reason is the reason [getImage] gave for one of the breakpoints. *)
Theorem astroAsseetsOptimizer_entries (getImage : Image -> number -> Promise string)
    (image : Image) (breakpoints : list number) (w h : option number) :
  match image with
  | ImageUrl EmptyString =>
      astroAsseetsOptimizer getImage image breakpoints w h = Fulfilled []
  | _ =>
      match astroAsseetsOptimizer getImage image breakpoints w h with
      | Fulfilled entries =>
          map entry_width entries = breakpoints
          /\ map (fun e => Fulfilled (entry_src e)) entries
             = map (getImage image) breakpoints
      | Rejected reason =>
          exists b, In b breakpoints /\ getImage image b = Rejected reason
      end
  end.
Proof.
  unfold astroAsseetsOptimizer.
  assert (G : match
                Promise_all
                  (map (fun w0 =>
                          match getImage image w0 with
                          | Fulfilled url => Fulfilled {| entry_src := url; entry_width := w0 |}
                          | Rejected reason => Rejected reason
                          end) breakpoints)
              with
              | Fulfilled entries =>
                  map entry_width entries = breakpoints
                  /\ map (fun e => Fulfilled (entry_src e)) entries
                     = map (getImage image) breakpoints
              | Rejected reason =>
                  exists b, In b breakpoints /\ getImage image b = Rejected reason
              end).
  { induction breakpoints as [| b bs IH]; cbn [map Promise_all]; [now split |].
    destruct (getImage image b) as [u | r] eqn:Eb.
    - destruct (Promise_all _) as [es | r].
      + destruct IH as [IH1 IH2]. cbn [map entry_width entry_src].
        now rewrite IH1, IH2.
      + destruct IH as [b' [Hb' E]]. exists b'. split; [now right | exact E].
    - exists b. split; [now left | exact Eb]. }
  destruct image as [[| c url] | meta]; cbn [truthy_string negb];
    [reflexivity | exact G | exact G].
Qed.

End Transforms.

(** ** Related posts: how many, and which *)

Section Selection.
Import Blog BlogSpec.

Lemma sorted_split {A : Type} (R : A -> A -> Prop) (l : list A) : forall n a b,
  StronglySorted R l -> In a (firstn n l) -> In b (skipn n l) -> R a b.
Proof.
  induction l as [| x l IH]; intros [| n] a b Hs Ha Hb; cbn in Ha, Hb; try tauto.
  inversion Hs as [| ? ? Hs' Hx]; subst. destruct Ha as [<- | Ha].
  - rewrite Forall_forall in Hx. apply Hx.
    rewrite <- (firstn_skipn n l). apply in_or_app. now right.
  - now apply (IH n).
Qed.

(** X9. [getRelatedPosts] returns the first posts of the sorted list, as
    many as the loop counts: it stops at the first count that is not below
    [maxResults] (4 by default) or when the posts other than the original
    are used up. For a whole [maxResults] from 0 to [2^53 - 1] these are
    exactly the smaller of [maxResults] and the number of the other posts,
    whatever their scores, so that posts with the score 0 fill the list;
    for a [maxResults] that is not above 0, NaN included, there is none.
    And it returns the best ones: the posts it leaves out, together with
    those it returns, are the other posts of the collection, and none left
    out has a higher score than one returned. *)
Theorem getRelatedPosts_selection (allPosts : list Post) (originalPost : Post)
    (maxResults : option number) :
  let limit := match maxResults with Some m => m | None => 4%float end in
  let result := getRelatedPosts allPosts originalPost maxResults in
  let others := others_of allPosts originalPost in
  (forall n : Z, (0 <= n < 2 ^ 53)%Z -> limit = float_of_Z n ->
     List.length result = Nat.min (Z.to_nat n) (List.length others))
  /\ ((0 <? limit)%float = false -> result = [])
  /\ (List.length result <= List.length others)%nat
  /\ (forall j, (j < List.length result)%nat ->
        (float_of_Z (Z.of_nat j) <? limit)%float = true)
  /\ (List.length result = List.length others
      \/ (float_of_Z (Z.of_nat (List.length result)) <? limit)%float = false)
  /\ exists rest,
       Permutation (result ++ rest)%list others
       /\ forall a b, In a result -> In b rest ->
            (score_of originalPost b <= score_of originalPost a)%Z.
Proof.
  cbn zeta. unfold getRelatedPosts.
  change RELATED_POSTS_COUNT with 4%float.
  set (m := match maxResults with Some m => m | None => 4%float end).
  set (sorted := sorted_by_score (postsWithScores allPosts originalPost)).
  assert (P : Permutation (map post sorted) (others_of allPosts originalPost)).
  { unfold sorted, sorted_by_score. rewrite insertion_sort_perm, postsWithScores_spec.
    rewrite map_map. cbn [post]. rewrite map_id. reflexivity. }
  assert (Hlen : List.length sorted = List.length (others_of allPosts originalPost)).
  { rewrite <- (Permutation_length P). symmetry. apply length_map. }
  assert (Hscore : forall s, In s sorted -> score s = score_of originalPost (post s)).
  { intros s Hs. unfold sorted, sorted_by_score in Hs.
    apply (proj1 (insertion_sort_In _ s _)) in Hs.
    rewrite postsWithScores_spec in Hs. apply in_map_iff in Hs.
    now destruct Hs as [p [<- _]]. }
  split.
  { intros n Hn ->. rewrite select_whole by exact Hn. now rewrite Hlen. }
  destruct (select_count sorted m) as [k [E [Ek [L [B St]]]]].
  rewrite Ek. rewrite E. rewrite <- Hlen.
  split; [| split; [exact L | split; [exact B | split; [exact St |]]]].
  - intros Z0. destruct k as [| k]; [reflexivity |].
    specialize (B 0%nat ltac:(lia)). change (float_of_Z (Z.of_nat 0)) with 0%float in B.
    congruence.
  - exists (skipn k (map post sorted)). split.
    + now rewrite firstn_skipn.
    + intros a b Ha Hb. rewrite firstn_map in Ha. rewrite skipn_map in Hb.
      apply in_map_iff in Ha. destruct Ha as [sa [<- Ha]].
      apply in_map_iff in Hb. destruct Hb as [sb [<- Hb]].
      rewrite <- (Hscore sa) by (now apply firstn_In in Ha).
      rewrite <- (Hscore sb)
        by (rewrite <- (firstn_skipn k sorted); apply in_or_app; now right).
      apply (sorted_split (fun x y => (score y <= score x)%Z) sorted k);
        [apply sorted_by_score_sorted | exact Ha | exact Hb].
Qed.

(** Five posts other than the original one are asked for and four exist;
    at 1.5 the loop counts to 2. *)
Lemma getRelatedPosts_selection_witness :
  List.length (getRelatedPosts collection intro (Some 5%float)) = 4%nat
  /\ List.length (getRelatedPosts collection intro None) = 4%nat
  /\ getRelatedPosts collection intro (Some 1.5%float) = [deep; types]
  /\ getRelatedPosts collection intro (Some nan) = [].
Proof.
  destruct (getRelatedPosts_selection collection intro (Some 5%float)) as [W _].
  destruct (getRelatedPosts_selection collection intro (Some nan)) as [_ [Z0 _]].
  refine (conj (W 5%Z _ eq_refl) (conj eq_refl (conj eq_refl (Z0 eq_refl)))).
  lia.
Defined.

End Selection.

(** ** Posts by slug, by id, and the latest ones *)

Section Queries.
Import Builtins Blog BlogSpec BlogQueries.

Lemma some_push_first (test : Post -> bool) (posts r : list Post) :
  some_push test posts r = (r ++ first_match test posts)%list.
Proof.
  unfold first_match. induction posts as [| p posts IH]; cbn.
  - now rewrite app_nil_r.
  - destruct (test p); [reflexivity | exact IH].
Qed.

Lemma fold_some_push (key : Post -> string) (posts : list Post) (wanted : list string) :
  forall r,
  fold_left (fun r k => some_push (fun p => String.eqb k (key p)) posts r) wanted r
  = (r ++ flat_map (fun k => first_match (fun p => String.eqb k (key p)) posts) wanted)%list.
Proof.
  induction wanted as [| k wanted IH]; intros r; cbn [fold_left flat_map].
  - now rewrite app_nil_r.
  - rewrite IH, some_push_first. now rewrite <- app_assoc.
Qed.

Lemma first_match_spec (key : Post -> string) (posts : list Post) (k : string) :
  (List.length (first_match (fun p => String.eqb k (key p)) posts) <= 1)%nat
  /\ Forall (fun p => In p posts /\ key p = k)
       (first_match (fun p => String.eqb k (key p)) posts).
Proof.
  unfold first_match.
  destruct (find (fun p => String.eqb k (key p)) posts) as [p |] eqn:E; cbn.
  - split; [lia |]. apply find_some in E. destruct E as [Hin E].
    apply String.eqb_eq in E. repeat constructor; [exact Hin | now symmetry].
  - split; [lia | constructor].
Qed.

Lemma flat_first_match (key : Post -> string) (posts : list Post) (wanted : list string) :
  (List.length (flat_map (fun k => first_match (fun p => String.eqb k (key p)) posts) wanted)
   <= List.length wanted)%nat
  /\ Forall (fun p => In p posts /\ In (key p) wanted)
       (flat_map (fun k => first_match (fun p => String.eqb k (key p)) posts) wanted).
Proof.
  induction wanted as [| k wanted [IH1 IH2]]; cbn [flat_map List.length].
  - split; [lia | constructor].
  - destruct (first_match_spec key posts k) as [L F]. split.
    + rewrite length_app. lia.
    + apply Forall_app. split.
      * rewrite Forall_forall in *. intros p Hp. destruct (F p Hp) as [A B].
        split; [exact A | left; now symmetry].
      * rewrite Forall_forall in *. intros p Hp. destruct (IH2 p Hp) as [A B].
        split; [exact A | now right].
Qed.

(** X10. [findPostsBySlugs] goes through the slugs asked for, in their
    order, and takes for each the first post of the collection that has
    it: a slug no post has is skipped without an error, a slug asked for
    twice gives its post twice, and of two posts with one slug only the
    first is ever returned. So there are at most as many posts as slugs,
    each from the collection and with a slug that was asked for. An
    argument that is no array gives the empty list. *)
Theorem findPostsBySlugs_first_match (posts : list Post) (slugs : list string) :
  findPostsBySlugs posts (Some slugs)
  = flat_map (fun s => first_match (fun p => String.eqb s (post_slug p)) posts) slugs
  /\ (List.length (findPostsBySlugs posts (Some slugs)) <= List.length slugs)%nat
  /\ Forall (fun p => In p posts /\ In (post_slug p) slugs)
       (findPostsBySlugs posts (Some slugs))
  /\ findPostsBySlugs posts None = [].
Proof.
  assert (E : findPostsBySlugs posts (Some slugs)
              = flat_map (fun s => first_match (fun p => String.eqb s (post_slug p)) posts) slugs).
  { unfold findPostsBySlugs. now rewrite (fold_some_push post_slug). }
  rewrite E. destruct (flat_first_match post_slug posts slugs) as [L F].
  repeat split; assumption.
Qed.

(** X11. [findPostsByIds] does the same by [id]: for each id asked for, in
    their order, the first post of the collection with that id; unknown
    ids are skipped, and an argument that is no array gives the empty
    list. *)
Theorem findPostsByIds_first_match (posts : list Post) (ids : list string) :
  findPostsByIds posts (Some ids)
  = flat_map (fun i => first_match (fun p => String.eqb i (post_id p)) posts) ids
  /\ (List.length (findPostsByIds posts (Some ids)) <= List.length ids)%nat
  /\ Forall (fun p => In p posts /\ In (post_id p) ids) (findPostsByIds posts (Some ids))
  /\ findPostsByIds posts None = [].
Proof.
  assert (E : findPostsByIds posts (Some ids)
              = flat_map (fun i => first_match (fun p => String.eqb i (post_id p)) posts) ids).
  { unfold findPostsByIds. now rewrite (fold_some_push post_id). }
  rewrite E. destruct (flat_first_match post_id posts ids) as [L F].
  repeat split; assumption.
Qed.

Lemma firstn_min {A : Type} (l : list A) (n : nat) :
  firstn (Nat.min n (List.length l)) l = firstn n l.
Proof.
  destruct (Nat.le_ge_cases n (List.length l)) as [H | H].
  - now rewrite Nat.min_l.
  - rewrite Nat.min_r by exact H. rewrite firstn_all. symmetry. now apply firstn_all2.
Qed.


(** ** Loading the collection *)

Lemma Permutation_filter {A : Type} (f : A -> bool) (l l' : list A) :
  Permutation l l' -> Permutation (filter f l) (filter f l').
Proof.
  induction 1 as [| x l l' _ IH | x y l | l l' l'' _ IH1 _ IH2]; cbn.
  - constructor.
  - destruct (f x); [now constructor | exact IH].
  - destruct (f x), (f y); try reflexivity. apply perm_swap.
  - now transitivity (filter f l').
Qed.

Lemma StronglySorted_filter {A : Type} (R : A -> A -> Prop) (f : A -> bool) (l : list A) :
  StronglySorted R l -> StronglySorted R (filter f l).
Proof.
  induction 1 as [| x l Hs IH Hx]; cbn; [constructor |].
  destruct (f x); [| exact IH]. constructor; [exact IH |].
  rewrite Forall_forall in *. intros y Hy. apply filter_In in Hy. now apply Hx.
Qed.

Lemma StronglySorted_among {A : Type} (R R' : A -> A -> Prop) (ok : A -> Prop) (l : list A) :
  (forall a b, ok a -> ok b -> R a b -> R' a b) ->
  Forall ok l -> StronglySorted R l -> StronglySorted R' l.
Proof.
  intros H Hok Hs. induction Hs as [| x l Hs IH Hx]; [constructor |].
  inversion Hok as [| ? ? Hokx Hokl]; subst. constructor; [now apply IH |].
  rewrite Forall_forall in *. intros y Hy. apply H; auto.
Qed.

(** X13. For every collection, [load] returns the posts that are no
    drafts, all of them and nothing else; when every publish date is a
    valid date, they are ordered from the newest to the oldest: no post
    comes before a post with a later date. *)
Theorem load_newest_first (normalizedPosts : list Normalized) :
  Forall (fun p => draft p = false) (load normalizedPosts)
  /\ Permutation (load normalizedPosts) (filter (fun p => negb (draft p)) normalizedPosts)
  /\ (Forall (fun p => isNaN (publishDate p) = false) normalizedPosts ->
      StronglySorted (fun a b => (publishDate a <? publishDate b)%float = false)
        (load normalizedPosts)).
Proof.
  unfold load.
  set (after := fun a b : Normalized => (0 <? publishDate b - publishDate a)%float).
  split; [| split].
  - rewrite Forall_forall. intros p Hp. apply filter_In in Hp.
    destruct Hp as [_ Hp]. now apply negb_true_iff in Hp.
  - apply Permutation_filter. apply insertion_sort_perm.
  - intros Hv.
    assert (Hok : Forall (fun p => isNaN (publishDate p) = false)
                    (filter (fun p => negb (draft p)) (insertion_sort after normalizedPosts))).
    { rewrite Forall_forall in *. intros p Hp. apply filter_In in Hp.
      destruct Hp as [Hp _]. apply Hv. now apply (proj1 (insertion_sort_In _ _ _)) in Hp. }
    apply (StronglySorted_among
             (fun a b => (- position (publishDate a) <= - position (publishDate b))%Z)
             _ (fun p => isNaN (publishDate p) = false)); [| exact Hok |].
    + intros a b Ha Hb Hab. rewrite ltb_position by assumption.
      apply Z.ltb_ge. lia.
    + apply StronglySorted_filter.
      apply (insertion_sort_sorted after (fun p => (- position (publishDate p))%Z)
               (fun p => isNaN (publishDate p) = false)); [| exact Hv].
      intros x y Hx Hy. unfold after. rewrite sub_positive by assumption.
      destruct (Z.ltb_spec (position (publishDate x)) (position (publishDate y)));
        destruct (Z.ltb_spec (- position (publishDate y)) (- position (publishDate x)));
        try lia; reflexivity.
Qed.

(** A draft between two posts a day apart. *)
Lemma load_newest_first_witness :
  Forall (fun p => isNaN (publishDate p) = false) entries
  /\ load entries = [dated deep 1700086400000 false; dated other 1700000000000 false]
  /\ StronglySorted (fun a b => (publishDate a <? publishDate b)%float = false) (load entries).
Proof.
  assert (H : Forall (fun p => isNaN (publishDate p) = false) entries)
    by (repeat constructor).
  exact (conj H (conj eq_refl (proj2 (proj2 (load_newest_first entries)) H))).
Defined.

End Queries.

(** ** Posts of equal score *)

Section Stability.
Context {A : Type} (after : A -> A -> bool).
Variable key : A -> Z.
Hypothesis after_key : forall x y, after x y = (key y <? key x)%Z.

Lemma sort_insert_stable (k : Z) (x : A) (l : list A) :
  filter (fun y => (key y =? k)%Z) (sort_insert after x l)
  = filter (fun y => (key y =? k)%Z) (x :: l).
Proof.
  induction l as [| y l IH]; cbn [sort_insert]; [reflexivity |].
  rewrite after_key. destruct (Z.ltb_spec (key y) (key x)) as [L | G]; [| reflexivity].
  cbn [filter] in *. rewrite IH.
  destruct (Z.eqb_spec (key x) k), (Z.eqb_spec (key y) k); try reflexivity. lia.
Qed.

(** The sort is stable: the elements of one key stay in their order. *)
Lemma insertion_sort_stable (k : Z) (l : list A) :
  filter (fun y => (key y =? k)%Z) (insertion_sort after l)
  = filter (fun y => (key y =? k)%Z) l.
Proof.
  induction l as [| x l IH]; [reflexivity |].
  change (insertion_sort after (x :: l)) with (sort_insert after x (insertion_sort after l)).
  rewrite sort_insert_stable. cbn [filter]. now rewrite IH.
Qed.

End Stability.

Lemma filter_firstn {A : Type} (f : A -> bool) (l : list A) : forall n,
  exists m, filter f (firstn n l) = firstn m (filter f l).
Proof.
  induction l as [| x l IH]; intros [| n]; cbn [firstn filter];
    try (exists 0%nat; reflexivity).
  destruct (IH n) as [m E]. rewrite E. destruct (f x).
  - now exists (S m).
  - now exists m.
Qed.

Section Ties.
Import Blog BlogSpec.

(** X25. Among the posts of one score, [getRelatedPosts] keeps the order of
    the collection and prefers the earlier ones: for every score, the
    returned posts with that score are the first ones, in order, of the
    posts of the collection (the original post apart) with that score. *)
Theorem getRelatedPosts_ties (allPosts : list Post) (originalPost : Post)
    (maxResults : option number) (k : Z) :
  exists m,
    filter (fun p => (score_of originalPost p =? k)%Z)
      (getRelatedPosts allPosts originalPost maxResults)
    = firstn m
        (filter (fun p => (score_of originalPost p =? k)%Z) (others_of allPosts originalPost)).
Proof.
  unfold getRelatedPosts.
  set (scored := postsWithScores allPosts originalPost).
  destruct (select_count (sorted_by_score scored)
              (match maxResults with Some n => n | None => RELATED_POSTS_COUNT end))
    as [c [-> _]].
  destruct (filter_firstn (fun p => (score_of originalPost p =? k)%Z)
              (map post (sorted_by_score scored)) c) as [m E].
  exists m. rewrite E. f_equal.
  assert (Hscore : forall s, In s scored -> score s = score_of originalPost (post s)).
  { intros s Hs. unfold scored in Hs. rewrite postsWithScores_spec in Hs.
    apply in_map_iff in Hs. now destruct Hs as [p [<- _]]. }
  assert (F : forall l, (forall s, In s l -> In s scored) ->
            filter (fun p => (score_of originalPost p =? k)%Z) (map post l)
            = map post (filter (fun s => (- score s =? - k)%Z) l)).
  { induction l as [| s l IH]; intros Hl; [reflexivity |]. cbn [map filter].
    rewrite <- (Hscore s) by (apply Hl; now left).
    rewrite IH by (intros z Hz; apply Hl; now right).
    destruct (Z.eqb_spec (score s) k), (Z.eqb_spec (- score s) (- k)); try lia; reflexivity. }
  rewrite F.
  - unfold sorted_by_score.
    rewrite (insertion_sort_stable _ (fun s => (- score s)%Z)).
    + rewrite <- F by auto. unfold scored. rewrite postsWithScores_spec, map_map.
      cbn [post]. now rewrite map_id.
    + intros x y. destruct (Z.ltb_spec 0 (score y - score x));
        destruct (Z.ltb_spec (- score y) (- score x)); try lia; reflexivity.
  - intros s Hs. unfold sorted_by_score in Hs.
    now apply (proj1 (insertion_sort_In _ s _)) in Hs.
Qed.

End Ties.

(** ** The static paths of categories and tags *)

Section Groups.
Import Builtins Blog BlogSpec BlogQueries.

Lemma filter_partition {A : Type} (f : A -> bool) (l : list A) :
  Permutation (filter f l ++ filter (fun x => negb (f x)) l)%list l.
Proof.
  induction l as [| x l IH]; cbn; [constructor |].
  destruct (f x); cbn.
  - now constructor.
  - symmetry. apply Permutation_cons_app. now symmetry.
Qed.

(** [Object.keys] lists every key once. *)
Lemma Object_keys_perm {V : Type} (o : list (string * V)) :
  Permutation (Object_keys o) (map fst o).
Proof.
  unfold Object_keys. rewrite insertion_sort_perm. apply filter_partition.
Qed.

Lemma obj_assign_keys {V : Type} (s : string) (es : list (string * V)) :
  forall o : list (string * V),
  In s (map fst (obj_assign o es)) <-> In s (map fst o) \/ In s (map fst es).
Proof.
  unfold obj_assign.
  induction es as [| [k v] es IH]; intros o; cbn [fold_left map fst In].
  - tauto.
  - rewrite IH, obj_set_keys.
    destruct (existsb (String.eqb k) (map fst o)) eqn:E.
    + apply existsb_exists in E. destruct E as [k' [Hk' E]].
      apply String.eqb_eq in E. subst k'. cbn [In]. intuition (subst; auto).
    + rewrite in_app_iff. cbn [In]. tauto.
Qed.

Lemma put_all {V : Type} (es : list (string * V)) : forall o : list (string * V),
  fold_left (fun acc kv => obj_put (fst kv) (snd kv) acc) es o
  = obj_assign o (filter (fun kv => plain_key (fst kv)) es).
Proof.
  unfold obj_assign.
  induction es as [| [k v] es IH]; intros o; cbn [fold_left filter fst snd]; [reflexivity |].
  rewrite IH. unfold obj_put, plain_key.
  destruct (String.eqb k "__proto__"); reflexivity.
Qed.

(** The object the assignments [es] build, read through [Object.keys] and
    by key. *)
Lemma assigned_object {V : Type} (es : list (string * V)) :
  let o := obj_assign [] (filter (fun kv => plain_key (fst kv)) es) in
  NoDup (Object_keys o)
  /\ (forall s, In s (Object_keys o) <-> plain_key s = true /\ In s (map fst es))
  /\ (forall s, plain_key s = true -> obj_get s o = obj_get s (rev es)).
Proof.
  cbn zeta.
  set (kept := filter (fun kv => plain_key (fst kv)) es).
  destruct (obj_assign_wellformed (fun _ : string * V => True) kept [])
    as [_ N]; [rewrite Forall_forall; trivial | constructor | constructor |].
  split; [| split].
  - apply (Permutation_NoDup (l := map fst (obj_assign [] kept))); [| exact N].
    symmetry. apply Object_keys_perm.
  - intros s. split.
    + intros H. apply (Permutation_in _ (Object_keys_perm _)) in H.
      apply obj_assign_keys in H. destruct H as [[] | H].
      unfold kept in H. rewrite (keys_filter plain_key) in H.
      apply filter_In in H. tauto.
    + intros [Hs H]. apply (Permutation_in _ (Permutation_sym (Object_keys_perm _))).
      apply obj_assign_keys. right. unfold kept. rewrite (keys_filter plain_key).
      apply filter_In. tauto.
  - intros s Hs. rewrite obj_get_assign. unfold kept.
    rewrite <- filter_rev. rewrite (obj_get_filter s plain_key) by exact Hs.
    now destruct (obj_get s (rev es)).
Qed.

Lemma categories_assigned (posts : list Post) :
  categories posts
  = obj_assign [] (filter (fun kv => plain_key (fst kv)) (category_entries posts)).
Proof.
  rewrite <- put_all. unfold categories, category_entries.
  set (step := fun (acc : list (string * Taxonomy)) (p : Post) => _).
  set (written := fun p : Post => _).
  assert (G : forall o,
            fold_left step posts o
            = fold_left (fun acc kv => obj_put (fst kv) (snd kv) acc) (flat_map written posts) o);
    [| apply G].
  induction posts as [| p posts IH]; intros o; cbn [fold_left flat_map]; [reflexivity |].
  rewrite fold_left_app, <- IH. f_equal. unfold step, written.
  destruct (post_category p) as [c |]; [| reflexivity].
  destruct (truthy_string (slug c)); reflexivity.
Qed.

Lemma tags_assigned (posts : list Post) :
  tags posts = obj_assign [] (filter (fun kv => plain_key (fst kv)) (tag_entries posts)).
Proof.
  rewrite <- put_all. unfold tags, tag_entries.
  set (step := fun (acc : list (string * Taxonomy)) (p : Post) => _).
  set (written := fun p : Post => _).
  assert (G : forall o,
            fold_left step posts o
            = fold_left (fun acc kv => obj_put (fst kv) (snd kv) acc) (flat_map written posts) o);
    [| apply G].
  induction posts as [| p posts IH]; intros o; cbn [fold_left flat_map]; [reflexivity |].
  rewrite fold_left_app, <- IH. f_equal. unfold step, written.
  destruct (post_tags p) as [ts |]; [| reflexivity].
  revert o. induction ts as [| t ts IHt]; intros o; cbn [fold_left map fst snd]; [reflexivity |].
  apply IHt.
Qed.

Lemma category_entries_keys (posts : list Post) (s : string) :
  In s (map fst (category_entries posts))
  <-> exists p, In p posts /\ in_category s p = true.
Proof.
  unfold category_entries, in_category, category_slug. rewrite in_map_iff. split.
  - intros [[k c] [E H]]. cbn in E. subst k. apply in_flat_map in H.
    destruct H as [p [Hp H]]. exists p. split; [exact Hp |].
    destruct (post_category p) as [c' |]; [| destruct H].
    destruct (truthy_string (slug c')) eqn:T; [| destruct H].
    destruct H as [[= <- <-] | []]. now rewrite String.eqb_refl.
  - intros [p [Hp H]]. destruct (post_category p) as [c |] eqn:Ec; [| discriminate].
    apply andb_true_iff in H as [T E]. apply String.eqb_eq in E. subst s.
    exists (slug c, c). split; [reflexivity |]. apply in_flat_map. exists p.
    split; [exact Hp |]. rewrite Ec, T. now left.
Qed.

Lemma tag_entries_keys (posts : list Post) (s : string) :
  In s (map fst (tag_entries posts)) <-> exists p, In p posts /\ has_tag s p = true.
Proof.
  unfold tag_entries, has_tag. rewrite in_map_iff. split.
  - intros [[k c] [E H]]. cbn in E. subst k. apply in_flat_map in H.
    destruct H as [p [Hp H]]. exists p. split; [exact Hp |].
    destruct (post_tags p) as [ts |]; [| destruct H].
    apply in_map_iff in H. destruct H as [t [[= <- <-] Ht]].
    apply existsb_exists. exists t. split; [exact Ht | apply String.eqb_refl].
  - intros [p [Hp H]]. destruct (post_tags p) as [ts |] eqn:Et; [| discriminate].
    apply existsb_exists in H. destruct H as [t [Ht E]]. apply String.eqb_eq in E. subst s.
    exists (slug t, t). split; [reflexivity |]. apply in_flat_map. exists p.
    split; [exact Hp |]. rewrite Et. apply in_map_iff. now exists t.
Qed.

(** The category kept for a slug is that of the last post that has it. *)
Lemma category_entries_last (posts : list Post) (s : string) :
  obj_get s (rev (category_entries posts))
  = match rev (filter (in_category s) posts) with
    | p :: _ => post_category p
    | [] => None
    end.
Proof.
  induction posts as [| p posts IH] using rev_ind; [reflexivity |].
  unfold category_entries in *. rewrite flat_map_app, rev_app_distr, obj_get_app.
  rewrite filter_app, rev_app_distr. cbn [flat_map filter]. rewrite app_nil_r.
  assert (E : in_category s p
              = match post_category p with
                | Some c => truthy_string (slug c) && String.eqb s (slug c)
                | None => false
                end).
  { unfold in_category, category_slug. now destruct (post_category p). }
  rewrite E.
  destruct (post_category p) as [c |] eqn:Ec; cbn [rev app obj_get]; [| exact IH].
  destruct (truthy_string (slug c)) eqn:T; cbn [rev app obj_get andb]; [| exact IH].
  destruct (String.eqb s (slug c)); cbn [rev app]; [now rewrite Ec | exact IH].
Qed.

(** X14. [getStaticPathsBlogCategory] calls [paginate] once for every
    category slug of the collection, and for no other slug: the groups have
    different slugs; a slug has a group exactly when some post has it as
    the non-empty slug of its category (the slug [__proto__] apart, which
    never gets a group); the group of a slug holds the posts of that
    category, in the order of the collection, and is never empty; and the
    category handed over with it is that of the last post of the group.
    With the blog or the category route disabled there is no path. *)
Theorem getStaticPathsBlogCategory_groups (posts : list Post) :
  NoDup (map group_slug (categoryGroups posts))
  /\ (forall s, In s (map group_slug (categoryGroups posts))
                <-> plain_key s = true /\ exists p, In p posts /\ in_category s p = true)
  /\ Forall (fun g =>
               fst (fst g) = filter (in_category (group_slug g)) posts
               /\ exists front p, fst (fst g) = (front ++ [p])%list /\ snd g = post_category p)
       (categoryGroups posts)
  /\ (forall (Page : Type) (paginate : list Post -> string -> option Taxonomy -> list Page)
        (isBlogEnabled isBlogCategoryRouteEnabled : bool),
        getStaticPathsBlogCategory paginate isBlogEnabled isBlogCategoryRouteEnabled posts
        = if isBlogEnabled && isBlogCategoryRouteEnabled
          then flat_map (fun g => paginate (fst (fst g)) (group_slug g) (snd g))
                 (categoryGroups posts)
          else []).
Proof.
  assert (K : map group_slug (categoryGroups posts) = Object_keys (categories posts)).
  { unfold categoryGroups. rewrite map_map. cbn [group_slug fst snd]. apply map_id. }
  destruct (assigned_object (category_entries posts)) as [N [M G]].
  rewrite <- categories_assigned in N, M, G.
  split; [| split; [| split]].
  - now rewrite K.
  - intros s. rewrite K, M, category_entries_keys. reflexivity.
  - rewrite Forall_forall. intros g Hg. unfold categoryGroups in Hg.
    apply in_map_iff in Hg. destruct Hg as [s [<- Hs]]. cbn [fst snd group_slug].
    split; [reflexivity |].
    apply M in Hs. destruct Hs as [Hplain Hs]. apply category_entries_keys in Hs.
    rewrite (G s Hplain), category_entries_last.
    destruct Hs as [p [Hp Hin]].
    assert (Hne : In p (filter (in_category s) posts)) by (apply filter_In; now split).
    destruct (rev (filter (in_category s) posts)) as [| q tl] eqn:Er.
    + apply in_rev in Hne. rewrite Er in Hne. destruct Hne.
    + exists (rev tl), q. split; [| reflexivity].
      rewrite <- (rev_involutive (filter (in_category s) posts)), Er. reflexivity.
  - intros Page paginate e1 e2. unfold getStaticPathsBlogCategory.
    destruct e1, e2; cbn [negb orb andb]; try reflexivity.
    unfold categoryGroups. rewrite !flat_map_concat_map, !map_map. reflexivity.
Qed.

(** X15. [getStaticPathsBlogTag] calls [paginate] once for every tag slug
    of the collection, and for no other slug: the groups have different
    slugs; a slug has a group exactly when some post has a tag with it (the
    slug [__proto__] apart); the group of a slug holds the posts that have
    such a tag, in the order of the collection, and is never empty; the
    tag handed over with it has that slug. With the blog or the tag route
    disabled there is no path. *)
Theorem getStaticPathsBlogTag_groups (posts : list Post) :
  NoDup (map group_slug (tagGroups posts))
  /\ (forall s, In s (map group_slug (tagGroups posts))
                <-> plain_key s = true /\ exists p, In p posts /\ has_tag s p = true)
  /\ Forall (fun g =>
               fst (fst g) = filter (has_tag (group_slug g)) posts
               /\ fst (fst g) <> []
               /\ exists t, snd g = Some t /\ slug t = group_slug g)
       (tagGroups posts)
  /\ (forall (Page : Type) (paginate : list Post -> string -> option Taxonomy -> list Page)
        (isBlogEnabled isBlogTagRouteEnabled : bool),
        getStaticPathsBlogTag paginate isBlogEnabled isBlogTagRouteEnabled posts
        = if isBlogEnabled && isBlogTagRouteEnabled
          then flat_map (fun g => paginate (fst (fst g)) (group_slug g) (snd g))
                 (tagGroups posts)
          else []).
Proof.
  assert (K : map group_slug (tagGroups posts) = Object_keys (tags posts)).
  { unfold tagGroups. rewrite map_map. cbn [group_slug fst snd]. apply map_id. }
  destruct (assigned_object (tag_entries posts)) as [N [M G]].
  rewrite <- tags_assigned in N, M, G.
  split; [| split; [| split]].
  - now rewrite K.
  - intros s. rewrite K, M, tag_entries_keys. reflexivity.
  - rewrite Forall_forall. intros g Hg. unfold tagGroups in Hg.
    apply in_map_iff in Hg. destruct Hg as [s [<- Hs]]. cbn [fst snd group_slug].
    split; [reflexivity |].
    apply M in Hs. destruct Hs as [Hplain Hs]. split.
    + apply tag_entries_keys in Hs. destruct Hs as [p [Hp Hin]].
      intros E. assert (Hne : In p (filter (has_tag s) posts)) by (apply filter_In; now split).
      rewrite E in Hne. destruct Hne.
    + rewrite (G s Hplain).
      assert (Hk : In s (map fst (rev (tag_entries posts))))
        by (rewrite map_rev; now apply -> in_rev).
      destruct (obj_get s (rev (tag_entries posts))) as [t |] eqn:Eg.
      * exists t. split; [reflexivity |]. apply obj_get_In in Eg. apply in_rev in Eg.
        unfold tag_entries in Eg. apply in_flat_map in Eg. destruct Eg as [p [_ Eg]].
        destruct (post_tags p) as [ts |]; [| destruct Eg].
        apply in_map_iff in Eg. now destruct Eg as [t' [[= <- <-] _]].
      * exfalso. apply in_map_iff in Hk. destruct Hk as [[k v] [Ek Hin]]. cbn in Ek. subst k.
        clear - Eg Hin. induction (rev (tag_entries posts)) as [| [k' v'] l IH];
          [destruct Hin |]. cbn in Eg. destruct (String.eqb_spec s k') as [-> | Ne];
          [discriminate |]. destruct Hin as [[= -> ->] | Hin]; [congruence | now apply IH].
  - intros Page paginate e1 e2. unfold getStaticPathsBlogTag.
    destruct e1, e2; cbn [negb orb andb]; try reflexivity.
    unfold tagGroups. rewrite !flat_map_concat_map, !map_map. reflexivity.
Qed.

End Groups.

(** ** The asset preloader *)

Section Slices.
Import Builtins.
Context {A : Type}.

Lemma firstn_add (l : list A) : forall a b,
  firstn (a + b) l = (firstn a l ++ firstn b (skipn a l))%list.
Proof.
  induction l as [| x l IH]; intros [| a] b; cbn; try reflexivity.
  - now rewrite firstn_nil.
  - now rewrite IH.
Qed.

Lemma skipn_In (x : A) (l : list A) (n : nat) : In x (skipn n l) -> In x l.
Proof.
  intros H. rewrite <- (firstn_skipn n l). apply in_or_app. now right.
Qed.

(** The chunk of the loop: [concurrent] elements from the index on. *)
Lemma slice_chunk (l : list A) (i c : Z) :
  (0 <= i)%Z -> (1 <= c)%Z ->
  Array_slice l i (i + c) = firstn (Z.to_nat c) (skipn (Z.to_nat i) l).
Proof.
  intros Hi Hc. unfold Array_slice, relative_index.
  destruct (Z.ltb_spec i 0) as [L | _]; [lia |].
  destruct (Z.ltb_spec (i + c) 0) as [L | _]; [lia |].
  destruct (Z_lt_le_dec i (Z.of_nat (List.length l))) as [Hlt | Hge].
  - rewrite (Z.min_l i) by lia.
    rewrite <- (firstn_min (skipn (Z.to_nat i) l) (Z.to_nat c)).
    f_equal. rewrite length_skipn. lia.
  - rewrite (skipn_all2 (n := Z.to_nat i)) by lia.
    rewrite firstn_nil.
    rewrite !Z.min_r by lia. rewrite Z.sub_diag. reflexivity.
Qed.

End Slices.

Section Preload.
Import Builtins AssetPreload.
Variable browser : string -> Event.
Variable meanwhile : Z -> string -> Event.

Lemma start_cons (a : Assets) (u : string) (ch : list string) :
  start a (u :: ch)
  = (fst (start (fst (preloadAsset a u)) ch),
     (u, snd (preloadAsset a u)) :: snd (start (fst (preloadAsset a u)) ch)).
Proof.
  cbn [start]. destruct (preloadAsset a u) as [a1 call]. cbn [fst snd].
  destruct (start a1 ch) as [a2 calls]. reflexivity.
Qed.

Lemma start_urls (ch : list string) : forall a, map fst (snd (start a ch)) = ch.
Proof.
  induction ch as [| u ch IH]; intros a; [reflexivity |].
  rewrite start_cons. cbn [snd map fst]. now rewrite IH.
Qed.

Lemma start_assets (ch : list string) (u : string) : forall a,
  obj_get u (fst (start a ch))
  = match obj_get u a with
    | Some x => Some x
    | None => if mem u ch then Some Loading else None
    end.
Proof.
  induction ch as [| v ch IH]; intros a.
  - cbn. now destruct (obj_get u a).
  - rewrite start_cons. cbn [fst]. rewrite IH. unfold preloadAsset, mem. cbn [existsb].
    destruct (obj_get v a) as [x |] eqn:Ev; cbn [fst].
    + destruct (obj_get u a) eqn:Eu; [reflexivity |].
      destruct (String.eqb_spec u v) as [-> | N]; [congruence | reflexivity].
    + rewrite obj_get_set.
      destruct (String.eqb_spec u v) as [-> | N]; [now rewrite Ev | reflexivity].
Qed.

Lemma start_started (ch : list string) (u : string) : forall a,
  started u (snd (start a ch))
  = match obj_get u a with
    | Some _ => false
    | None => mem u ch
    end.
Proof.
  induction ch as [| v ch IH]; intros a.
  - cbn. now destruct (obj_get u a).
  - rewrite start_cons. cbn [snd]. unfold started, mem. cbn [existsb fst snd].
    fold (started u (snd (start (fst (preloadAsset a v)) ch))). rewrite IH.
    unfold preloadAsset, mem.
    destruct (obj_get v a) as [x |] eqn:Ev; cbn [fst snd].
    + rewrite andb_false_r. cbn [orb].
      destruct (obj_get u a) eqn:Eu; [reflexivity |].
      destruct (String.eqb_spec u v) as [-> | N]; [congruence | reflexivity].
    + rewrite andb_true_r, obj_get_set.
      destruct (String.eqb_spec u v) as [-> | N]; [now rewrite Ev |].
      reflexivity.
Qed.

Lemma result_url_answer (c : string * Call) : result_url (answer browser c) = fst c.
Proof.
  unfold answer, report. destruct c as [u [x |]]; cbn [fst snd]; [reflexivity |].
  now destruct (browser u).
Qed.

Lemma started_cons (u v : string) (call : Call) (calls : list (string * Call)) :
  started u ((v, call) :: calls)
  = (String.eqb u v && match call with Started => true | Cached _ => false end)
    || started u calls.
Proof. reflexivity. Qed.

Lemma settle_returned (calls : list (string * Call)) : forall a1 a2 rs,
  settle browser a1 calls = Returned (a2, rs) ->
  rs = map (answer browser) calls
  /\ (forall u, obj_get u a2 = if started u calls then outcome browser u else obj_get u a1)
  /\ (forall u, started u calls = true -> browser u <> Silence).
Proof.
  induction calls as [| [v call] calls IH]; intros a1 a2 rs H; cbn [settle] in H.
  - injection H as <- <-. repeat split. intros u Hu. discriminate.
  - destruct call as [x |].
    + destruct (settle browser a1 calls) as [[a rs'] | |] eqn:E; try discriminate.
      injection H as <- <-. destruct (IH _ _ _ E) as [-> [S Q]].
      split; [reflexivity |].
      split; intros u; rewrite started_cons, andb_false_r; cbn [orb]; [apply S | apply Q].
    + assert (G : forall asset a rs',
                (browser v = OnLoad \/ browser v = OnError) ->
                outcome browser v = Some asset ->
                settle browser (obj_set v asset a1) calls = Returned (a, rs') ->
                report browser v :: rs' = map (answer browser) ((v, Started) :: calls)
                /\ (forall u, obj_get u a
                              = if started u ((v, Started) :: calls)
                                then outcome browser u else obj_get u a1)
                /\ (forall u, started u ((v, Started) :: calls) = true ->
                              browser u <> Silence)).
      { intros asset a rs' Hv Ho E. destruct (IH _ _ _ E) as [-> [S Q]].
        split; [reflexivity |].
        split; intros u; rewrite started_cons, andb_true_r.
        - rewrite S, obj_get_set.
          destruct (String.eqb_spec u v) as [-> | N]; cbn [orb]; [| reflexivity].
          rewrite Ho. now destruct (started v calls).
        - intros Hu. apply orb_true_iff in Hu as [Hu | Hu]; [| now apply Q].
          apply String.eqb_eq in Hu. subst u. destruct Hv as [Hv | Hv]; congruence. }
      destruct (browser v) eqn:Ev; try discriminate.
      * destruct (settle browser _ calls) as [[a rs'] | |] eqn:E; try discriminate.
        injection H as <- <-.
        replace (success v (Url v)) with (report browser v)
          by (unfold report; now rewrite Ev).
        apply (G (Loaded v)); [now left | unfold outcome; now rewrite Ev | exact E].
      * destruct (settle browser _ calls) as [[a rs'] | |] eqn:E; try discriminate.
        injection H as <- <-.
        replace (error v (failure v (fileExtension v))) with (report browser v)
          by (unfold report; now rewrite Ev).
        apply (G (Failed (failure v (fileExtension v))));
          [now right | unfold outcome; now rewrite Ev | exact E].
Qed.

Lemma settle_returns (calls : list (string * Call)) : forall a1,
  (forall u, started u calls = true -> browser u <> Silence) ->
  exists a2 rs, settle browser a1 calls = Returned (a2, rs).
Proof.
  induction calls as [| [v call] calls IH]; intros a1 Q; cbn [settle].
  - now exists a1, [].
  - assert (Q' : forall u, started u calls = true -> browser u <> Silence).
    { intros u Hu. apply Q. unfold started. cbn [existsb].
      apply orb_true_iff. now right. }
    destruct call as [x |].
    + destruct (IH a1 Q') as [a2 [rs ->]]. now eexists _, _.
    + assert (Hv : browser v <> Silence).
      { apply Q. unfold started. cbn [existsb fst snd].
        now rewrite String.eqb_refl. }
      destruct (browser v); [| | congruence].
      * destruct (IH (obj_set v (Loaded v) a1) Q') as [a2 [rs ->]]. now eexists _, _.
      * destruct (IH (obj_set v (Failed (failure v (fileExtension v))) a1) Q')
          as [a2 [rs ->]]. now eexists _, _.
Qed.

Lemma obj_get_fire (i : Z) (u : string) (a : Assets) :
  obj_get u (fire meanwhile i a) = option_map (fired meanwhile i u) (obj_get u a).
Proof.
  unfold fire. induction a as [| [v x] a IH]; cbn [map obj_get fst snd]; [reflexivity |].
  destruct (String.eqb_spec u v) as [-> | N]; [reflexivity | exact IH].
Qed.

Lemma waits_cached (f : string -> Asset) (ch : list string) :
  waits (map (fun u => (u, Cached (f u))) ch) = false.
Proof. induction ch as [| u ch IH]; [reflexivity | exact IH]. Qed.

(** One chunk: a result for each of its URLs, and the map afterwards. *)
Lemma chunk_returned (i : Z) (a : Assets) (ch : list string) (a2 : Assets) (rs : list Result) :
  await_all browser meanwhile i (fst (start a ch)) (snd (start a ch)) = Returned (a2, rs) ->
  rs = map (answer browser) (snd (start a ch))
  /\ map result_url rs = ch
  /\ (forall u, obj_get u a2
                = option_map
                    (if waits (snd (start a ch)) then fired meanwhile i u else fun x => x)
                    (match obj_get u a with
                     | Some x => Some x
                     | None => if mem u ch then outcome browser u else None
                     end))
  /\ (forall u, In u ch -> obj_get u a = None -> browser u <> Silence).
Proof.
  unfold await_all. intros H.
  destruct (settle browser (fst (start a ch)) (snd (start a ch))) as [[a1 rs1] | |] eqn:E;
    try discriminate.
  injection H as <- <-.
  apply settle_returned in E. destruct E as [-> [S Q]].
  split; [reflexivity |]. split; [| split].
  - rewrite map_map. rewrite (map_ext _ fst) by apply result_url_answer.
    apply start_urls.
  - intros u.
    assert (G : obj_get u a1
                = match obj_get u a with
                  | Some x => Some x
                  | None => if mem u ch then outcome browser u else None
                  end).
    { rewrite S, start_started, start_assets.
      destruct (obj_get u a); [reflexivity |]. now destruct (mem u ch). }
    destruct (waits (snd (start a ch))).
    + now rewrite obj_get_fire, G.
    + rewrite G. destruct (obj_get u a) as [x |]; [reflexivity |].
      destruct (mem u ch); [now destruct (outcome browser u) | reflexivity].
  - intros u Hin Hu. apply Q. rewrite start_started, Hu.
    apply existsb_exists. exists u. split; [exact Hin | apply String.eqb_refl].
Qed.

(** What a chunk leaves in the map. *)
Lemma chunk_leaves (i : Z) (a : Assets) (ch : list string) (a2 : Assets) (rs : list Result) :
  await_all browser meanwhile i (fst (start a ch)) (snd (start a ch)) = Returned (a2, rs) ->
  forall u, run_leaves browser a ch u (obj_get u a2).
Proof.
  intros H u. apply chunk_returned in H. destruct H as [_ [_ [S _]]].
  rewrite S. unfold run_leaves, fired, outcome.
  destruct (obj_get u a) as [[| url | reason] |]; cbn [option_map].
  - destruct (waits _); [destruct (meanwhile i u) |]; tauto.
  - now destruct (waits _).
  - now destruct (waits _).
  - destruct (mem u ch); [| now destruct (waits _)].
    destruct (browser u); cbn [option_map]; now destruct (waits _).
Qed.

Lemma preload_from_eq (fuel : nat) (a : Assets) (urls : list string) (c i : Z)
    (res : list Result) :
  preload_from browser meanwhile fuel a urls c i res
  = if (i <? Z.of_nat (List.length urls))%Z then
      match fuel with
      | O => Looping
      | S fuel' =>
          match await_all browser meanwhile i (fst (start a (Array_slice urls i (i + c))))
                  (snd (start a (Array_slice urls i (i + c)))) with
          | Returned (a2, rs) =>
              preload_from browser meanwhile fuel' a2 urls c (i + c)%Z (res ++ rs)%list
          | Awaiting => Awaiting
          | Looping => Looping
          end
      end
    else Returned (a, res).
Proof.
  destruct fuel; cbn [preload_from]; [reflexivity |].
  destruct (i <? Z.of_nat (List.length urls))%Z; [| reflexivity].
  destruct (start a (Array_slice urls i (i + c))) as [a1 calls]. reflexivity.
Qed.

(** What holds before the loop and is kept by every chunk holds when the
    loop returns. *)
Lemma preload_from_kept (P : Assets -> list string -> list Result -> Prop)
    (urls : list string) (c : Z) :
  (1 <= c)%Z ->
  (forall i a pre res ch a2 rs,
     P a pre res -> (exists n, (pre ++ ch)%list = firstn n urls) ->
     await_all browser meanwhile i (fst (start a ch)) (snd (start a ch)) = Returned (a2, rs) ->
     P a2 (pre ++ ch)%list (res ++ rs)%list) ->
  forall fuel i a res a' rs',
  (0 <= i)%Z -> P a (firstn (Z.to_nat i) urls) res ->
  preload_from browser meanwhile fuel a urls c i res = Returned (a', rs') ->
  P a' urls rs'.
Proof.
  intros Hc Hstep. induction fuel as [| fuel IH]; intros i a res a' rs' Hi HP H;
    rewrite preload_from_eq in H;
    destruct (Z.ltb_spec i (Z.of_nat (List.length urls))) as [L | G];
    try discriminate.
  - injection H as <- <-. rewrite firstn_all2 in HP by lia. exact HP.
  - rewrite slice_chunk in H by assumption.
    set (ch := firstn (Z.to_nat c) (skipn (Z.to_nat i) urls)) in *.
    destruct (await_all browser meanwhile i (fst (start a ch)) (snd (start a ch)))
      as [[a2 rs] | |] eqn:E; try discriminate.
    assert (Hpre : (firstn (Z.to_nat i) urls ++ ch)%list = firstn (Z.to_nat (i + c)) urls).
    { unfold ch. rewrite Z2Nat.inj_add by lia. now rewrite firstn_add. }
    apply (IH (i + c)%Z a2 (res ++ rs)%list); [lia | | exact H].
    rewrite <- Hpre. apply (Hstep i a _ res ch a2 rs HP); [| exact E].
    now exists (Z.to_nat (i + c)).
  - injection H as <- <-. rewrite firstn_all2 in HP by lia. exact HP.
Qed.

Lemma mem_app (u : string) (l l' : list string) : mem u (l ++ l')%list = mem u l || mem u l'.
Proof. unfold mem. apply existsb_app. Qed.

Lemma run_leaves_app (a0 a : Assets) (pre ch : list string) (u : string)
    (now : option Asset) :
  run_leaves browser a0 pre u (obj_get u a) ->
  run_leaves browser a ch u now ->
  run_leaves browser a0 (pre ++ ch)%list u now.
Proof.
  unfold run_leaves. rewrite mem_app.
  destruct (obj_get u a0) as [[| url | reason] |].
  - intros [-> | [-> | ->]]; tauto.
  - now intros ->.
  - now intros ->.
  - destruct (mem u pre); cbn [orb]; intros ->; [| tauto].
    unfold outcome. destruct (browser u); try tauto. now destruct (mem u ch).
Qed.

Lemma run_leaves_start (a : Assets) (u : string) :
  run_leaves browser a [] u (obj_get u a).
Proof.
  unfold run_leaves. destruct (obj_get u a) as [[| url | reason] |]; cbn; tauto.
Qed.

(** A run adds no key but those of its URLs, and drops none. *)
Lemma run_leaves_none (a0 : Assets) (urls : list string) (u : string) (now : option Asset) :
  run_leaves browser a0 urls u now -> now = None -> obj_get u a0 = None.
Proof.
  unfold run_leaves. destruct (obj_get u a0) as [[| url | reason] |]; [| | | reflexivity].
  - intros [-> | [-> | ->]]; discriminate.
  - intros ->. discriminate.
  - intros ->. discriminate.
Qed.

(** The loop returns when it has fuel for every chunk and no loader it
    starts stays silent. *)
Lemma preload_from_returns (a0 : Assets) (urls : list string) (c : Z) :
  (1 <= c)%Z -> settles browser a0 urls ->
  forall fuel i a res,
  (0 <= i)%Z -> (Z.of_nat (List.length urls) - i <= Z.of_nat fuel)%Z ->
  (forall u, obj_get u a = None -> obj_get u a0 = None) ->
  exists a' rs', preload_from browser meanwhile fuel a urls c i res = Returned (a', rs').
Proof.
  intros Hc Hq. induction fuel as [| fuel IH]; intros i a res Hi Hf Hm;
    rewrite preload_from_eq;
    destruct (Z.ltb_spec i (Z.of_nat (List.length urls))) as [L | G];
    try lia; try (now eexists _, _).
  rewrite slice_chunk by assumption.
  set (ch := firstn (Z.to_nat c) (skipn (Z.to_nat i) urls)).
  destruct (settle_returns (snd (start a ch)) (fst (start a ch))) as [a2 [rs E]].
  { intros u Hu. rewrite start_started in Hu.
    destruct (obj_get u a) eqn:Eu; [discriminate |].
    apply existsb_exists in Hu. destruct Hu as [v [Hv Euv]].
    apply String.eqb_eq in Euv. subst v.
    apply Hq; [| now apply Hm]. unfold ch in Hv.
    apply firstn_In in Hv. now apply skipn_In in Hv. }
  assert (E' : await_all browser meanwhile i (fst (start a ch)) (snd (start a ch))
               = Returned (if waits (snd (start a ch)) then fire meanwhile i a2 else a2, rs))
    by (unfold await_all; now rewrite E).
  rewrite E'. apply IH; [lia | lia |].
  intros u Hu. apply Hm.
  exact (run_leaves_none a ch u _ (chunk_leaves i a ch _ rs E' u) Hu).
Qed.

(** X16. [preloadAssets] with a chunk size of 1 or more (3 by default)
    returns, as long as no loader it starts stays silent: after as many
    chunks as the list needs (a fuel of the number of URLs is enough in the
    model) it has one result for every URL, in the order of the URLs,
    duplicates included. In [loadedAssets] every entry that was there
    before and was not ['loading'] is unchanged, an error as well; an
    entry that was ['loading'] belongs to a loader that is still pending,
    and is afterwards still ['loading'], or ['loaded'] with its URL, or an
    error with the reason of its URL, as the handlers of that loader leave
    it when its element fires while the call awaits a chunk; it is still
    ['loading'] when that element fires in none of the waits. Every other
    URL of the list has the outcome of its own loader, ['loaded'] or
    ['error']; no other key is added. *)
Theorem preloadAssets_run (fuel : nat) (loadedAssets : Assets) (urls : list string)
    (concurrent : option Z) :
  (1 <= chunk_size concurrent)%Z ->
  settles browser loadedAssets urls ->
  (List.length urls <= fuel)%nat ->
  exists after results,
    preloadAssets browser meanwhile fuel loadedAssets urls concurrent
    = Returned (after, results)
    /\ map result_url results = urls
    /\ (forall u, run_leaves browser loadedAssets urls u (obj_get u after))
    /\ (forall u, obj_get u loadedAssets = Some Loading ->
                  (forall i, meanwhile i u = Silence) ->
                  obj_get u after = Some Loading).
Proof.
  intros Hc Hq Hf. unfold preloadAssets. fold (chunk_size concurrent).
  destruct (preload_from_returns loadedAssets urls (chunk_size concurrent) Hc Hq
              fuel 0%Z loadedAssets []) as [a' [rs' E]]; [lia | lia | auto |].
  exists a', rs'. split; [exact E |].
  apply (preload_from_kept
           (fun a pre res =>
              map result_url res = pre
              /\ (forall u, run_leaves browser loadedAssets pre u (obj_get u a))
              /\ (forall u, obj_get u loadedAssets = Some Loading ->
                            (forall i, meanwhile i u = Silence) ->
                            obj_get u a = Some Loading))
           urls (chunk_size concurrent) Hc) in E; [exact E | | lia |].
  - intros i a pre res ch a2 rs [H1 [H2 H3]] _ Hs.
    pose proof (chunk_leaves i a ch a2 rs Hs) as L.
    apply chunk_returned in Hs. destruct Hs as [_ [U [S _]]]. split; [| split].
    + now rewrite map_app, H1, U.
    + intros u. exact (run_leaves_app loadedAssets a pre ch u _ (H2 u) (L u)).
    + intros u Hu Hs. rewrite S, (H3 u Hu Hs). cbn [option_map]. unfold fired.
      rewrite Hs. now destruct (waits _).
  - cbn [firstn Z.to_nat map]. split; [reflexivity |]. split.
    + intros u. apply run_leaves_start.
    + intros u Hu _. exact Hu.
Qed.

(** X17. With a chunk size of 0 or less and a list that is not empty,
    [preloadAssets] never returns: the index never passes the end of the
    list. Whatever the number of iterations, the run is still in its loop
    or awaits a loader. *)
Theorem preloadAssets_stuck (fuel : nat) (loadedAssets : Assets) (urls : list string)
    (concurrent : Z) :
  (concurrent <= 0)%Z -> urls <> [] ->
  forall after results,
  preloadAssets browser meanwhile fuel loadedAssets urls (Some concurrent)
  <> Returned (after, results).
Proof.
  intros Hc Hne. unfold preloadAssets.
  assert (G : forall fuel i a res after results,
            (i <= 0)%Z ->
            preload_from browser meanwhile fuel a urls concurrent i res
            <> Returned (after, results)).
  { clear fuel loadedAssets.
    induction fuel as [| fuel IH]; intros i a res after results Hi;
      rewrite preload_from_eq;
      (destruct (Z.ltb_spec i (Z.of_nat (List.length urls))) as [L | G];
       [| destruct urls; [congruence | cbn [List.length] in G; lia]]).
    - discriminate.
    - destruct (await_all browser meanwhile _ _ _) as [[a2 rs] | |]; try discriminate.
      apply IH. lia. }
  intros after results. apply G. lia.
Qed.

End Preload.

Section Results.
Import Builtins AssetPreload.

(** The default chunk size and one failing video among four assets, in a
    map with a load that was pending and ends while the first chunk is
    awaited. *)
Lemma preloadAssets_run_witness :
  (1 <= chunk_size None)%Z
  /\ settles flaky pending assets
  /\ exists after results,
       preloadAssets flaky late 4 pending assets None = Returned (after, results)
       /\ map result_url results = assets
       /\ obj_get "/posts/old.png" after = Some (Loaded "/posts/old.png")
       /\ obj_get "/posts/gone.png" after
          = Some (Failed "Failed to load image: /posts/gone.png")
       /\ obj_get "/posts/b.mp4" after
          = Some (Failed "Failed to load video: /posts/b.mp4").
Proof.
  assert (H1 : (1 <= chunk_size None)%Z) by (cbn; lia).
  assert (H2 : settles flaky pending assets).
  { intros u _ _. unfold flaky. destruct (String.eqb u "/posts/b.mp4"); discriminate. }
  assert (H3 : (List.length assets <= 4)%nat) by (cbn; lia).
  destruct (preloadAssets_run flaky late 4 pending assets None H1 H2 H3)
    as [after [results [E [U [L _]]]]].
  refine (conj H1 (conj H2 _)). exists after, results.
  split; [exact E |]. split; [exact U |].
  pose proof (L "/posts/gone.png") as L1. pose proof (L "/posts/b.mp4") as L2.
  split; [| exact (conj L1 L2)].
  revert E. vm_compute. intros [= <- _]. reflexivity.
Defined.

(** A chunk size of 0 and one URL. *)
Lemma preloadAssets_stuck_witness :
  (0 <= 0)%Z /\ ["/posts/a.webp"] <> []
  /\ preloadAssets flaky quiet 1000 [] ["/posts/a.webp"] (Some 0%Z) = Looping.
Proof.
  assert (H1 : (0 <= 0)%Z) by lia.
  assert (H2 : ["/posts/a.webp"] <> []) by discriminate.
  pose proof (preloadAssets_stuck flaky quiet 1000 [] ["/posts/a.webp"] 0 H1 H2) as H.
  refine (conj H1 (conj H2 _)).
  destruct (preloadAssets flaky quiet 1000 [] ["/posts/a.webp"] (Some 0%Z))
    as [[a rs] | |] eqn:E.
  - exfalso. exact (H a rs eq_refl).
  - exfalso. revert E. vm_compute. discriminate.
  - reflexivity.
Defined.

Lemma settle_cached (browser : string -> Event) (f : string -> Asset) (ch : list string) :
  forall a,
  settle browser a (map (fun u => (u, Cached (f u))) ch)
  = Returned (a, map (fun u => success u (Entry (f u))) ch).
Proof.
  induction ch as [| u ch IH]; intros a; cbn [map settle]; [reflexivity |].
  now rewrite IH.
Qed.

Lemma start_cached (a : Assets) (ch : list string) :
  (forall u, In u ch -> obj_get u a <> None) ->
  start a ch
  = (a, map (fun u => (u, Cached (match obj_get u a with
                                  | Some asset => asset
                                  | None => Loading
                                  end))) ch).
Proof.
  induction ch as [| u ch IH]; intros H; [reflexivity |].
  rewrite start_cons. unfold preloadAsset.
  destruct (obj_get u a) as [x |] eqn:E; [| now destruct (H u (or_introl eq_refl))].
  cbn [fst snd]. rewrite IH by (intros v Hv; apply H; now right).
  cbn [fst snd map]. now rewrite E.
Qed.

Lemma start_fresh (ch : list string) : forall a,
  NoDup ch -> (forall u, In u ch -> obj_get u a = None) ->
  snd (start a ch) = map (fun u => (u, Started)) ch.
Proof.
  induction ch as [| u ch IH]; intros a Hn H; [reflexivity |].
  inversion Hn as [| ? ? Hnot Hn']; subst.
  rewrite start_cons. unfold preloadAsset. rewrite (H u (or_introl eq_refl)).
  cbn [fst snd map]. rewrite IH; [reflexivity | exact Hn' |].
  intros v Hv. rewrite obj_get_set.
  destruct (String.eqb_spec v u) as [-> | N]; [contradiction | apply H; now right].
Qed.

Lemma NoDup_app_apart {A : Type} (l l' : list A) (x : A) :
  NoDup (l ++ l')%list -> In x l -> In x l' -> False.
Proof.
  induction l as [| y l IH]; cbn; [tauto |].
  intros Hn [-> | Hin] Hin'; inversion Hn as [| ? ? Hnot Hn']; subst.
  - apply Hnot. apply in_or_app. now right.
  - now apply IH.
Qed.

Lemma mem_In (u : string) (l : list string) : mem u l = true <-> In u l.
Proof.
  unfold mem. rewrite existsb_exists. split.
  - intros [v [Hv E]]. apply String.eqb_eq in E. now subst.
  - intros H. exists u. split; [exact H | apply String.eqb_refl].
Qed.

(** X18. URLs that [loadedAssets] has already are never loaded again:
    for a list of such URLs and a chunk size of 1 or more, whatever the
    browser would do and whatever loads are still pending, [preloadAssets]
    returns, leaves the map as it is, and reports every URL as a success
    whose result is the entry of the map, not the URL, also for an entry
    that records an error or a load still under way. *)
Theorem preloadAssets_cached (browser : string -> Event) (meanwhile : Z -> string -> Event)
    (fuel : nat) (loadedAssets : Assets) (urls : list string) (concurrent : option Z) :
  (1 <= chunk_size concurrent)%Z ->
  (forall u, In u urls -> obj_get u loadedAssets <> None) ->
  (List.length urls <= fuel)%nat ->
  preloadAssets browser meanwhile fuel loadedAssets urls concurrent
  = Returned (loadedAssets, map (replay loadedAssets) urls).
Proof.
  intros Hc Hk Hf. unfold preloadAssets. fold (chunk_size concurrent).
  destruct (preload_from_returns browser meanwhile loadedAssets urls (chunk_size concurrent) Hc
              (fun u Hu E => False_ind _ (Hk u Hu E))
              fuel 0%Z loadedAssets []) as [a' [rs' E]]; [lia | lia | auto |].
  rewrite E. f_equal.
  apply (preload_from_kept browser meanwhile
           (fun a pre res => a = loadedAssets /\ res = map (replay loadedAssets) pre)
           urls (chunk_size concurrent) Hc) in E.
  - destruct E as [-> ->]. reflexivity.
  - intros i a pre res ch a2 rs [-> ->] [n Hn] Hs.
    rewrite start_cached in Hs.
    + cbn [fst snd] in Hs. unfold await_all in Hs.
      rewrite settle_cached, waits_cached in Hs. injection Hs as <- <-.
      split; [reflexivity |]. now rewrite map_app.
    + intros u Hu. apply Hk. apply (firstn_In u urls n). rewrite <- Hn.
      apply in_or_app. now right.
  - lia.
  - now split.
Qed.

(** The map after a first run with a load still pending, and a browser
    that would now fail. *)
Lemma preloadAssets_cached_witness :
  preloadAssets (fun _ => OnError) (fun _ _ => OnLoad) 2
    [("/posts/a.webp", Loading);
     ("/posts/b.mp4", Failed "Failed to load video: /posts/b.mp4")]
    ["/posts/b.mp4"; "/posts/a.webp"] None
  = Returned
      ([("/posts/a.webp", Loading);
        ("/posts/b.mp4", Failed "Failed to load video: /posts/b.mp4")],
       [success "/posts/b.mp4" (Entry (Failed "Failed to load video: /posts/b.mp4"));
        success "/posts/a.webp" (Entry Loading)]).
Proof.
  apply (preloadAssets_cached (fun _ => OnError) (fun _ _ => OnLoad) 2
           [("/posts/a.webp", Loading);
            ("/posts/b.mp4", Failed "Failed to load video: /posts/b.mp4")]
           ["/posts/b.mp4"; "/posts/a.webp"] None).
  - cbn. lia.
  - intros u [<- | [<- | []]]; discriminate.
  - cbn. lia.
Defined.

(** X19. For a list of different URLs none of which is in [loadedAssets],
    [preloadAssets] reports each URL by what its own loader did: a success
    with the URL as its result when the element fired [load], an error
    with the reason ["Failed to load video: <url>"] for an [.mp4] (in any
    case of the letters) and ["Failed to load image: <url>"] for any other
    URL when it fired [error]. *)
Theorem preloadAssets_fresh (browser : string -> Event) (meanwhile : Z -> string -> Event)
    (fuel : nat) (loadedAssets : Assets) (urls : list string) (concurrent : option Z) :
  (1 <= chunk_size concurrent)%Z ->
  NoDup urls ->
  (forall u, In u urls -> obj_get u loadedAssets = None /\ browser u <> Silence) ->
  (List.length urls <= fuel)%nat ->
  exists after,
    preloadAssets browser meanwhile fuel loadedAssets urls concurrent
    = Returned (after, map (report browser) urls)
    /\ Forall (fun u =>
                 report browser u
                 = match browser u with
                   | OnLoad => success u (Url u)
                   | _ =>
                       error u
                         ((if String.eqb (toLowerCase (split_pop "." u)) "mp4"
                           then "Failed to load video: " else "Failed to load image: ") ++ u)
                   end)
         urls.
Proof.
  intros Hc Hn Hu Hf. unfold preloadAssets. fold (chunk_size concurrent).
  destruct (preload_from_returns browser meanwhile loadedAssets urls (chunk_size concurrent) Hc
              (fun u Hin _ => proj2 (Hu u Hin))
              fuel 0%Z loadedAssets []) as [a' [rs' E]]; [lia | lia | auto |].
  exists a'. rewrite E. split.
  - f_equal. f_equal.
    apply (preload_from_kept browser meanwhile
             (fun a pre res =>
                res = map (report browser) pre
                /\ forall u, run_leaves browser loadedAssets pre u (obj_get u a))
             urls (chunk_size concurrent) Hc) in E.
    + tauto.
    + intros i a pre res ch a2 rs [-> S] [n Hpre] Hs.
      pose proof (chunk_leaves browser meanwhile i a ch a2 rs Hs) as S2.
      apply chunk_returned in Hs. destruct Hs as [-> _].
      assert (Hnd : NoDup (pre ++ ch)%list).
      { rewrite Hpre. rewrite <- (firstn_skipn n urls) in Hn.
        now apply NoDup_app_remove_r in Hn. }
      split.
      * rewrite start_fresh.
        -- rewrite map_app, map_map. reflexivity.
        -- now apply NoDup_app_remove_l in Hnd.
        -- intros u Hin. specialize (S u). unfold run_leaves in S.
           assert (Hurls : In u urls)
             by (apply (firstn_In u urls n); rewrite <- Hpre; apply in_or_app; now right).
           rewrite (proj1 (Hu u Hurls)) in S. rewrite S.
           destruct (mem u pre) eqn:Em; [| reflexivity].
           apply mem_In in Em. exfalso. exact (NoDup_app_apart pre ch u Hnd Em Hin).
      * intros u. exact (run_leaves_app browser loadedAssets a pre ch u _ (S u) (S2 u)).
    + lia.
    + split; [reflexivity |]. intros u. apply run_leaves_start.
  - rewrite Forall_forall. intros u _. unfold report, failure, fileExtension.
    destruct (browser u); try reflexivity;
      destruct (String.eqb (toLowerCase (split_pop "." u)) "mp4"); reflexivity.
Qed.

(** Four assets, one of them a video that fails. *)
Lemma preloadAssets_fresh_witness :
  exists after,
    preloadAssets flaky quiet 4 [] assets None
    = Returned
        (after,
         [success "/posts/a.webp" (Url "/posts/a.webp");
          error "/posts/b.mp4" "Failed to load video: /posts/b.mp4";
          success "/posts/c.png" (Url "/posts/c.png");
          success "/posts/d.png" (Url "/posts/d.png")]).
Proof.
  destruct (preloadAssets_fresh flaky quiet 4 [] assets None) as [after [E _]].
  - cbn. lia.
  - repeat constructor; cbn; intuition discriminate.
  - intros u _. split; [reflexivity |].
    unfold flaky. destruct (String.eqb u "/posts/b.mp4"); discriminate.
  - cbn. lia.
  - exists after. exact E.
Defined.

(** X20. Preloading the same list a second time loads nothing and reports
    no error: after a run of [preloadAssets] that returned, a second run
    over the same URLs, with any chunk size of 1 or more and whatever the
    browser would do now, leaves [loadedAssets] as the first run left it
    and reports every URL as a success, also a URL whose load failed in
    the first run; its result is then the entry with the status
    ['error']. *)
Theorem preloadAssets_again (browser browser' : string -> Event)
    (meanwhile meanwhile' : Z -> string -> Event) (fuel fuel' : nat)
    (loadedAssets : Assets) (urls : list string) (concurrent concurrent' : option Z) :
  (1 <= chunk_size concurrent)%Z -> (1 <= chunk_size concurrent')%Z ->
  settles browser loadedAssets urls ->
  (List.length urls <= fuel)%nat -> (List.length urls <= fuel')%nat ->
  exists after results,
    preloadAssets browser meanwhile fuel loadedAssets urls concurrent
    = Returned (after, results)
    /\ preloadAssets browser' meanwhile' fuel' after urls concurrent'
       = Returned (after, map (replay after) urls)
    /\ Forall (fun r => is_success r = true) (map (replay after) urls)
    /\ forall u, In u urls -> obj_get u loadedAssets = None -> browser u = OnError ->
         replay after u = success u (Entry (Failed (failure u (fileExtension u)))).
Proof.
  intros Hc Hc' Hq Hf Hf'.
  destruct (preload_from_returns browser meanwhile loadedAssets urls (chunk_size concurrent)
              Hc Hq fuel 0%Z loadedAssets []) as [a' [rs' E]]; [lia | lia | auto |].
  assert (S : forall u, run_leaves browser loadedAssets urls u (obj_get u a')).
  { refine (preload_from_kept browser meanwhile
              (fun a pre res => forall u, run_leaves browser loadedAssets pre u (obj_get u a))
              urls (chunk_size concurrent) Hc _ fuel 0%Z loadedAssets [] a' rs' _ _ E);
      [| lia |].
    - intros i a pre res ch a2 rs S _ Hs u.
      exact (run_leaves_app browser loadedAssets a pre ch u _ (S u)
               (chunk_leaves browser meanwhile i a ch a2 rs Hs u)).
    - intros u. apply run_leaves_start. }
  exists a', rs'. split; [exact E |]. split; [| split].
  - assert (Hk : forall u, In u urls -> obj_get u a' <> None).
    { intros u Hu Hn. pose proof (run_leaves_none browser loadedAssets urls u _ (S u) Hn) as E0.
      specialize (S u). unfold run_leaves in S. rewrite E0, Hn in S.
      apply mem_In in Hu. rewrite Hu in S. unfold outcome in S.
      apply mem_In in Hu. specialize (Hq u Hu E0). now destruct (browser u). }
    unfold preloadAssets. fold (chunk_size concurrent').
    destruct (preload_from_returns browser' meanwhile' a' urls (chunk_size concurrent') Hc'
                (fun u Hu E0 => False_ind _ (Hk u Hu E0))
                fuel' 0%Z a' []) as [a2 [rs2 E2]]; [lia | lia | auto |].
    rewrite E2. f_equal.
    apply (preload_from_kept browser' meanwhile'
             (fun a pre res => a = a' /\ res = map (replay a') pre)
             urls (chunk_size concurrent') Hc') in E2.
    + destruct E2 as [-> ->]. reflexivity.
    + intros i a pre res ch a3 rs [-> ->] [n Hn] Hs.
      rewrite start_cached in Hs.
      * cbn [fst snd] in Hs. unfold await_all in Hs.
        rewrite settle_cached, waits_cached in Hs. injection Hs as <- <-.
        split; [reflexivity |]. now rewrite map_app.
      * intros u Hu. apply Hk. apply (firstn_In u urls n). rewrite <- Hn.
        apply in_or_app. now right.
    + lia.
    + now split.
  - rewrite Forall_forall. intros r Hr. apply in_map_iff in Hr.
    now destruct Hr as [u [<- _]].
  - intros u Hu E0 Ev. unfold replay. specialize (S u). unfold run_leaves in S.
    rewrite E0 in S. rewrite S.
    apply mem_In in Hu. rewrite Hu. unfold outcome. now rewrite Ev.
Qed.

End Results.

Section Init.
Import Builtins AssetPreload.

(** A first run with the default chunk size, a second one URL at a time
    with a browser in which nothing loads. *)
Lemma preloadAssets_again_witness :
  exists after results,
    preloadAssets flaky quiet 4 [] assets None = Returned (after, results)
    /\ preloadAssets (fun _ => OnError) quiet 4 after assets (Some 1%Z)
       = Returned (after, map (replay after) assets)
    /\ replay after "/posts/b.mp4"
       = success "/posts/b.mp4" (Entry (Failed "Failed to load video: /posts/b.mp4")).
Proof.
  destruct (preloadAssets_again flaky (fun _ => OnError) quiet quiet 4 4 [] assets None
              (Some 1%Z))
    as [after [results [E1 [E2 [_ F]]]]].
  - cbn. lia.
  - cbn. lia.
  - intros u _ _. unfold flaky. destruct (String.eqb u "/posts/b.mp4"); discriminate.
  - cbn. lia.
  - cbn. lia.
  - exists after, results. split; [exact E1 |]. split; [exact E2 |].
    apply (F "/posts/b.mp4"); [cbn; tauto | reflexivity | reflexivity].
Defined.

Lemma drop_prefix (p r : string) : drop (String.length p) (p ++ r) = r.
Proof. induction p as [| c p IH]; [now destruct r | exact IH]. Qed.

Lemma prefix_append (p r : string) : prefix p (p ++ r) = true.
Proof.
  induction p as [| c p IH]; cbn; [now destruct r |].
  destruct (ascii_dec c c); [exact IH | congruence].
Qed.

Lemma remove_first_prefix (p r : string) : remove_first p (p ++ r) = r.
Proof.
  destruct (p ++ r) as [| c s] eqn:E; cbn [remove_first].
  - pose proof (prefix_append p r) as H. rewrite E in H. rewrite H.
    rewrite <- E. apply drop_prefix.
  - pose proof (prefix_append p r) as H. rewrite E in H. rewrite H.
    rewrite <- E. apply drop_prefix.
Qed.

(** X21. [init] preloads one URL for every path of the glob, the path
    without its first ["/public"], and its summary adds up: as long as no
    loader stays silent it returns a result for each asset, [total] is the
    number of assets, and [successful] and [failed] together are [total]. *)
Theorem init_summary (browser : string -> Event) (meanwhile : Z -> string -> Event)
    (fuel : nat) (loadedAssets : Assets) (paths : list string) :
  settles browser loadedAssets (findAssets paths) ->
  (List.length paths <= fuel)%nat ->
  (exists after results s,
     init browser meanwhile fuel loadedAssets paths = Returned (after, results, s)
     /\ map result_url results = findAssets paths
     /\ total s = List.length paths
     /\ (successful s + failed s = total s)%nat)
  /\ forall rest, findAssets (map (fun r => "/public" ++ r) rest) = rest.
Proof.
  intros Hq Hf. split.
  - unfold init, preloadAssets.
    assert (Hlen : List.length (findAssets paths) = List.length paths)
      by (unfold findAssets; apply length_map).
    destruct (preload_from_returns browser meanwhile loadedAssets (findAssets paths) 3
                ltac:(lia) Hq
                fuel 0%Z loadedAssets []) as [a' [rs' E]]; [lia | lia | auto |].
    rewrite E. exists a', rs', (summary rs').
    assert (U : map result_url rs' = findAssets paths).
    { refine (preload_from_kept browser meanwhile (fun a pre res => map result_url res = pre)
                (findAssets paths) 3 ltac:(lia) _ fuel 0%Z loadedAssets [] a' rs' _ _ E);
        [| lia | reflexivity].
      intros i a pre res ch a2 rs H _ Hs. apply chunk_returned in Hs.
      destruct Hs as [_ [Hu _]]. now rewrite map_app, H, Hu. }
    split; [reflexivity |]. split; [exact U |].
    unfold summary. cbn [total successful failed]. split.
    + rewrite <- Hlen, <- U. symmetry. apply length_map.
    + apply filter_length.
  - intros rest. unfold findAssets. rewrite map_map.
    rewrite (map_ext _ (fun r => r)) by (intros r; apply remove_first_prefix).
    apply map_id.
Qed.

(** The four assets under [/public], one of them failing. *)
Lemma init_summary_witness :
  settles flaky [] (findAssets (map (fun r => "/public" ++ r) assets))
  /\ exists after results,
       init flaky quiet 4 [] (map (fun r => "/public" ++ r) assets)
       = Returned (after, results, {| total := 4; successful := 3; failed := 1 |}).
Proof.
  assert (H1 : settles flaky [] (findAssets (map (fun r => "/public" ++ r) assets))).
  { intros u _ _. unfold flaky. destruct (String.eqb u "/posts/b.mp4"); discriminate. }
  assert (H2 : (List.length (map (fun r => "/public" ++ r) assets) <= 4)%nat) by (cbn; lia).
  destruct (init_summary flaky quiet 4 [] (map (fun r => "/public" ++ r) assets) H1 H2)
    as [[after [results [s [E _]]]] _].
  refine (conj H1 _). exists after, results.
  rewrite E. f_equal. f_equal.
  revert E. vm_compute. intros [= _ _ <-]. reflexivity.
Defined.

End Init.

(** ** The scene bootstrap *)

Section Bootstrap.
Import SceneBootstrap.

Lemma lives_S (n : nat) :
  lives (S n) = (lives n ++ [createScene n; scene_init n; scene_cleanup n])%list.
Proof.
  unfold lives. rewrite seq_S, flat_map_app. cbn. reflexivity.
Qed.

(** What holds of the script at every moment. *)
Lemma handle_kept (P : State -> Prop) :
  (forall s, P s -> P (initThreeJS s)) ->
  (forall s l, P s -> P (unregister l s)) ->
  (forall s, P s ->
     P {| isInitialized := isInitialized s; sceneManager := sceneManager s;
          listeners := listeners s; timer := false; scenes := scenes s; log := log s |}) ->
  (forall s, P s -> P (handle s before_swap)) ->
  (forall s, P s -> P (handle s page_load)) ->
  forall events s, P s -> P (fold_left handle events s).
Proof.
  intros Hinit Hun Htimer Hswap Hload.
  induction events as [| e events IH]; intros s Hs; [exact Hs |].
  cbn [fold_left]. apply IH. destruct e as [l | | |].
  - cbn [handle]. destruct (existsb (Listener_eqb l) (listeners s)); [| exact Hs].
    apply Hinit. now apply Hun.
  - cbn [handle]. destruct (timer s); [| exact Hs]. apply Hinit. now apply Htimer.
  - now apply Hswap.
  - now apply Hload.
Qed.

(** X22. At every moment, whatever the visitor, the timer and the page
    transitions do, the script has at most one scene: the scenes are
    created one after the other, each is initialised as soon as it is
    created and cleaned up once, before the next one is created; and a
    scene exists only after [initThreeJS] has run. The log of what happened
    to scenes is the complete lives of the scenes that are gone, followed
    by the creation and the initialisation of the current one if there is
    one. *)
Theorem scene_lives (isThreeJSCached : bool) (events : list Event) :
  let s := run isThreeJSCached events in
  match sceneManager s with
  | Some k =>
      isInitialized s = true /\ scenes s = S k
      /\ filter about_scene (log s) = (lives k ++ [createScene k; scene_init k])%list
  | None => filter about_scene (log s) = lives (scenes s)
  end.
Proof.
  cbn zeta. unfold run.
  apply (handle_kept
           (fun s =>
              match sceneManager s with
              | Some k =>
                  isInitialized s = true /\ scenes s = S k
                  /\ filter about_scene (log s) = (lives k ++ [createScene k; scene_init k])%list
              | None => filter about_scene (log s) = lives (scenes s)
              end)).
  - intros [i [k |] ls t n lg]; unfold initThreeJS; cbn -[lives].
    + intros [-> H]. cbn -[lives]. exact (conj eq_refl H).
    + intros H. destruct i; cbn -[lives]; [exact H |].
      rewrite !filter_app. cbn -[lives]. rewrite app_nil_r.
      now rewrite H.
  - intros [i [k |] ls t n lg] l; cbn -[lives]; trivial.
  - intros [i [k |] ls t n lg]; cbn -[lives]; trivial.
  - intros [i [k |] ls t n lg]; cbn -[lives].
    + intros [_ [-> H]]. rewrite filter_app, H, lives_S. cbn -[lives].
      rewrite <- app_assoc. reflexivity.
    + trivial.
  - intros [i [k |] ls t n lg]; cbn -[lives]; [trivial |].
    destruct i; cbn -[lives]; [| trivial]. intros H.
    rewrite filter_app, H. cbn -[lives]. now repeat split.
  - destruct isThreeJSCached; cbn; now repeat split.
Qed.

(** X23. [initThreeJS] does its work at most once: the flag is written to
    [localStorage] once, at the moment the script becomes initialised, and
    never again; the script never becomes uninitialised; and as long as it
    is not initialised nothing at all has been done, no scene created and
    nothing stored. When the flag is found in [localStorage] the script is
    initialised from the start. *)
Theorem initialised_once (isThreeJSCached : bool) (events : list Event) (e : Event) :
  let s := run isThreeJSCached events in
  filter (fun a => negb (about_scene a)) (log s)
  = (if isInitialized s then [setItem] else [])
  /\ (if isInitialized s then isInitialized (handle s e) = true
      else log s = [] /\ sceneManager s = None)
  /\ (if isThreeJSCached then isInitialized s = true else True).
Proof.
  cbn zeta.
  assert (G : forall events c,
            let s := run c events in
            filter (fun a => negb (about_scene a)) (log s)
            = (if isInitialized s then [setItem] else [])
            /\ (isInitialized s = false -> log s = [] /\ sceneManager s = None)
            /\ (c = true -> isInitialized s = true)).
  { intros evs c. cbn zeta. unfold run.
    apply (handle_kept
             (fun s =>
                filter (fun a => negb (about_scene a)) (log s)
                = (if isInitialized s then [setItem] else [])
                /\ (isInitialized s = false -> log s = [] /\ sceneManager s = None)
                /\ (c = true -> isInitialized s = true))).
    - intros [i [k |] ls t n lg]; unfold initThreeJS; cbn; destruct i; cbn; trivial;
        intros [H1 [H2 H3]]; destruct (H2 eq_refl) as [-> H4]; try discriminate;
        cbn; repeat split; discriminate.
    - intros [i k ls t n lg] l; cbn; trivial.
    - intros [i k ls t n lg]; cbn; trivial.
    - intros [i [k |] ls t n lg]; cbn; intros [H1 [H2 H3]].
      + rewrite filter_app. cbn. rewrite app_nil_r. split; [exact H1 |].
        split; [| exact H3]. intros E. destruct (H2 E). discriminate.
      + repeat split; try assumption; now apply H2.
    - intros [i [k |] ls t n lg]; cbn; trivial.
      destruct i; cbn; trivial. intros [H1 [H2 H3]].
      rewrite filter_app. cbn. rewrite app_nil_r. repeat split; try assumption; discriminate.
    - destruct c; cbn; repeat split; try discriminate; auto. }
  destruct (G events isThreeJSCached) as [A [B C]]. split; [exact A |]. split.
  - destruct (isInitialized (run isThreeJSCached events)) eqn:E; [| now apply B].
    destruct (G (events ++ [e])%list isThreeJSCached) as [_ [B' _]].
    unfold run in B'. rewrite fold_left_app in B'. cbn [fold_left] in B'.
    fold (run isThreeJSCached events) in B'.
    destruct (isInitialized (handle (run isThreeJSCached events) e)) eqn:E'; [reflexivity |].
    destruct (B' eq_refl) as [L _].
    destruct (G events isThreeJSCached) as [A0 _]. rewrite E in A0.
    assert (M : forall s e0, In setItem (log s) -> In setItem (log (handle s e0))).
    { intros [i k ls t n lg] e0; destruct e0 as [l | | |]; cbn;
        unfold init, initThreeJS; cbn.
      - destruct (existsb (Listener_eqb l) ls); cbn; [| trivial].
        destruct i; cbn; [trivial |]. destruct k; cbn; intros H;
          repeat (apply in_or_app; left); exact H.
      - destruct t; cbn; [| trivial].
        destruct i; cbn; [trivial |]. destruct k; cbn; intros H;
          repeat (apply in_or_app; left); exact H.
      - destruct k; [intros H; apply in_or_app; now left | trivial].
      - destruct k; [trivial |]. destruct i; cbn; [| trivial].
        intros H. apply in_or_app. now left. }
    assert (I : In setItem (log (run isThreeJSCached events))).
    { apply (proj1 (filter_In (fun a => negb (about_scene a)) setItem _)).
      rewrite A0. now left. }
    apply (M _ e) in I. rewrite L in I. destruct I.
  - destruct isThreeJSCached; [now apply C | exact I].
Qed.

(** X24. Without the flag in [localStorage] the script waits: page loads and
    page swaps alone change nothing, so no scene is created before the
    visitor scrolls, clicks, moves the mouse or touches the screen, or the
    timer runs out. The first of these events initialises the script: it
    stores the flag, creates the first scene and initialises it. *)
Theorem waits_for_first_event (navigations : list Event) (e : Event) :
  forallb navigation navigations = true ->
  navigation e = false ->
  run false navigations = boot false
  /\ log (run false (navigations ++ [e])) = [setItem; createScene 0; scene_init 0]
  /\ isInitialized (run false (navigations ++ [e])) = true.
Proof.
  intros Hn He.
  assert (G : run false navigations = boot false).
  { unfold run. induction navigations as [| n ns IH]; [reflexivity |].
    cbn in Hn. apply andb_true_iff in Hn as [H1 H2]. cbn [fold_left].
    destruct n; try discriminate; apply (IH H2). }
  split; [exact G |].
  unfold run in *. rewrite fold_left_app, G. cbn [fold_left].
  destruct e as [[| | |] | | |]; try discriminate; cbn; now split.
Qed.

(** Two page loads, then a click. *)
Lemma waits_for_first_event_witness :
  forallb navigation [page_load; before_swap; page_load] = true
  /\ navigation (window_event click) = false
  /\ log (run false [page_load; before_swap; page_load; window_event click])
     = [setItem; createScene 0; scene_init 0].
Proof.
  exact (conj eq_refl
           (conj eq_refl
              (proj1 (proj2 (waits_for_first_event [page_load; before_swap; page_load]
                               (window_event click) eq_refl eq_refl))))).
Defined.

End Bootstrap.
